(** * Celery: publisher, consumer set, process pool, worker daemon, result backend

    A shallow embedding of the Python sources

      - [celery/backends/base.py]
      - [celery/worker.py]
      - [celery/app/amqp.py]
      - [celery/concurrency/processes/__init__.py]
      - [celery/bin/celerybeat.py]

    Python objects are values of [pyval]; a method that can raise returns a
    [result]; a method with side effects threads an explicit state and
    appends to a log of the calls it makes on its collaborators (broker,
    pool, logger, callbacks). *)

From Stdlib Require Import ZArith Lia List SpecFloat.
From stdpp Require Import base option list strings gmap sets.

#[local] Set Warnings "-register-all,-clear-no-such-hyp".

Local Open Scope string_scope.
Local Open Scope Z_scope.
Local Open Scope list_scope.

(** ** Python values *)

(** The Python objects that travel through the modelled code.  [PInt] is the
    type [int] ([bool] is a subclass of it, as in Python), [PLong] the type
    [long], [PFloat] the type [float], an IEEE 754 double; [PDatetime] is a
    [datetime], in microseconds since 0001-01-01T00:00:00; [PIso t] is the
    text [datetime.isoformat] returns for [PDatetime t]; [PLock] and
    [PLambda] are two objects that [pickle] refuses, the first with
    [TypeError] and the second with [PicklingError]. *)
Inductive pyval : Type :=
| PNone
| PBool (b : bool)
| PInt (z : Z)
| PLong (z : Z)
| PFloat (f : spec_float)
| PStr (s : string)
| PList (l : list pyval)
| PTuple (l : list pyval)
| PDict (d : gmap string pyval)
| PDatetime (t : Z)
| PIso (t : Z)
| PLock
| PLambda.

(** Truth value of an object, as [if x:], [x or y] and [x and y] test it. *)
Definition truthy (v : pyval) : bool :=
  match v with
  | PNone => false
  | PBool b => b
  | PInt z => negb (Z.eqb z 0)
  | PLong z => negb (Z.eqb z 0)
  | PFloat f => match f with S754_zero _ => false | _ => true end
  | PStr s => negb (String.eqb s "")
  | PList l => match l with [] => false | _ => true end
  | PTuple l => match l with [] => false | _ => true end
  | PDict d => match map_to_list d with [] => false | _ => true end
  | PDatetime _ => true
  | PIso _ => true
  | PLock => true
  | PLambda => true
  end.

(** [x or y] *)
Definition py_or (x y : pyval) : pyval := if truthy x then x else y.

(** An object that has a hash, and so can be a key of a dict or looked up
    in one: lists and dicts have none, a tuple has one when its items
    have. *)
Fixpoint hashable (v : pyval) : bool :=
  match v with
  | PList _ | PDict _ => false
  | PTuple l => forallb hashable l
  | _ => true
  end.

(** ** Exceptions *)

(** Exception classes the code names, with the rest of the hierarchy kept
    as [OtherException] (a class below [Exception]) and
    [OtherBaseException] (a class below [BaseException] only).  An
    exception is given the first of the named classes it is an instance of,
    which is all an [except] clause looks at; [OtherException] is one that
    is an instance of none of them. *)
Inductive exn_class : Type :=
| ValueError
| TypeError
| KeyError
| AttributeError
| OverflowError
| PickleError
| EmptyQueue
| UnknownTask
| OtherException (name : string)
| SystemExit
| KeyboardInterrupt
| OtherBaseException (name : string).

(** [isinstance(e, Exception)]: what an [except Exception] clause catches.
    [SystemExit] and [KeyboardInterrupt] derive from [BaseException]
    only. *)
Definition is_Exception (c : exn_class) : bool :=
  match c with
  | SystemExit | KeyboardInterrupt | OtherBaseException _ => false
  | _ => true
  end.

Record exn : Type := Exn { exn_cls : exn_class; exn_args : list pyval }.

(** The outcome of a call: a value, or a raised exception. *)
Inductive result (A : Type) : Type :=
| Ok (a : A)
| Raise (e : exn).
Arguments Ok {A} a.
Arguments Raise {A} e.

#[global] Instance result_ret : MRet result := fun _ a => Ok a.
#[global] Instance result_bind : MBind result := fun _ _ k r =>
  match r with
  | Ok a => k a
  | Raise e => Raise e
  end.

(** ** Calls on collaborators

    A method that talks to the broker, the pool, the logger or a callback
    is a function from the log of calls made so far to its outcome and the
    extended log.  A raised exception keeps the log: what was sent before
    the raise stays sent. *)
Definition eff (E A : Type) : Type := list E -> result A * list E.

#[global] Instance eff_ret {E} : MRet (eff E) := fun _ a tr => (Ok a, tr).
#[global] Instance eff_bind {E} : MBind (eff E) := fun _ _ k m tr =>
  match m tr with
  | (Ok a, tr') => k a tr'
  | (Raise e, tr') => (Raise e, tr')
  end.

Definition emit {E} (e : E) : eff E unit := fun tr => (Ok tt, tr ++ [e]).
Definition raise {E A} (e : exn) : eff E A := fun tr => (Raise e, tr).
Definition lift {E A} (r : result A) : eff E A := fun tr => (r, tr).

(** [try: m except <classes accepted by catches>, e: h e] *)
Definition try_except {E A} (m : eff E A) (catches : exn -> bool)
    (h : exn -> eff E A) : eff E A := fun tr =>
  match m tr with
  | (Ok a, tr') => (Ok a, tr')
  | (Raise e, tr') => if catches e then h e tr' else (Raise e, tr')
  end.

(** A computation that only appends to the log, and whose outcome does not
    depend on what was logged before. *)
Definition appends {E A} (m : eff E A) : Prop :=
  forall tr, m tr = ((m []).1, tr ++ (m []).2).

(** ** Result backend ([celery/backends/base.py]) *)

Module Backend.

(** [BaseBackend.prepare_result] *)
Definition prepare_result (result : pyval) : pyval :=
  match result with
  | PNone => PBool true
  | _ => result
  end.

(** An exception class: where it is defined, its name, what calling it with
    positional arguments gives (the [args] of the new instance, or [None]
    when the call raises), and the classes that follow it in its method
    resolution order, nearest first. *)
Inductive pyclass : Type := mkClass {
  cls_module : string;
  cls_name : string;
  cls_call : list pyval -> option (list pyval);
  cls_supers : list pyclass
}.

(** [cls.mro()] *)
Definition mro (cls : pyclass) : list pyclass := cls :: cls_supers cls.

(** An exception instance: [exc.__class__] and [exc.args]. *)
Record instance : Type := mkInstance {
  inst_class : pyclass;
  inst_args : list pyval
}.

(** [UnpickleableExceptionWrapper]: [__init__] stores the module and the
    class name and passes all three arguments on as [args]. *)
Record UnpickleableExceptionWrapper : Type := mkWrapper {
  exc_module : string;
  exc_cls : string;
  wrapper_args : string * string * list pyval
}.

Definition wrap (exc_module exc_cls_name : string) (exc_args : list pyval)
    : UnpickleableExceptionWrapper :=
  mkWrapper exc_module exc_cls_name (exc_module, exc_cls_name, exc_args).

(** What [prepare_exception] returns. *)
Inductive prepared : Type :=
| Exc (exc : instance)
| Wrapped (excwrapper : UnpickleableExceptionWrapper).

Section Pickle.

(** [pickle.dumps] on an exception instance: [None] when it returns, the
    exception when it raises. *)
Variable dumps : instance -> option exn.

(** The body of the [try] in the loop: [supercls(exc.args)], the one
    argument being the tuple of arguments, then [pickle.dumps] of the
    result; [None] when either raises. *)
Definition try_superclass (exc : instance) (supercls : pyclass)
    : option instance :=
  match cls_call supercls [PTuple (inst_args exc)] with
  | Some args =>
      let superexc := mkInstance supercls args in
      match dumps superexc with
      | None => Some superexc
      | Some _ => None
      end
  | None => None
  end.

Fixpoint first_pickleable (exc : instance) (classes : list pyclass)
    : option instance :=
  match classes with
  | [] => None
  | supercls :: rest =>
      match try_superclass exc supercls with
      | Some superexc => Some superexc
      | None => first_pickleable exc rest
      end
  end.

(** [find_nearest_pickleable_exception] *)
Definition find_nearest_pickleable_exception (exc : instance) : instance :=
  default exc (first_pickleable exc (mro (inst_class exc))).

(** [BaseBackend.prepare_exception]: [except pickle.PickleError] catches the
    pickling errors and nothing else. *)
Definition prepare_exception (exc : instance) : result prepared :=
  let exc := find_nearest_pickleable_exception exc in
  match dumps exc with
  | Some e =>
      match exn_cls e with
      | PickleError =>
          Ok (Wrapped (wrap (cls_module (inst_class exc))
                         (cls_name (inst_class exc)) (inst_args exc)))
      | _ => Raise e
      end
  | None => Ok (Exc exc)
  end.

(** A class of the hierarchy serializes: an instance can be made from the
    arguments and [pickle.dumps] accepts it. *)
Definition serializes (exc : instance) (cls : pyclass) : Prop :=
  is_Some (try_superclass exc cls).

End Pickle.

End Backend.

(** ** Worker daemon ([celery/worker.py]) *)

Module Worker.

(** A registered task function, and the handle [pool.apply_async] returns
    for a submission (an [AsyncResult], not yet a result). *)
Inductive callable : Type := Callable (name : string).
Inductive async_result : Type := AsyncResult (tag : nat).

(** A broker message: its delivery tag, its body as [simplejson.loads]
    reads it ([None] when the body is not JSON and [loads] raises
    [ValueError]), and what [message.ack()] and [message.reject()] raise,
    if anything. *)
Record message : Type := Message {
  msg_tag : nat;
  msg_body : option pyval;
  msg_ack : option exn;
  msg_reject : option exn
}.

(** What the daemon writes to its logger. *)
Inductive log_record : Type :=
| GotTaskFromBroker (task_name task_id : pyval)
| WorkerGotException (error : exn)
| WaitingForQueue
| UnknownTaskIgnored (e : exn)
| MessageQueueRaised (e : exn).

(** The dict [extend_kwargs_with_logging] builds.  Keyword arguments are
    named by strings, and [kw_named] holds those; [dict.update] also takes
    pairs whose key is no string, and dicts of two keys as pairs, of which
    the dict's own order of keys decides which is the key: from the first
    such pair on, the pairs are kept in [kw_then] as they were given, in
    the order in which they are written into the dict after [kw_named]. *)
Record kwdict : Type := mkKwdict {
  kw_named : gmap string pyval;
  kw_then : list pyval
}.

(** The calls the daemon makes on its collaborators, in the order it makes
    them, whether they return or raise.  [ESubmit] is
    [pool.apply_async(task_func, args, kwargs)]; its last field tells
    whether the call returned or raised. *)
Inductive event : Type :=
| EPeriodicDelay (name : string)
| EFetch
| EReject (tag : nat)
| EAck (tag : nat)
| ESubmit (tag : nat) (task_func : callable) (args : pyval)
          (kwargs : kwdict) (returned : bool)
| EInfo (r : log_record)
| ECritical (r : log_record)
| ESleep (seconds : Z)
| EResultsAdd (r : async_result) (task_name task_id : pyval).

(** A call on a collaborator that returns nothing: the call is made, and
    raises what the collaborator answers, if anything. *)
Definition call (ev : event) (raises : option exn) : eff event unit :=
  _ ← emit ev;
  match raises with
  | Some e => raise e
  | None => mret tt
  end.

Record TaskWrapper : Type := mkTaskWrapper {
  task_name : pyval;
  task_id : pyval;
  task_func : callable;
  args : pyval;
  kwargs : pyval
}.

(** [d.pop(key)] on whatever [simplejson.loads] returned. *)
Definition pop (message_data : pyval) (key : string) : result (pyval * pyval) :=
  match message_data with
  | PDict d =>
      match d !! key with
      | Some v => Ok (v, PDict (delete key d))
      | None => Raise (Exn KeyError [PStr key])
      end
  | PList _ => Raise (Exn TypeError [PStr key])
  | _ => Raise (Exn AttributeError [PStr "pop"])
  end.

(** [task_name in tasks], with [tasks[task_name]] when it is: the registry
    is keyed by strings, a name that has no hash raises [TypeError]. *)
Definition registry_get (tasks : gmap string callable) (name : pyval)
    : result (option callable) :=
  match name with
  | PStr s => Ok (tasks !! s)
  | _ => if hashable name then Ok None else Raise (Exn TypeError [name])
  end.

(** [TaskWrapper.from_message] *)
Definition from_message (tasks : gmap string callable) (message : message)
    : eff event TaskWrapper :=
  message_data ← lift (match msg_body message with
                       | Some v => Ok v
                       | None => Raise (Exn ValueError [])
                       end);
  '(task_name, message_data) ← lift (pop message_data "task");
  '(task_id, message_data) ← lift (pop message_data "id");
  '(args, message_data) ← lift (pop message_data "args");
  '(kwargs, message_data) ← lift (pop message_data "kwargs");
  found ← lift (registry_get tasks task_name);
  match found with
  | None =>
      _ ← call (EReject (msg_tag message)) (msg_reject message);
      raise (Exn UnknownTask [task_name])
  | Some task_func =>
      mret (mkTaskWrapper task_name task_id task_func args kwargs)
  end.

(** [d.update(other)] when [other] is no dict: [other] is gone through as a
    sequence, and every item of it is made a sequence in its turn, which
    must have two items, the key and the value. *)

(** One item, read as a pair. *)
Inductive pair : Type :=
| Named (key : string) (value : pyval)
| Unnamed.

(** An item that is no sequence raises [TypeError], one that has not two
    items [ValueError], a key that has no hash [TypeError].  A string of
    two characters is a pair of one-character strings. *)
Definition as_pair (item : pyval) : result pair :=
  match item with
  | PList [key; value] | PTuple [key; value] =>
      match key with
      | PStr s => Ok (Named s value)
      | _ => if hashable key then Ok Unnamed
             else Raise (Exn TypeError [key])
      end
  | PList _ | PTuple _ => Raise (Exn ValueError [item])
  | PStr s =>
      match s with
      | String a (String b EmptyString) =>
          Ok (Named (String a EmptyString) (PStr (String b EmptyString)))
      | _ => Raise (Exn ValueError [item])
      end
  | PIso _ => Raise (Exn ValueError [item])
  | PDict d =>
      if (size d =? 2)%nat then Ok Unnamed
      else Raise (Exn ValueError [item])
  | _ => Raise (Exn TypeError [item])
  end.

(** The items that follow a pair kept in [kw_then]: each must be a pair. *)
Fixpoint check_pairs (items : list pyval) : result unit :=
  match items with
  | [] => Ok tt
  | item :: rest =>
      match as_pair item with
      | Ok _ => check_pairs rest
      | Raise e => Raise e
      end
  end.

Fixpoint update_pairs (d : gmap string pyval) (items : list pyval)
    : result kwdict :=
  match items with
  | [] => Ok (mkKwdict d [])
  | item :: rest =>
      match as_pair item with
      | Ok (Named key value) => update_pairs (<[key := value]> d) rest
      | Ok Unnamed =>
          match check_pairs rest with
          | Ok _ => Ok (mkKwdict d items)
          | Raise e => Raise e
          end
      | Raise e => Raise e
      end
  end.

(** [d.update(other)]: the items of a dict are written into [d]; anything
    else is gone through as a sequence of pairs.  A string is the sequence
    of its characters, none of which is a pair; what cannot be gone through
    raises [TypeError]. *)
Definition update (d : gmap string pyval) (other : pyval) : result kwdict :=
  match other with
  | PDict o => Ok (mkKwdict (o ∪ d) [])
  | PList items | PTuple items => update_pairs d items
  | PStr s =>
      if String.eqb s "" then Ok (mkKwdict d [])
      else Raise (Exn ValueError [other])
  | PIso _ => Raise (Exn ValueError [other])
  | _ => Raise (Exn TypeError [other])
  end.

(** [TaskWrapper.extend_kwargs_with_logging(self, loglevel, logfile)] *)
Definition extend_kwargs_with_logging (self : TaskWrapper)
    (loglevel logfile : pyval) : result kwdict :=
  let task_func_kwargs : gmap string pyval :=
    <["logfile" := logfile]> (<["loglevel" := loglevel]> ∅) in
  update task_func_kwargs (kwargs self).

(** [TaskWrapper.execute_using_pool(self, pool, loglevel, logfile)]: the
    pool either returns a handle or raises [pool_raises]. *)
Definition execute_using_pool (self : TaskWrapper) (tag : nat)
    (pool_raises : option exn) (loglevel logfile : pyval)
    : eff event async_result :=
  task_func_kwargs ← lift (extend_kwargs_with_logging self logfile loglevel);
  match pool_raises with
  | None =>
      _ ← emit (ESubmit tag (task_func self) (args self) task_func_kwargs true);
      mret (AsyncResult tag)
  | Some error =>
      _ ← emit (ESubmit tag (task_func self) (args self) task_func_kwargs false);
      raise error
  end.

(** [TaskDaemon]: the attributes the loop reads.  [empty_msg_emit_every]
    is [0] when the notice is switched off ([if emit_every:]). *)
Record TaskDaemon : Type := mkTaskDaemon {
  loglevel : pyval;
  logfile : pyval;
  queue_wakeup_after : Z;
  empty_msg_emit_every : Z;
  tasks : gmap string callable
}.

(** What the collaborators answer during one turn of the loop in [run]:
    what [get_waiting_tasks()] gives, the periodic tasks that are due, each
    with what its [delay()] raises; what [task_consumer.fetch()] gives;
    whether [pool.apply_async] raises; the two readings of [time.time()]
    the empty-queue branch may take; and what a logging statement (the
    formatting of its record included), [time.sleep] and [results.add]
    raise, if anything. *)
Record round : Type := mkRound {
  waiting_tasks : result (list (string * option exn));
  fetched : result (option message);
  pool_raises : option exn;
  time_check : Z;
  time_set : Z;
  logger_raises : log_record -> option exn;
  sleep_raises : option exn;
  results_add_raises : option exn
}.

(** [self.logger.info(...)] and [self.logger.critical(...)] *)
Definition info (rd : round) (record : log_record) : eff event unit :=
  call (EInfo record) (logger_raises rd record).

Definition critical (rd : round) (record : log_record) : eff event unit :=
  call (ECritical record) (logger_raises rd record).

(** [TaskDaemon.fetch_next_task] *)
Definition fetch_next_task (self : TaskDaemon) (rd : round)
    : eff event (TaskWrapper * message) :=
  _ ← emit EFetch;
  message ← lift (fetched rd);
  match message with
  | None => raise (Exn EmptyQueue [])
  | Some message =>
      task ← from_message (tasks self) message;
      _ ← info rd (GotTaskFromBroker (task_name task) (task_id task));
      mret (task, message)
  end.

(** [TaskDaemon.execute_next_task]: [None] is the bare [return] of the
    [except] branch. *)
Definition execute_next_task (self : TaskDaemon) (rd : round)
    : eff event (option (async_result * pyval * pyval)) :=
  '(task, message) ← fetch_next_task self rd;
  submitted ← try_except
    (result ← execute_using_pool task (msg_tag message) (pool_raises rd)
                (loglevel self) (logfile self);
     mret (Some result))
    (fun error => is_Exception (exn_cls error))
    (fun error =>
       _ ← critical rd (WorkerGotException error);
       mret None);
  match submitted with
  | None => mret None
  | Some result =>
      _ ← call (EAck (msg_tag message)) (msg_ack message);
      mret (Some (result, task_name task, task_id task))
  end.

(** [[waiting_task.delay() for waiting_task in waiting_tasks]] *)
Fixpoint delay_all (waiting_tasks : list (string * option exn))
    : eff event unit :=
  match waiting_tasks with
  | [] => mret tt
  | (name, raises) :: rest =>
      _ ← call (EPeriodicDelay name) raises;
      delay_all rest
  end.

(** [TaskDaemon.run_periodic_tasks] *)
Definition run_periodic_tasks (rd : round) : eff event (list string) :=
  waiting_tasks ← lift (waiting_tasks rd);
  _ ← delay_all waiting_tasks;
  mret (map fst waiting_tasks).

(** [result, task_name, task_id = value]: unpacking [None] raises
    [TypeError]. *)
Definition unpack3 {A} (value : option A) : result A :=
  match value with
  | Some t => Ok t
  | None => Raise (Exn TypeError [PStr "'NoneType' object is not iterable"])
  end.

(** The [except] clauses of the loop, tried in the order they are written;
    each ends in [continue], the second one after the idle back-off.  What
    a clause raises itself leaves the loop. *)
Definition on_error (self : TaskDaemon) (rd : round)
    (last_empty_emit : option Z) (e : exn) : eff event (option Z) :=
  match exn_cls e with
  | ValueError => mret last_empty_emit
  | EmptyQueue =>
      let emit_every := empty_msg_emit_every self in
      last ←
        (if negb (emit_every =? 0) then
           let due :=
             match last_empty_emit with
             | None => true
             | Some t => (t =? 0) || (t + emit_every <? time_check rd)
             end in
           if due then
             _ ← info rd WaitingForQueue;
             mret (Some (time_set rd))
           else mret last_empty_emit
         else mret last_empty_emit);
      _ ← call (ESleep (queue_wakeup_after self)) (sleep_raises rd);
      mret last
  | UnknownTask =>
      _ ← info rd (UnknownTaskIgnored e);
      mret last_empty_emit
  | _ =>
      _ ← critical rd (MessageQueueRaised e);
      mret last_empty_emit
  end.

(** One turn of the [while True] loop of [TaskDaemon.run]: the new value of
    [last_empty_emit] when the turn ends (by [continue] or by reaching the
    end of the body), or the exception that leaves the loop. *)
Definition run_turn (self : TaskDaemon) (rd : round)
    (last_empty_emit : option Z) : eff event (option Z) :=
  _ ← run_periodic_tasks rd;
  got ← try_except
    (value ← execute_next_task self rd;
     t ← lift (unpack3 value);
     mret (inl t))
    (fun e => is_Exception (exn_cls e))
    (fun e => last ← on_error self rd last_empty_emit e; mret (inr last));
  match got with
  | inr last => mret last
  | inl (result, task_name, task_id) =>
      _ ← call (EResultsAdd result task_name task_id) (results_add_raises rd);
      mret last_empty_emit
  end.

(** [TaskDaemon.run], over the turns the collaborators' answers are given
    for: the loop has no exit of its own, it ends only when an exception
    leaves a turn. *)
Fixpoint run_from (self : TaskDaemon) (rounds : list round)
    (last_empty_emit : option Z) : eff event (option Z) :=
  match rounds with
  | [] => mret last_empty_emit
  | rd :: rest =>
      last ← run_turn self rd last_empty_emit;
      run_from self rest last
  end.

Definition run (self : TaskDaemon) (rounds : list round) : eff event (option Z) :=
  run_from self rounds None.

End Worker.

(** *** The submission step, as a property of one turn of the loop *)

Module WorkerSpec.
Import Worker.

Definition no_ack (log : list event) : Prop := forall tag, EAck tag ∉ log.

(** The turn submits the task and acknowledges the message as the very next
    call, and acknowledges nothing else. *)
Definition acked_right_after_submit (task : TaskWrapper) (m : message)
    (log : list event) : Prop :=
  exists pre kw post,
    log = pre ++ [ESubmit (msg_tag m) (task_func task) (args task) kw true;
                  EAck (msg_tag m)] ++ post
    /\ no_ack pre /\ no_ack post.

(** The turn neither acknowledges nor rejects the message. *)
Definition left_unsettled (m : message) (log : list event) : Prop :=
  (EAck (msg_tag m) ∉ log) /\ (EReject (msg_tag m) ∉ log).

(** The turn ends and the loop goes on to the next one. *)
Definition loop_continues (outcome : result (option Z)) : Prop :=
  exists last, outcome = Ok last.

(** The turn gets as far as the submission: the periodic tasks are
    scheduled and the next task is fetched, both without an exception. *)
Definition dispatched (self : TaskDaemon) (rd : round) (m : message)
    (task : TaskWrapper) : Prop :=
  (exists names log, run_periodic_tasks rd [] = (Ok names, log)) /\
  (exists log, fetch_next_task self rd [] = (Ok (task, m), log)).

(** The submission step with the guarantee given for every exception the
    submission can raise, whatever the daemon's logger does. *)
Definition submission_step_for_every_exception (self : TaskDaemon)
    (rd : round) (last : option Z) (m : message) (task : TaskWrapper) : Prop :=
  dispatched self rd m task ->
  let sub := execute_using_pool task (msg_tag m) (pool_raises rd)
               (loglevel self) (logfile self) [] in
  let out := run_turn self rd last [] in
  (forall r, sub.1 = Ok r -> acked_right_after_submit task m out.2) /\
  (forall e, sub.1 = Raise e ->
     left_unsettled m out.2 /\ loop_continues out.1).

(** The logging statements of the turn all return. *)
Definition logger_returns (rd : round) : Prop :=
  forall record, logger_raises rd record = None.

(** The "waiting for queue" notice is switched on, and none was logged yet
    or the clock has passed the last one by more than
    [empty_msg_emit_every]. *)
Definition notice_due (self : TaskDaemon) (rd : round)
    (last_empty_emit : option Z) : Prop :=
  empty_msg_emit_every self <> 0 /\
  match last_empty_emit with
  | None => True
  | Some t => t = 0 \/ t + empty_msg_emit_every self < time_check rd
  end.

(** Where an exception that is an instance of [Exception] can come from
    and still leave the loop: the scheduling of the periodic tasks, which
    is outside the [try]; the calls a clause of the loop makes itself, on
    the logger and on [time.sleep]; and [results.add], after the [try]. *)
Definition raised_outside_guard (rd : round) (e : exn) : Prop :=
  waiting_tasks rd = Raise e \/
  (exists waiting name, waiting_tasks rd = Ok waiting /\
     (name, Some e) ∈ waiting) \/
  logger_raises rd WaitingForQueue = Some e \/
  (exists e', logger_raises rd (UnknownTaskIgnored e') = Some e) \/
  (exists e', logger_raises rd (MessageQueueRaised e') = Some e) \/
  sleep_raises rd = Some e \/
  results_add_raises rd = Some e.

End WorkerSpec.

(** *** A daemon with one registered task and a message for it *)

Module WorkerExample.
Import Worker.

Definition add : callable := Callable "add".

Definition daemon : TaskDaemon :=
  mkTaskDaemon (PInt 40) (PStr "celery.log") 1 30 {[ "add" := add ]}.

Definition body : pyval :=
  PDict (<["task" := PStr "add"]> (<["id" := PStr "7f3a"]>
        (<["args" := PList [PInt 2; PInt 3]]> (<["kwargs" := PDict ∅]> ∅)))).

Definition message : message := Message 7 (Some body) None None.

Definition task : TaskWrapper :=
  mkTaskWrapper (PStr "add") (PStr "7f3a") add (PList [PInt 2; PInt 3]) (PDict ∅).

(** A turn in which no periodic task is due, the consumer hands over what
    [fetched] says, the pool answers [pool_raises], and every other call
    returns. *)
Definition quiet_round (fetched : result (option Worker.message))
    (pool_raises : option exn) (time_check time_set : Z) : round :=
  mkRound (Ok []) fetched pool_raises time_check time_set
    (fun _ => None) None None.

(** The pool accepts the submission. *)
Definition round_ok : round := quiet_round (Ok (Some message)) None 0 0.

(** The pool is closed: [apply_async] raises an [Exception]. *)
Definition round_pool_error : round :=
  quiet_round (Ok (Some message))
    (Some (Exn (OtherException "AssertionError") [])) 0 0.

(** The submission is interrupted from the keyboard. *)
Definition round_interrupted : round :=
  quiet_round (Ok (Some message)) (Some (Exn KeyboardInterrupt [])) 0 0.

(** The pool is closed, and the logger cannot write its critical records:
    the stream it writes to is gone. *)
Definition round_logger_broken : round :=
  mkRound (Ok []) (Ok (Some message))
    (Some (Exn (OtherException "AssertionError") [])) 0 0
    (fun record =>
       match record with
       | WorkerGotException _ | MessageQueueRaised _ =>
           Some (Exn (OtherException "IOError") [])
       | _ => None
       end)
    None None.

(** A message for the same task with kwargs of any kind, an empty string
    for one, which [dict.update] takes as a sequence of no pairs. *)
Definition message_kwargs (kwargs : pyval) : Worker.message :=
  Message 9
    (Some (PDict (<["task" := PStr "add"]> (<["id" := PStr "9c1d"]>
          (<["args" := PList []]> (<["kwargs" := kwargs]> ∅)))))) None None.

End WorkerExample.

(** ** Process pool ([celery/concurrency/processes/__init__.py]) *)

Module Pool.

(** [celery.datastructures.ExceptionInfo]: the exception a worker raised,
    with its traceback as text. *)
Record ExceptionInfo : Type := mkExceptionInfo {
  exception : exn;
  traceback : option string
}.

(** What the pool collects for a finished work item. *)
Inductive ret_value : Type :=
| Value (v : pyval)
| Einfo (einfo : ExceptionInfo).

(** A callback or errback: a name to tell it apart in the log, and what
    calling it with an argument does, return or raise. *)
Record callback : Type := mkCallback {
  cb_name : string;
  cb_call : ret_value -> option exn
}.

(** Calls made while results are collected: a callback is applied, or the
    pool's logger records that one raised. *)
Inductive event : Type :=
| ECall (f : callback) (arg : ret_value)
| ELogError (raised : exn).

(** Calling [fun] on its argument. *)
Definition call (f : callback) (arg : ret_value) : eff event unit :=
  _ ← emit (ECall f arg);
  match cb_call f arg with
  | None => mret tt
  | Some e => raise e
  end.

(** [TaskPool.safe_apply_callback]: the bare [except:] catches whatever the
    callback raises. *)
Definition safe_apply_callback (f : callback) (arg : ret_value)
    : eff event unit :=
  try_except (call f arg) (fun _ => true) (fun e => emit (ELogError e)).

(** [[body(x) for x in xs]], for its effects. *)
Fixpoint for_each {A} (body : A -> eff event unit) (xs : list A)
    : eff event unit :=
  match xs with
  | [] => mret tt
  | x :: rest => _ ← body x; for_each body rest
  end.

(** [isinstance(exc, (SystemExit, KeyboardInterrupt))] *)
Definition is_fatal (e : exn) : bool :=
  match exn_cls e with
  | SystemExit | KeyboardInterrupt => true
  | _ => false
  end.

(** [TaskPool.on_worker_error] *)
Definition on_worker_error (errbacks : list callback) (exc : exn)
    : eff event unit :=
  let einfo := Einfo (mkExceptionInfo exc None) in
  for_each (fun errback => call errback einfo) errbacks.

(** [TaskPool.on_ready] *)
Definition on_ready (callbacks errbacks : list callback)
    (ret_value : ret_value) : eff event unit :=
  match ret_value with
  | Einfo einfo =>
      if is_fatal (exception einfo) then raise (exception einfo)
      else for_each (fun errback => safe_apply_callback errback ret_value)
             errbacks
  | Value _ =>
      for_each (fun callback => safe_apply_callback callback ret_value)
        callbacks
  end.

(** The work item [TaskPool.apply_async] hands to the underlying pool: the
    target with its arguments, and the two completion hooks, [on_ready] and
    [on_worker_error], closed over the item's callback lists
    ([callbacks or []], [errbacks or []]). *)
Record work_item : Type := mkWorkItem {
  target : string;
  item_args : pyval;
  item_kwargs : pyval;
  callback_hook : ret_value -> eff event unit;
  error_callback_hook : exn -> eff event unit
}.

Definition apply_async (target : string) (args kwargs : pyval)
    (callbacks errbacks : option (list callback)) : work_item :=
  let args := py_or args (PList []) in
  let kwargs := py_or kwargs (PDict ∅) in
  let callbacks := default [] callbacks in
  let errbacks := default [] errbacks in
  mkWorkItem target args kwargs
    (on_ready callbacks errbacks) (on_worker_error errbacks).

(** The callbacks a log shows applied, in order, each with its argument. *)
Definition calls (log : list event) : list (callback * ret_value) :=
  omap (fun ev => match ev with
                  | ECall f arg => Some (f, arg)
                  | ELogError _ => None
                  end) log.

End Pool.

(** *** Callbacks to run the pool on *)

Module PoolExample.
Import Pool.

(** An errback that raises, and one that returns. *)
Definition failing : callback :=
  mkCallback "failing" (fun _ => Some (Exn (OtherException "RuntimeError") [])).
Definition recording : callback :=
  mkCallback "recording" (fun _ => None).

(** A success callback that returns. *)
Definition stored : callback := mkCallback "stored" (fun _ => None).

Definition worker_error : exn := Exn (OtherException "TimeLimitExceeded") [].

(** A work item with one success callback and one failure callback. *)
Definition item : work_item :=
  apply_async "add" (PList [PInt 2; PInt 3]) PNone
    (Some [stored]) (Some [recording]).

End PoolExample.

(** ** Publisher and consumer set ([celery/app/amqp.py]) *)

Module Amqp.

(** *** Dates

    A [datetime] is a number of microseconds since 0001-01-01T00:00:00, and
    must stay below year 10000; [timedelta(seconds=n)] must stay within
    999999999 days; both raise [OverflowError] otherwise.  A whole number
    of seconds is counted exactly; how a float is rounded to microseconds,
    and which floats are refused, is the library's business and is taken
    as it is given. *)
Definition datetime_max : Z := 3652059 * 86400 * 1000000.
Definition timedelta_max_days : Z := 999999999.

(** The value of an object as an [int]: [isinstance(v, int)] holds for
    [int] and for [bool]. *)
Definition int_value (v : pyval) : option Z :=
  match v with
  | PInt z => Some z
  | PBool b => Some (if b then 1 else 0)
  | _ => None
  end.

(** The value of an object that is a whole number, [int], [bool] or
    [long]. *)
Definition integer_value (v : pyval) : option Z :=
  match v with
  | PLong z => Some z
  | _ => int_value v
  end.

(** [timedelta(seconds=v)], in microseconds; [of_float] is what the library
    makes of a float. *)
Definition timedelta_seconds (of_float : spec_float -> result Z) (v : pyval)
    : result Z :=
  match integer_value v with
  | Some z =>
      if (- timedelta_max_days <=? z `div` 86400)
         && (z `div` 86400 <=? timedelta_max_days)
      then Ok (z * 1000000)
      else Raise (Exn OverflowError [v])
  | None =>
      match v with
      | PFloat f => of_float f
      | _ => Raise (Exn TypeError [v])
      end
  end.

(** [d + delta] *)
Definition datetime_add (d delta : Z) : result Z :=
  if (0 <=? d + delta) && (d + delta <? datetime_max)
  then Ok (d + delta)
  else Raise (Exn OverflowError [PStr "date value out of range"]).

(** [x and x.isoformat()] *)
Definition and_isoformat (x : pyval) : result pyval :=
  if truthy x then
    match x with
    | PDatetime t => Ok (PIso t)
    | _ => Raise (Exn AttributeError [PStr "isoformat"])
    end
  else Ok x.

(** *** Calls on the broker and the clock *)

Inductive event : Type :=
| ENow (t : Z)
| EDeclare (exchange : pyval) (returned : bool)
| ESend (exchange : pyval) (message_data : gmap string pyval)
        (options : list (string * pyval)) (returned : bool)
| ETaskSent (sender : pyval) (message_data : gmap string pyval).

(** [datetime.now()]: the clock is read, and the reading is the next one of
    [clock], counted by the readings already taken. *)
Definition readings (log : list event) : list Z :=
  omap (fun ev => match ev with ENow t => Some t | _ => None end) log.

Definition datetime_now (clock : nat -> Z) : eff event Z := fun log =>
  let t := clock (length (readings log)) in (Ok t, log ++ [ENow t]).

(** *** TaskPublisher *)

Definition MSG_OPTIONS : list string :=
  ["mandatory"; "priority"; "immediate";
   "routing_key"; "serializer"; "delivery_mode"].

(** Modelled from the spec: [celery.utils.mitemgetter] is not part of the
    sources at hand; the routing options of a send are the caller-supplied
    values of the [MSG_OPTIONS] keys, [None] where the caller gave none. *)
Definition extract_msg_options (d : gmap string pyval)
    : list (string * pyval) :=
  map (fun k => (k, default PNone (d !! k))) MSG_OPTIONS.

Record TaskPublisher : Type := mkTaskPublisher {
  exchange : pyval;
  exchange_type : pyval
}.

(** [TaskPublisher.declare], on the process-wide [_exchanges_declared]:
    exchanges are named by strings; [broker_raises] is what the broker
    answers to [Publisher.declare].  The outcome is the set afterwards. *)
Definition declare (self_exchange : string) (broker_raises : option exn)
    (_exchanges_declared : gset string) : eff event (gset string) :=
  if bool_decide (self_exchange ∉ _exchanges_declared) then
    match broker_raises with
    | Some e =>
        _ ← emit (EDeclare (PStr self_exchange) false);
        raise e
    | None =>
        _ ← emit (EDeclare (PStr self_exchange) true);
        mret ({[ self_exchange ]} ∪ _exchanges_declared)
    end
  else mret _exchanges_declared.

(** The arguments of one [delay_task] call; an argument left out has its
    default, [None]; [kwargs] are the extra keyword arguments. *)
Record delay_call : Type := mkDelayCall {
  task_name : pyval;
  task_args : pyval;
  task_kwargs : pyval;
  countdown : pyval;
  eta : pyval;
  task_id : pyval;
  taskset_id : pyval;
  expires : pyval;
  call_exchange : pyval;
  call_exchange_type : pyval;
  kwargs : gmap string pyval
}.

(** What the surroundings answer during the call: the clock, the id
    [gen_unique_id()] makes, whether [Publisher.send] raises, and what
    [timedelta(seconds=f)] makes of a float [f], in microseconds. *)
Record surroundings : Type := mkSurroundings {
  clock : nat -> Z;
  unique_id : string;
  send_raises : option exn;
  float_seconds : spec_float -> result Z
}.

Definition is_sequence (v : pyval) : bool :=
  match v with PList _ | PTuple _ => true | _ => false end.
Definition is_dict (v : pyval) : bool :=
  match v with PDict _ => true | _ => false end.

(** The steps of [TaskPublisher.delay_task], in the order of the source. *)

(** [if countdown: now = datetime.now(); eta = now + timedelta(...)]: the
    snapshot taken, if any, and the eta. *)
Definition resolve_countdown (c : delay_call) (w : surroundings)
    : eff event (option Z * pyval) :=
  if truthy (countdown c) then
    now ← datetime_now (clock w);
    delta ← lift (timedelta_seconds (float_seconds w) (countdown c));
    eta ← lift (datetime_add now delta);
    mret (Some now, PDatetime eta)
  else mret (None, eta c).

(** The two [isinstance] checks. *)
Definition validate (task_args task_kwargs : pyval) : eff event unit :=
  _ ← (if is_sequence task_args then mret tt
       else raise (Exn ValueError [PStr "task args must be a list or tuple"]));
  if is_dict task_kwargs then mret tt
  else raise (Exn ValueError [PStr "task kwargs must be a dictionary"]).

(** [if isinstance(expires, int): now = now or datetime.now(); ...] *)
Definition resolve_expires (c : delay_call) (w : surroundings)
    (now : option Z) : eff event pyval :=
  match int_value (expires c) with
  | Some _ =>
      now ← match now with
            | Some now => mret now
            | None => datetime_now (clock w)
            end;
      delta ← lift (timedelta_seconds (float_seconds w) (expires c));
      expires ← lift (datetime_add now delta);
      mret (PDatetime expires)
  | None => mret (expires c)
  end.

(** The [message_data] dict, with the [taskset] key when there is one. *)
Definition message_data_of (c : delay_call)
    (task_id task_args task_kwargs eta_text expires_text : pyval)
    : gmap string pyval :=
  let message_data : gmap string pyval :=
    <["task" := task_name c]> (
    <["id" := task_id]> (
    <["args" := py_or task_args (PList [])]> (
    <["kwargs" := py_or task_kwargs (PDict ∅)]> (
    <["retries" := default (PInt 0) (kwargs c !! "retries")]> (
    <["eta" := eta_text]> (
    <["expires" := expires_text]> ∅)))))) in
  if truthy (taskset_id c) then <["taskset" := taskset_id c]> message_data
  else message_data.

(** [if exchange: self.exchange = exchange], and the same for the type. *)
Definition retarget (self : TaskPublisher) (c : delay_call) : TaskPublisher :=
  let self :=
    if truthy (call_exchange c)
    then mkTaskPublisher (call_exchange c) (exchange_type self) else self in
  if truthy (call_exchange_type c)
  then mkTaskPublisher (exchange self) (call_exchange_type c) else self.

(** [self.send(message_data, ...)], then the [task_sent] signal. *)
Definition send_and_signal (self : TaskPublisher) (c : delay_call)
    (w : surroundings) (message_data : gmap string pyval) : eff event unit :=
  _ ← match send_raises w with
      | Some e =>
          _ ← emit (ESend (exchange self) message_data
                      (extract_msg_options (kwargs c)) false);
          raise e
      | None =>
          emit (ESend (exchange self) message_data
                  (extract_msg_options (kwargs c)) true)
      end;
  emit (ETaskSent (task_name c) message_data).

(** [TaskPublisher.delay_task]: returns the task id and the publisher, whose
    exchange the call may have replaced. *)
Definition delay_task (self : TaskPublisher) (c : delay_call)
    (w : surroundings) : eff event (pyval * TaskPublisher) :=
  let task_id := py_or (task_id c) (PStr (unique_id w)) in
  let task_args := py_or (task_args c) (PList []) in
  let task_kwargs := py_or (task_kwargs c) (PDict ∅) in
  '(now, eta) ← resolve_countdown c w;
  _ ← validate task_args task_kwargs;
  expires ← resolve_expires c w now;
  eta_text ← lift (and_isoformat eta);
  expires_text ← lift (and_isoformat expires);
  let message_data :=
    message_data_of c task_id task_args task_kwargs eta_text expires_text in
  let self := retarget self c in
  _ ← send_and_signal self c w message_data;
  mret (task_id, self).

(** The envelopes a log shows handed to [Publisher.send]. *)
Definition envelopes (log : list event) : list (gmap string pyval) :=
  omap (fun ev => match ev with
                  | ESend _ message_data _ _ => Some message_data
                  | _ => None
                  end) log.

(** No send and no signal: nothing left the process. *)
Definition no_io (log : list event) : Prop :=
  forall ev, ev ∈ log ->
    match ev with
    | ESend _ _ _ _ | ETaskSent _ _ | EDeclare _ _ => False
    | ENow _ => True
    end.

End Amqp.

(** *** ConsumerSet *)

Module Consumer.

(** A transport message as the backend hands it over, and the message
    object [backend.message_to_python] makes of it: [decode] is what
    [message.decode()] does with the body, return the decoded body or
    raise. *)
Record raw_message : Type := mkRaw {
  delivery_tag : nat;
  raw_body : string
}.

Record message : Type := mkMessage {
  raw : raw_message;
  acknowledged : bool;
  decode : result pyval
}.

(** [message.ack()] *)
Definition ack (m : message) : message :=
  mkMessage (raw m) true (decode m).

Inductive event : Type :=
| EAck (tag : nat)
| EDecodeError (m : message) (exc : exn)
| EReceive (decoded : pyval) (m : message).

(** A consumer set: the backend's conversion, the [auto_ack] flag, the
    optional [on_decode_error] callback with what it returns or raises, and
    the [receive] handler with what it raises, if anything. *)
Record ConsumerSet : Type := mkConsumerSet {
  message_to_python : raw_message -> message;
  auto_ack : bool;
  on_decode_error : option (message -> exn -> result pyval);
  receive : pyval -> message -> option exn
}.

(** [ConsumerSet._receive_callback] *)
Definition _receive_callback (self : ConsumerSet) (raw_message : raw_message)
    : eff event pyval :=
  let message := message_to_python self raw_message in
  message ←
    (if auto_ack self && negb (acknowledged message) then
       _ ← emit (EAck (delivery_tag (raw message)));
       mret (ack message)
     else mret message);
  handled ← try_except
    (decoded ← lift (decode message); mret (inl decoded))
    (fun exc => is_Exception (exn_cls exc))
    (fun exc =>
       match on_decode_error self with
       | Some callback =>
           _ ← emit (EDecodeError message exc);
           returned ← lift (callback message exc);
           mret (inr returned)
       | None => raise exc
       end);
  match handled with
  | inr returned => mret returned
  | inl decoded =>
      _ ← emit (EReceive decoded message);
      match receive self decoded message with
      | Some e => raise e
      | None => mret PNone
      end
  end.

(** The message object the callbacks see: acknowledged on the way when
    [auto_ack] asks for it. *)
Definition delivered (self : ConsumerSet) (raw_message : raw_message)
    : message :=
  let message := message_to_python self raw_message in
  if auto_ack self && negb (acknowledged message) then ack message
  else message.

(** The acknowledgement sent before decoding, if any. *)
Definition auto_acks (self : ConsumerSet) (raw_message : raw_message)
    : list event :=
  let message := message_to_python self raw_message in
  if auto_ack self && negb (acknowledged message)
  then [EAck (delivery_tag (raw message))] else [].

(** The handling of a decode failure with the guarantee given for every
    exception [message.decode()] can raise. *)
Definition decode_failure_for_every_exception (self : ConsumerSet)
    (raw_message : raw_message) : Prop :=
  let message := delivered self raw_message in
  let out := _receive_callback self raw_message [] in
  forall exc, decode message = Raise exc ->
    (forall callback, on_decode_error self = Some callback ->
       out = (callback message exc,
              auto_acks self raw_message ++ [EDecodeError message exc])) /\
    (on_decode_error self = None ->
       out = (Raise exc, auto_acks self raw_message)).

End Consumer.

Module ConsumerExample.
Import Consumer.

Definition raw1 : raw_message := mkRaw 1 "{not json".
Definition newline : string := String (Ascii.ascii_of_nat 10) EmptyString.
Definition raw2 : raw_message :=
  mkRaw 2 (String.append "csys"
            (String.append newline
               (String.append "exit" (String.append newline "(tR.")))).
Definition raw3 : raw_message := mkRaw 3 "{}".

(** The backend of the examples: the first body is rejected by the decoder,
    the second is a pickle whose loading calls [sys.exit] and so raises
    [SystemExit], the third decodes to an empty dict. *)
Definition backend (r : raw_message) : message :=
  mkMessage r false
    (match delivery_tag r with
     | 1%nat => Raise (Exn ValueError [PStr "No JSON object could be decoded"])
     | 2%nat => Raise (Exn SystemExit [])
     | _ => Ok (PDict ∅)
     end).

Definition log_and_drop : message -> exn -> result pyval :=
  fun _ _ => Ok PNone.

Definition with_callback : ConsumerSet :=
  mkConsumerSet backend true (Some log_and_drop) (fun _ _ => None).

Definition without_callback : ConsumerSet :=
  mkConsumerSet backend true None (fun _ _ => None).

End ConsumerExample.

(** *** A process and its declared exchanges *)

Module Declared.
Import Amqp.

(** One [declare()] invocation of some publisher in the process: the
    publisher's exchange, and the broker's answer should it be asked. *)
Record invocation : Type := mkInvocation {
  inv_exchange : string;
  inv_broker_raises : option exn
}.

(** The process state: [_exchanges_declared] and the calls made so far.  An
    invocation that raises leaves the set as it was. *)
Definition state : Type := gset string * list event.

Definition step (st : state) (inv : invocation) : state :=
  match declare (inv_exchange inv) (inv_broker_raises inv) st.1 st.2 with
  | (Ok declared, log) => (declared, log)
  | (Raise _, log) => (st.1, log)
  end.

(** The process from its start, where the set is empty. *)
Definition process (invs : list invocation) : state :=
  fold_left step invs (∅, []).

(** Broker-level declare calls for an exchange: all of them, and those that
    returned. *)
Definition is_declare_of (x : string) (ev : event) : bool :=
  match ev with
  | EDeclare (PStr y) _ => String.eqb x y
  | _ => false
  end.

Definition is_declared_of (x : string) (ev : event) : bool :=
  match ev with
  | EDeclare (PStr y) true => String.eqb x y
  | _ => false
  end.

Definition broker_declares (x : string) (log : list event) : nat :=
  length (List.filter (is_declare_of x) log).

Definition broker_declared (x : string) (log : list event) : nat :=
  length (List.filter (is_declared_of x) log).

(** No broker-level declare call for the exchange comes after one that
    returned. *)
Definition none_after_success (x : string) (log : list event) : Prop :=
  forall pre post,
    log = pre ++ EDeclare (PStr x) true :: post ->
    broker_declares x post = 0%nat.

(** What the set and the log of a process have to do with each other. *)
Definition declared_inv (st : state) : Prop :=
  forall x,
    (x ∈ st.1 <-> broker_declared x st.2 = 1%nat) /\
    (broker_declared x st.2 <= 1)%nat /\
    none_after_success x st.2.

(** At most one broker-level declare call is ever issued for the exchange,
    whatever the broker answers. *)
Definition at_most_one_declare_issued (invs : list invocation) (x : string)
    : Prop :=
  (broker_declares x (process invs).2 <= 1)%nat.

End Declared.

Module DeclaredExample.
Import Declared.

(** The broker is unreachable at the first declare and back at the second. *)
Definition retried : list invocation :=
  [mkInvocation "celery" (Some (Exn (OtherException "IOError") []));
   mkInvocation "celery" None;
   mkInvocation "celery" None].

End DeclaredExample.

(** *** The publish step, as properties of one call *)

Module PublishSpec.
Import Amqp.

(** The eta of the envelope with the guarantee given for every countdown
    that is supplied, zero included: the first reading of the clock plus
    the countdown. *)
Definition eta_for_every_countdown (self : TaskPublisher) (c : delay_call)
    (w : surroundings) : Prop :=
  countdown c <> PNone -> eta c = PNone ->
  forall md,
    md ∈ envelopes (delay_task self c w []).2 ->
    exists delta,
      timedelta_seconds (float_seconds w) (countdown c) = Ok delta /\
      md !! "eta" = Some (PIso (clock w 0 + delta)).

(** The validation with the guarantee given for every [args] that is not a
    list or tuple and every [kwargs] that is not a dict. *)
Definition rejects_every_non_sequence (self : TaskPublisher) (c : delay_call)
    (w : surroundings) : Prop :=
  is_sequence (task_args c) = false \/ is_dict (task_kwargs c) = false ->
  let out := delay_task self c w [] in
  (exists e, out.1 = Raise e /\ exn_cls e = ValueError) /\ no_io out.2.

End PublishSpec.

Module PublishExample.
Import Amqp.

Definition publisher : TaskPublisher :=
  mkTaskPublisher (PStr "celery") (PStr "direct").

(** [timedelta(seconds=f)] for the surroundings of the examples: the whole
    number of microseconds nearest to [f] seconds, a half counted away from
    zero, within 999999999 days; an infinity is refused with
    [OverflowError], a NaN with [ValueError]. *)
Definition nearest_microsecond (f : spec_float) : result Z :=
  match f with
  | S754_zero _ => Ok 0
  | S754_infinity _ => Raise (Exn OverflowError [PFloat f])
  | S754_nan => Raise (Exn ValueError [PFloat f])
  | S754_finite negative m e =>
      let n := Z.pos m * 1000000 in
      let magnitude :=
        if 0 <=? e then n * 2 ^ e
        else (2 * n + 2 ^ (- e)) `div` (2 ^ (- e + 1)) in
      let us := if negative then - magnitude else magnitude in
      if (- timedelta_max_days <=? us `div` 86400000000)
         && (us `div` 86400000000 <=? timedelta_max_days)
      then Ok us
      else Raise (Exn OverflowError [PFloat f])
  end.

(** A clock in the year 2010 that moves on by a microsecond at every
    reading. *)
Definition surroundings : surroundings :=
  mkSurroundings (fun n => 63400000000000000 + Z.of_nat n) "id-1" None
    nearest_microsecond.

(** [delay_task("add", [2, 3], countdown=10, expires=60)] *)
Definition call_ten : delay_call :=
  mkDelayCall (PStr "add") (PList [PInt 2; PInt 3]) PNone (PInt 10) PNone
    PNone PNone (PInt 60) PNone PNone ∅.

(** [delay_task("add", [2, 3], countdown=1.5)] *)
Definition call_float : delay_call :=
  mkDelayCall (PStr "add") (PList [PInt 2; PInt 3]) PNone
    (PFloat (S754_finite false 3 (-1))) PNone
    PNone PNone PNone PNone PNone ∅.

(** [delay_task("add", [2, 3], countdown=0)] *)
Definition call_zero : delay_call :=
  mkDelayCall (PStr "add") (PList [PInt 2; PInt 3]) PNone (PInt 0) PNone
    PNone PNone PNone PNone PNone ∅.

(** [delay_task("add", {}, {"x": 2})]: the args are a mapping, an empty
    one. *)
Definition call_empty_mapping : delay_call :=
  mkDelayCall (PStr "add") (PDict ∅) (PDict {[ "x" := PInt 2 ]}) PNone PNone
    PNone PNone PNone PNone PNone ∅.

(** [delay_task("add", {"x": 2})]: the args are a mapping. *)
Definition call_mapping : delay_call :=
  mkDelayCall (PStr "add") (PDict {[ "x" := PInt 2 ]}) PNone PNone PNone
    PNone PNone PNone PNone PNone ∅.

End PublishExample.

(** *** Exceptions and a pickler to run [prepare_exception] on *)

Module BackendExample.
Import Backend.

(** Built-in classes: calling an exception class stores the positional
    arguments as [args]; [object] takes no arguments. *)
Definition object_ : pyclass :=
  mkClass "__builtin__" "object"
    (fun a => match a with [] => Some [] | _ => None end) [].
Definition BaseException_ : pyclass :=
  mkClass "exceptions" "BaseException" Some [object_].
Definition Exception_ : pyclass :=
  mkClass "exceptions" "Exception" Some [BaseException_; object_].
Definition StandardError_ : pyclass :=
  mkClass "exceptions" "StandardError" Some
    [Exception_; BaseException_; object_].
Definition LookupError_ : pyclass :=
  mkClass "exceptions" "LookupError" Some
    [StandardError_; Exception_; BaseException_; object_].
Definition KeyError_ : pyclass :=
  mkClass "exceptions" "KeyError" Some
    [LookupError_; StandardError_; Exception_; BaseException_; object_].

(** Pickling a value: a lock is refused with [TypeError], a lambda with
    [PicklingError]; containers are pickled item by item, down to the
    recursion limit. *)
Fixpoint first_error (outcomes : list (option exn)) : option exn :=
  match outcomes with
  | [] => None
  | Some e :: _ => Some e
  | None :: rest => first_error rest
  end.

Fixpoint dumps_value (depth : nat) (v : pyval) : option exn :=
  match depth with
  | O => Some (Exn (OtherException "RuntimeError")
                 [PStr "maximum recursion depth exceeded"])
  | S depth =>
      match v with
      | PLock => Some (Exn TypeError [PStr "can't pickle lock objects"])
      | PLambda => Some (Exn PickleError [PStr "Can't pickle <lambda>"])
      | PList l | PTuple l => first_error (map (dumps_value depth) l)
      | PDict d =>
          first_error (map (fun kv => dumps_value depth kv.2) (map_to_list d))
      | _ => None
      end
  end.

(** [pickle.dumps] on an instance of one of the classes above: the class is
    found by name, the arguments are pickled. *)
Definition dumps (exc : instance) : option exn :=
  dumps_value 1000 (PTuple (inst_args exc)).

(** [KeyError("foo")] *)
Definition key_error : instance := mkInstance KeyError_ [PStr "foo"].

(** [Exception(threading.Lock())] *)
Definition holds_lock : instance := mkInstance Exception_ [PLock].

(** [Exception(lambda: 0)] *)
Definition holds_lambda : instance := mkInstance Exception_ [PLambda].

End BackendExample.

(** *** Acknowledgements over a whole run *)

Module WorkerRunSpec.
Import Worker.

(** Every acknowledgement in the log comes directly after a call of
    [pool.apply_async] for the same message that returned. *)
Definition acks_follow_submits (log : list event) : Prop :=
  forall pre tag post,
    log = pre ++ EAck tag :: post ->
    exists pre' f a kw, pre = pre' ++ [ESubmit tag f a kw true].

(** Telling the acknowledgements, the rejections and the submissions of a
    log from its other calls. *)
Definition is_ack (ev : event) : bool :=
  match ev with EAck _ => true | _ => false end.
Definition is_reject (ev : event) : bool :=
  match ev with EReject _ => true | _ => false end.
Definition is_submit (ev : event) : bool :=
  match ev with ESubmit _ _ _ _ _ => true | _ => false end.

(** A call that settles something: an acknowledgement, a rejection or a
    submission. *)
Definition settles (ev : event) : bool :=
  is_ack ev || is_reject ev || is_submit ev.

(** A log without a call of the kind [p]. *)
Definition without (p : event -> bool) (log : list event) : Prop :=
  Forall (fun ev => p ev = false) log.

(** The log of one turn: at most one acknowledgement, right after the
    submission that returned. *)
Definition turn_shape (log : list event) : Prop :=
  (forall tag, EAck tag ∉ log) \/
  exists pre tag f a kw post,
    log = pre ++ [ESubmit tag f a kw true; EAck tag] ++ post /\
    (forall t, EAck t ∉ pre) /\ (forall t, EAck t ∉ post).

End WorkerRunSpec.

(** ** Waiting for a result ([BaseBackend.wait_for]) *)

Module BackendWait.

(** What a backend holds for a task: a result, or the exception of a
    failure. *)
Inductive stored : Type :=
| SValue (v : pyval)
| SException (e : exn).

(** One turn of the polling loop, as the surroundings answer it: what
    [get_status] and [get_result] give at that moment, and whether
    [timeout_timer.tick()] raises. *)
Record poll : Type := mkPoll {
  status : result string;
  stored_result : result stored;
  tick : option exn
}.

(** [raise value]: only an exception can be raised. *)
Definition raise_stored (value : stored) : exn :=
  match value with
  | SException e => e
  | SValue v =>
      Exn TypeError [PStr "exceptions must be classes or instances"; v]
  end.

(** The body of the [while True] loop: [Some] when the turn leaves the
    loop, by [return] or by an exception, [None] when it goes round
    again. *)
Definition wait_turn (p : poll) : option (result stored) :=
  match status p with
  | Raise e => Some (Raise e)
  | Ok status =>
      if String.eqb status "DONE" then Some (stored_result p)
      else if String.eqb status "FAILURE" then
        Some (match stored_result p with
              | Ok value => Raise (raise_stored value)
              | Raise e => Raise e
              end)
      else
        match tick p with
        | Some e => Some (Raise e)
        | None => None
        end
  end.

(** [BaseBackend.wait_for] over the polls that are answered: [None] when
    the loop is still going round after the last of them. *)
Fixpoint wait_for (polls : list poll) : option (result stored) :=
  match polls with
  | [] => None
  | p :: rest =>
      match wait_turn p with
      | Some outcome => Some outcome
      | None => wait_for rest
      end
  end.

(** A poll that finds the task neither done nor failed, within the time
    allowed. *)
Definition undecided (p : poll) : Prop :=
  exists s, status p = Ok s /\ s <> "DONE" /\ s <> "FAILURE" /\ tick p = None.

End BackendWait.

Module BackendWaitExample.
Import BackendWait.

Definition pending : poll :=
  mkPoll (Ok "PENDING") (Raise (Exn KeyError [])) None.
Definition retrying : poll :=
  mkPoll (Ok "RETRY") (Ok (SException (Exn (OtherException "IOError") []))) None.
(** The task is done at the very poll at which the time is up. *)
Definition done_late : poll :=
  mkPoll (Ok "DONE") (Ok (SValue (PInt 5)))
    (Some (Exn (OtherException "TimeoutError") [])).
Definition failed : poll :=
  mkPoll (Ok "FAILURE") (Ok (SException (Exn KeyError [PStr "foo"]))) None.
Definition timed_out : poll :=
  mkPoll (Ok "RETRY") (Ok (SException (Exn (OtherException "IOError") [])))
    (Some (Exn (OtherException "TimeoutError") [])).

End BackendWaitExample.

(** ** The life of a task pool ([TaskPool.start], [stop], [terminate]) *)

Module PoolLife.

(** The underlying pool object, as far as [TaskPool] looks at it: its
    [_state]. *)
Inductive pool_state : Type := RUN | CLOSE | TERMINATE.

Record TaskPool : Type := mkTaskPool {
  processes : pyval;
  putlocks : bool;
  _pool : option pool_state
}.

(** Calls on the underlying pool and on the logger. *)
Inductive event : Type :=
| ECreate (processes : pyval)
| EClose
| EJoin
| ETerminate
| EDebug (target : string) (args kwargs : pyval)
| EApply (item : Pool.work_item) (waitforslot : bool)
| EGrow (n : Z)
| EShrink (n : Z).

(** [TaskPool.start]: a new pool, which starts in state [RUN]. *)
Definition start (self : TaskPool) : eff event TaskPool :=
  _ ← emit (ECreate (processes self));
  mret (mkTaskPool (processes self) (putlocks self) (Some RUN)).

(** What the underlying pool answers to the calls of one [stop] or
    [terminate]: whether [close()], [join()] and [terminate()] raise, and
    the [_state] it shows afterwards, at the next [stop], should the task
    pool still hold it. *)
Record answers : Type := mkAnswers {
  close_raises : option exn;
  join_raises : option exn;
  terminate_raises : option exn;
  state_after : pool_state
}.

(** [self._pool = None], and the pool kept when a call on it raises before
    that assignment. *)
Definition forget (self : TaskPool) : TaskPool :=
  mkTaskPool (processes self) (putlocks self) None.

Definition keep (self : TaskPool) (w : answers) : TaskPool :=
  mkTaskPool (processes self) (putlocks self) (Some (state_after w)).

(** [TaskPool.stop]: the outcome, the task pool afterwards, and the
    calls. *)
Definition stop (self : TaskPool) (w : answers) (log : list event)
    : result unit * TaskPool * list event :=
  match _pool self with
  | Some RUN =>
      match close_raises w with
      | Some e => (Raise e, keep self w, log ++ [EClose])
      | None =>
          match join_raises w with
          | Some e => (Raise e, keep self w, log ++ [EClose; EJoin])
          | None => (Ok tt, forget self, log ++ [EClose; EJoin])
          end
      end
  | _ => (Ok tt, self, log)
  end.

(** [TaskPool.terminate] *)
Definition terminate (self : TaskPool) (w : answers) (log : list event)
    : result unit * TaskPool * list event :=
  match _pool self with
  | Some _ =>
      match terminate_raises w with
      | Some e => (Raise e, keep self w, log ++ [ETerminate])
      | None => (Ok tt, forget self, log ++ [ETerminate])
      end
  | None => (Ok tt, self, log)
  end.

(** An attribute looked up on [self._pool] when it is [None]. *)
Definition none_has_no (attribute : string) : exn :=
  Exn AttributeError
    [PStr "'NoneType' object has no attribute"; PStr attribute].

(** [TaskPool.apply_async]: the debug line, then the call on the underlying
    pool. *)
Definition apply_async (self : TaskPool) (target : string)
    (args kwargs : pyval) (callbacks errbacks : option (list Pool.callback))
    : eff event unit :=
  let item := Pool.apply_async target args kwargs callbacks errbacks in
  _ ← emit (EDebug target (Pool.item_args item) (Pool.item_kwargs item));
  match _pool self with
  | None => raise (none_has_no "apply_async")
  | Some _ => emit (EApply item (putlocks self))
  end.

(** [TaskPool.grow] and [TaskPool.shrink] *)
Definition grow (self : TaskPool) (n : Z) : eff event unit :=
  match _pool self with
  | None => raise (none_has_no "grow")
  | Some _ => emit (EGrow n)
  end.

Definition shrink (self : TaskPool) (n : Z) : eff event unit :=
  match _pool self with
  | None => raise (none_has_no "shrink")
  | Some _ => emit (EShrink n)
  end.

(** The two ways to shut a pool down, and a sequence of them, each with the
    answers of the underlying pool, made by a caller that goes on to the
    next whatever the outcome. *)
Inductive shutdown : Type := Stop | Terminate.

Definition shut (self : TaskPool) (how : shutdown) (w : answers)
    (log : list event) : result unit * TaskPool * list event :=
  match how with
  | Stop => stop self w log
  | Terminate => terminate self w log
  end.

Fixpoint shut_all (self : TaskPool) (hows : list (shutdown * answers))
    (log : list event) : TaskPool * list event :=
  match hows with
  | [] => (self, log)
  | (how, w) :: rest =>
      let '(_, self, log) := shut self how w log in
      shut_all self rest log
  end.

(** The underlying pool answers every call of a shutdown by returning. *)
Definition obliging : answers := mkAnswers None None None CLOSE.

(** The exceptions a log shows recorded by [safe_apply_callback]. *)
Definition logged_errors (log : list Pool.event) : list exn :=
  omap (fun ev => match ev with
                  | Pool.ELogError e => Some e
                  | Pool.ECall _ _ => None
                  end) log.

End PoolLife.

(** ** Queues and consumers ([AMQP.get_queues], [AMQP.get_consumer_set]) *)

Module AmqpQueues.

(** The configuration values the two methods read. *)
Record conf : Type := mkConf {
  CELERY_QUEUES : gmap string (gmap string pyval);
  CELERY_DEFAULT_EXCHANGE : pyval;
  CELERY_DEFAULT_EXCHANGE_TYPE : pyval;
  CELERY_DEFAULT_QUEUE : string
}.

(** [d.setdefault(key, value)], for its effect on [d]. *)
Definition setdefault (key : string) (value : pyval) (d : gmap string pyval)
    : gmap string pyval :=
  match d !! key with
  | Some _ => d
  | None => <[key := value]> d
  end.

(** [d.get(key)] and [d.pop(key, None)] *)
Definition get (d : gmap string pyval) (key : string) : pyval :=
  default PNone (d !! key).

(** [_defaults(opts)] inside [get_queues] *)
Definition _defaults (c : conf) (opts : gmap string pyval)
    : gmap string pyval :=
  let opts := setdefault "exchange" (CELERY_DEFAULT_EXCHANGE c) opts in
  let opts :=
    setdefault "exchange_type" (CELERY_DEFAULT_EXCHANGE_TYPE c) opts in
  let opts := setdefault "binding_key" (CELERY_DEFAULT_EXCHANGE c) opts in
  setdefault "routing_key" (get opts "binding_key") opts.

(** [AMQP.get_queues]: the dict it returns, and the configuration
    afterwards; [setdefault] works on the option dicts of the configuration
    themselves, so the configuration holds the completed options too. *)
Definition get_queues (c : conf)
    : gmap string (gmap string pyval) * conf :=
  let queues := _defaults c <$> CELERY_QUEUES c in
  (queues,
   mkConf queues (CELERY_DEFAULT_EXCHANGE c) (CELERY_DEFAULT_EXCHANGE_TYPE c)
     (CELERY_DEFAULT_QUEUE c)).

(** [AMQP.get_default_queue]: the subscript raises [KeyError] when the
    default queue is not among the configured ones. *)
Definition get_default_queue (c : conf)
    : result (string * gmap string pyval) * conf :=
  let q := CELERY_DEFAULT_QUEUE c in
  let '(queues, c') := get_queues c in
  (match queues !! q with
   | Some opts => Ok (q, opts)
   | None => Raise (Exn KeyError [PStr q])
   end, c').

(** A consumer, as the keyword arguments it is made with. *)
Record consumer : Type := mkConsumer {
  queue : string;
  consumer_options : gmap string pyval
}.

(** The body of the loop in [get_consumer_set]: a copy of the options with
    [binding_key] taken out and put back as [routing_key]; the call of the
    consumer class raises [TypeError] when the options name an argument that
    is also passed explicitly. *)
Definition make_consumer (queue_name : string)
    (queue_options : gmap string pyval) : result consumer :=
  let queue_options :=
    <["routing_key" := get queue_options "binding_key"]>
      (delete "binding_key" queue_options) in
  if bool_decide (is_Some (queue_options !! "queue"))
     || bool_decide (is_Some (queue_options !! "backend"))
     || bool_decide (is_Some (queue_options !! "connection"))
  then Raise (Exn TypeError [PStr "got multiple values for keyword argument"])
  else Ok (mkConsumer queue_name queue_options).

Fixpoint make_consumers (items : list (string * gmap string pyval))
    : result (list consumer) :=
  match items with
  | [] => Ok []
  | (queue_name, queue_options) :: rest =>
      match make_consumer queue_name queue_options with
      | Raise e => Raise e
      | Ok consumer =>
          match make_consumers rest with
          | Raise e => Raise e
          | Ok consumers => Ok (consumer :: consumers)
          end
      end
  end.

(** [AMQP.get_consumer_set]: the consumers of the set, in the order the
    queues are gone through, and the configuration afterwards; a missing or
    empty [queues] argument stands for the configured queues. *)
Definition get_consumer_set (c : conf)
    (queues : option (gmap string (gmap string pyval)))
    : result (list consumer) * conf :=
  let '(queues, c') :=
    match queues with
    | Some queues =>
        if bool_decide (dom queues = ∅) then get_queues c else (queues, c)
    | None => get_queues c
    end in
  (make_consumers (map_to_list queues), c').

(** The options a consumer is made with. *)
Definition consumer_of (item : string * gmap string pyval)
    (cons : consumer) : Prop :=
  queue cons = item.1 /\
  consumer_options cons =
    <["routing_key" := get item.2 "binding_key"]>
      (delete "binding_key" item.2).

End AmqpQueues.

Module AmqpQueuesExample.
Import AmqpQueues.

(** One queue with an exchange of its own and nothing else, one with every
    option given. *)
Definition conf : conf :=
  mkConf
    {[ "video" := {[ "exchange" := PStr "media" ]};
       "celery" := {[ "exchange" := PStr "celery";
                      "exchange_type" := PStr "direct";
                      "binding_key" := PStr "celery";
                      "routing_key" := PStr "celery" ]} ]}
    (PStr "celery") (PStr "direct") "celery".

End AmqpQueuesExample.

(** ** The clock server's entry point ([celery/bin/celerybeat.py]) *)

Module Beat.

(** [s.upper()], on ASCII letters. *)
Definition upper_ascii (a : Ascii.ascii) : Ascii.ascii :=
  let n := Ascii.nat_of_ascii a in
  if (Nat.leb 97 n && Nat.leb n 122)%bool
  then Ascii.ascii_of_nat (n - 32)
  else a.

Fixpoint upper (s : string) : string :=
  match s with
  | EmptyString => EmptyString
  | String a rest => String (upper_ascii a) (upper rest)
  end.

(** What [run_clockserver] prints. *)
Inductive banner : Type := Starting | Configuration | Started.

(** The calls of [run_clockserver], in order: the prints, the daemon
    context, the logger, the loader's init handler, the clock service with
    the arguments it is made with, and the emergency log. *)
Inductive event : Type :=
| EPrint (what : banner)
| EContextOpen (logfile pidfile : pyval)
| ESetupLogger (loglevel : Z) (logfile : pyval)
| ERedirectStdouts (loglevel : Z)
| EWorkerInit
| EClockStart (loglevel : Z) (logfile : pyval) (is_detached : bool)
| EEmergencyError (logfile : pyval) (e : exn)
| EContextClose.

(** The arguments of [run_clockserver] that it looks at. *)
Record options : Type := mkOptions {
  detach : bool;
  loglevel : pyval;
  logfile : pyval;
  pidfile : pyval
}.

(** What the surroundings answer: the table [conf.LOG_LEVELS], whether the
    loader's [on_worker_init] raises, and whether [clockservice.start()]
    raises (it returns when the service is stopped). *)
Record surroundings : Type := mkSurroundings {
  LOG_LEVELS : gmap string Z;
  worker_init_raises : option exn;
  clock_raises : option exn
}.

(** [if not isinstance(loglevel, int): loglevel =
    conf.LOG_LEVELS[loglevel.upper()]] *)
Definition resolve_loglevel (w : surroundings) (loglevel : pyval)
    : result Z :=
  match loglevel with
  | PInt z => Ok z
  | PBool b => Ok (if b then 1 else 0)
  | PStr s =>
      match LOG_LEVELS w !! upper s with
      | Some level => Ok level
      | None => Raise (Exn KeyError [PStr (upper s)])
      end
  | _ => Raise (Exn AttributeError [PStr "upper"])
  end.

(** [_run_clock] inside [run_clockserver] *)
Definition _run_clock (w : surroundings) (detach : bool) (loglevel : Z)
    (logfile : pyval) : eff event unit :=
  try_except
    (_ ← emit (EClockStart loglevel logfile detach);
     match clock_raises w with
     | Some e => raise e
     | None => mret tt
     end)
    (fun e => is_Exception (exn_cls e))
    (fun e => emit (EEmergencyError logfile e)).

(** [run_clockserver] *)
Definition run_clockserver (w : surroundings) (o : options)
    : eff event unit :=
  _ ← emit (EPrint Starting);
  loglevel ← lift (resolve_loglevel w (loglevel o));
  let logfile := if detach o then logfile o else PNone in
  _ ← emit (EPrint Configuration);
  _ ← emit (EPrint Started);
  _ ← (if detach o then
         _ ← emit (EContextOpen logfile (pidfile o));
         _ ← emit (ESetupLogger loglevel logfile);
         emit (ERedirectStdouts loglevel)
       else mret tt);
  _ ← emit EWorkerInit;
  _ ← match worker_init_raises w with
      | Some e => raise e
      | None => mret tt
      end;
  try_except (_run_clock w (detach o) loglevel logfile)
    (fun _ => true)
    (fun e =>
       _ ← (if detach o then emit EContextClose else mret tt);
       raise e).

End Beat.

Module BeatExample.
Import Beat.

Definition levels : gmap string Z :=
  {[ "DEBUG" := 10; "INFO" := 20; "WARNING" := 30; "ERROR" := 40 ]}.

Definition quiet : surroundings := mkSurroundings levels None None.

Definition clock_fails : surroundings :=
  mkSurroundings levels None (Some (Exn (OtherException "IOError") [])).

Definition interrupted : surroundings :=
  mkSurroundings levels None (Some (Exn KeyboardInterrupt [])).

Definition foreground : options :=
  mkOptions false (PStr "info") (PStr "/var/log/beat.log") (PStr "beat.pid").

Definition background : options :=
  mkOptions true (PInt 20) (PStr "/var/log/beat.log") (PStr "beat.pid").

End BeatExample.

(** * Properties *)

(** C10: [prepare_result] maps [None] to [True], returns every other result
    unchanged, and therefore never returns [None]. *)
Theorem prepare_result_never_none (v : pyval) :
  Backend.prepare_result PNone = PBool true /\
  (v <> PNone -> Backend.prepare_result v = v) /\
  Backend.prepare_result v <> PNone.
Proof.
  split; [reflexivity|].
  split; destruct v; simpl; congruence.
Qed.

Lemma prepare_result_never_none_witness :
  PInt 5 <> PNone /\ Backend.prepare_result (PInt 5) = PInt 5.
Proof.
  split; [discriminate|].
  apply (prepare_result_never_none (PInt 5)). discriminate.
Defined.

(** ** The log only grows *)

Section Appends.
Context {E : Type}.

Lemma appends_ret {A} (a : A) : appends (mret a : eff E A).
Proof. intros tr. cbv [mret eff_ret]. simpl. by rewrite app_nil_r. Qed.

Lemma appends_emit (e : E) : appends (emit e).
Proof. intros tr. reflexivity. Qed.

Lemma appends_raise {A} (e : exn) : appends (raise e : eff E A).
Proof. intros tr. cbv [raise]. simpl. by rewrite app_nil_r. Qed.

Lemma appends_lift {A} (r : result A) : appends (lift r : eff E A).
Proof. intros tr. cbv [lift]. simpl. by rewrite app_nil_r. Qed.

Lemma appends_bind {A B} (m : eff E A) (k : A -> eff E B) :
  appends m -> (forall a, appends (k a)) -> appends (m ≫= k).
Proof.
  intros Hm Hk tr. cbv [mbind eff_bind].
  rewrite (Hm tr). destruct (m []) as [[a|e] ev]; simpl.
  - rewrite (Hk a (tr ++ ev)), (Hk a ev). simpl. by rewrite app_assoc.
  - reflexivity.
Qed.

Lemma appends_try_except {A} (m : eff E A) catches (h : exn -> eff E A) :
  appends m -> (forall e, appends (h e)) -> appends (try_except m catches h).
Proof.
  intros Hm Hh tr. cbv [try_except].
  rewrite (Hm tr). destruct (m []) as [[a|e] ev]; simpl; [reflexivity|].
  destruct (catches e); [|reflexivity].
  rewrite (Hh e (tr ++ ev)), (Hh e ev). simpl. by rewrite app_assoc.
Qed.

End Appends.

Ltac appends_tac :=
  repeat first
    [ apply appends_bind; [|intros]
    | apply appends_try_except; [|intros]
    | apply appends_ret | apply appends_emit | apply appends_raise
    | apply appends_lift
    | match goal with
      | |- appends (match ?x with _ => _ end) => destruct x
      | |- appends (if ?x then _ else _) => destruct x
      | |- appends (let '(_, _) := ?x in _) => destruct x
      end ].

Section RunningFromTheStart.
Context {E : Type}.

(** A computation run from the empty log, step by step. *)
Lemma run_bind {A B} (m : eff E A) (k : A -> eff E B) :
  (forall a, appends (k a)) ->
  (m ≫= k) [] =
    match m [] with
    | (Ok a, ev) => ((k a []).1, ev ++ (k a []).2)
    | (Raise e, ev) => (Raise e, ev)
    end.
Proof.
  intros Hk. cbv [mbind eff_bind].
  destruct (m []) as [[a|e] ev]; [|reflexivity].
  by rewrite (Hk a ev).
Qed.

Lemma run_try_except {A} (m : eff E A) catches (h : exn -> eff E A) :
  (forall e, appends (h e)) ->
  try_except m catches h [] =
    match m [] with
    | (Ok a, ev) => (Ok a, ev)
    | (Raise e, ev) =>
        if catches e then ((h e []).1, ev ++ (h e []).2) else (Raise e, ev)
    end.
Proof.
  intros Hh. cbv [try_except].
  destruct (m []) as [[a|e] ev]; [reflexivity|].
  destruct (catches e); [|reflexivity]. by rewrite (Hh e ev).
Qed.

End RunningFromTheStart.

(** ** The worker daemon, call by call *)

(** Case analysis on a scrutinee that has no case analysis inside. *)
Ltac destruct_innermost :=
  match goal with
  | |- context [match ?x with _ => _ end] =>
      lazymatch x with
      | context [match _ with _ => _ end] => fail
      | _ => destruct x
      end
  end.

Section WorkerCalls.
Import Worker.

Lemma appends_call ev raises : appends (call ev raises).
Proof. unfold call. appends_tac. Qed.

Lemma call_run ev raises :
  call ev raises [] =
    (match raises with Some e => Raise e | None => Ok tt end, [ev]).
Proof.
  unfold call. cbv [mbind eff_bind mret eff_ret emit raise].
  by destruct raises.
Qed.

Lemma appends_from_message tasks m : appends (from_message tasks m).
Proof. unfold from_message, call. appends_tac. Qed.

Lemma appends_execute_using_pool t tag pr lvl file :
  appends (execute_using_pool t tag pr lvl file).
Proof. unfold execute_using_pool. appends_tac. Qed.

Lemma appends_fetch_next_task self rd : appends (fetch_next_task self rd).
Proof.
  unfold fetch_next_task, info.
  appends_tac; auto using appends_from_message, appends_call.
Qed.

Lemma appends_execute_next_task self rd : appends (execute_next_task self rd).
Proof.
  unfold execute_next_task, critical.
  appends_tac;
    auto using appends_fetch_next_task, appends_execute_using_pool,
      appends_call.
Qed.

Lemma appends_delay_all waiting : appends (delay_all waiting).
Proof.
  induction waiting as [|[name raises] rest IH]; simpl.
  - apply appends_ret.
  - apply appends_bind; [apply appends_call|intros; exact IH].
Qed.

Lemma appends_run_periodic_tasks rd : appends (run_periodic_tasks rd).
Proof.
  unfold run_periodic_tasks. appends_tac. apply appends_delay_all.
Qed.

Lemma appends_on_error self rd last e : appends (on_error self rd last e).
Proof. unfold on_error, info, critical. appends_tac; apply appends_call. Qed.

Lemma appends_run_turn self rd last : appends (run_turn self rd last).
Proof.
  unfold run_turn.
  appends_tac;
    auto using appends_run_periodic_tasks, appends_execute_next_task,
      appends_on_error, appends_call, appends_delay_all.
Qed.

Lemma appends_run_from self rounds :
  forall last, appends (run_from self rounds last).
Proof.
  induction rounds as [|rd rest IH]; intros last; simpl.
  - apply appends_ret.
  - apply appends_bind; [apply appends_run_turn | intros; apply IH].
Qed.

(** *** Reading a message *)

(** A message that is read without an exception is read without a call. *)
Lemma from_message_ok_log tasks m task ev :
  from_message tasks m [] = (Ok task, ev) -> ev = [].
Proof.
  unfold from_message, call.
  cbv [mbind eff_bind mret eff_ret emit lift raise].
  repeat (destruct_innermost; simpl);
    intros [=]; done.
Qed.

(** The only call reading a message can make is the rejection. *)
Lemma from_message_log tasks m :
  (from_message tasks m []).2 = [] \/
  (from_message tasks m []).2 = [EReject (msg_tag m)].
Proof.
  unfold from_message, call.
  cbv [mbind eff_bind mret eff_ret emit lift raise].
  repeat (destruct_innermost; simpl); auto.
Qed.

(** *** Fetching *)

Lemma fetch_next_task_run self rd :
  fetch_next_task self rd [] =
    match fetched rd with
    | Raise e => (Raise e, [EFetch])
    | Ok None => (Raise (Exn EmptyQueue []), [EFetch])
    | Ok (Some m) =>
        match from_message (tasks self) m [] with
        | (Ok task, ev) =>
            let record := GotTaskFromBroker (task_name task) (task_id task) in
            (match logger_raises rd record with
             | Some e => Raise e
             | None => Ok (task, m)
             end, [EFetch] ++ ev ++ [EInfo record])
        | (Raise e, ev) => (Raise e, [EFetch] ++ ev)
        end
    end.
Proof.
  unfold fetch_next_task, info.
  cbv [mbind eff_bind mret eff_ret emit lift raise]. simpl.
  destruct (fetched rd) as [[m|]|e]; simpl; try reflexivity.
  rewrite (appends_from_message (tasks self) m).
  destruct (from_message (tasks self) m []) as [[task|e] ev]; simpl;
    [|reflexivity].
  rewrite (appends_call _ _ ([EFetch] ++ ev)), call_run. simpl.
  by destruct (logger_raises rd _).
Qed.

(** A fetch that returns has made two calls, on the consumer and on the
    logger. *)
Lemma fetch_next_task_ok self rd task m ev :
  fetch_next_task self rd [] = (Ok (task, m), ev) ->
  fetched rd = Ok (Some m) /\
  from_message (tasks self) m [] = (Ok task, []) /\
  logger_raises rd (GotTaskFromBroker (task_name task) (task_id task)) = None /\
  ev = [EFetch; EInfo (GotTaskFromBroker (task_name task) (task_id task))].
Proof.
  rewrite fetch_next_task_run.
  destruct (fetched rd) as [[m'|]|e]; try discriminate.
  destruct (from_message (tasks self) m' []) as [[task'|e] ev'] eqn:Hread;
    [|discriminate].
  pose proof (from_message_ok_log _ _ _ _ Hread) as ->. simpl.
  destruct (logger_raises rd (GotTaskFromBroker (task_name task')
                                (task_id task'))) eqn:Hinfo; [discriminate|].
  intros Heq. injection Heq as -> -> <-. done.
Qed.

(** *** Submitting *)

(** The pool is called at most once, and the call is logged as returned
    exactly when the submission returns. *)
Lemma execute_using_pool_log task tag pr lvl file :
  match execute_using_pool task tag pr lvl file [] with
  | (Ok r, ev) =>
      r = AsyncResult tag /\
      exists kw, ev = [ESubmit tag (task_func task) (args task) kw true]
  | (Raise e, ev) =>
      ev = [] \/
      exists kw, ev = [ESubmit tag (task_func task) (args task) kw false]
  end.
Proof.
  unfold execute_using_pool.
  cbv [mbind eff_bind mret eff_ret emit lift raise].
  destruct (extend_kwargs_with_logging task file lvl) as [kw|e]; simpl.
  - destruct pr as [error|]; simpl; eauto.
  - by left.
Qed.

(** What [execute_next_task] does with a task it has fetched, by the
    outcome of the submission. *)
Lemma execute_next_task_run self rd task m fev :
  fetch_next_task self rd [] = (Ok (task, m), fev) ->
  execute_next_task self rd [] =
    match execute_using_pool task (msg_tag m) (pool_raises rd)
            (loglevel self) (logfile self) [] with
    | (Ok r, sev) =>
        (match msg_ack m with
         | Some e => Raise e
         | None => Ok (Some (r, task_name task, task_id task))
         end, fev ++ sev ++ [EAck (msg_tag m)])
    | (Raise e, sev) =>
        if is_Exception (exn_cls e) then
          (match logger_raises rd (WorkerGotException e) with
           | Some e' => Raise e'
           | None => Ok None
           end, fev ++ sev ++ [ECritical (WorkerGotException e)])
        else (Raise e, fev ++ sev)
    end.
Proof.
  intros Hfetch. unfold execute_next_task, critical.
  cbv [mbind eff_bind mret eff_ret try_except]. rewrite Hfetch.
  rewrite (appends_execute_using_pool task).
  destruct (execute_using_pool task (msg_tag m) (pool_raises rd)
              (loglevel self) (logfile self) []) as [[r|e] sev]; simpl.
  - rewrite (appends_call _ _ (fev ++ sev)), call_run. simpl.
    rewrite <- app_assoc. by destruct (msg_ack m).
  - destruct (is_Exception (exn_cls e)); [|reflexivity].
    rewrite (appends_call _ _ (fev ++ sev)), call_run. simpl.
    rewrite <- app_assoc. by destruct (logger_raises rd _).
Qed.

Lemma execute_next_task_not_fetched self rd e fev :
  fetch_next_task self rd [] = (Raise e, fev) ->
  execute_next_task self rd [] = (Raise e, fev).
Proof.
  intros Hfetch. unfold execute_next_task.
  cbv [mbind eff_bind]. by rewrite Hfetch.
Qed.

(** *** The turn *)

(** The turn after the periodic tasks, by what [execute_next_task] comes
    to. *)
Lemma run_turn_run self rd last :
  run_turn self rd last [] =
    match run_periodic_tasks rd [] with
    | (Raise e, pev) => (Raise e, pev)
    | (Ok _, pev) =>
        match execute_next_task self rd [] with
        | (Ok (Some (r, name, id)), ev) =>
            (match results_add_raises rd with
             | Some e => Raise e
             | None => Ok last
             end, pev ++ ev ++ [EResultsAdd r name id])
        | (Ok None, ev) =>
            let h := on_error self rd last
                       (Exn TypeError
                          [PStr "'NoneType' object is not iterable"]) [] in
            (h.1, pev ++ ev ++ h.2)
        | (Raise e, ev) =>
            if is_Exception (exn_cls e) then
              let h := on_error self rd last e [] in (h.1, pev ++ ev ++ h.2)
            else (Raise e, pev ++ ev)
        end
    end.
Proof.
  unfold run_turn. cbv [mbind eff_bind mret eff_ret try_except lift].
  destruct (run_periodic_tasks rd []) as [[names|e] pev]; [|reflexivity].
  rewrite (appends_execute_next_task self rd).
  destruct (execute_next_task self rd []) as [[[[[r name] id]|]|e] ev]; simpl.
  - rewrite (appends_call _ _ (pev ++ ev)), call_run. simpl.
    rewrite <- app_assoc. by destruct (results_add_raises rd).
  - rewrite (appends_on_error self rd last _ (pev ++ ev)).
    destruct (on_error self rd last _ []) as [[l|e] hev]; simpl;
      by rewrite <- app_assoc.
  - destruct (is_Exception (exn_cls e)); [|reflexivity].
    rewrite (appends_on_error self rd last _ (pev ++ ev)).
    destruct (on_error self rd last _ []) as [[l|e'] hev]; simpl;
      by rewrite <- app_assoc.
Qed.

End WorkerCalls.

(** ** The worker daemon's submission step *)

Section QuietLogs.
Import Worker WorkerSpec WorkerRunSpec.

Lemma without_app p (l1 l2 : list event) :
  without p l1 -> without p l2 -> without p (l1 ++ l2).
Proof. intros H1 H2. apply Forall_app. by split. Qed.

Lemma without_settles_ack (log : list event) :
  without settles log -> without is_ack log.
Proof.
  intros Hall. eapply Forall_impl; [exact Hall|].
  intros ev. unfold settles. by destruct (is_ack ev).
Qed.

Lemma without_settles_reject (log : list event) :
  without settles log -> without is_reject log.
Proof.
  intros Hall. eapply Forall_impl; [exact Hall|].
  intros ev. unfold settles. destruct (is_ack ev), (is_reject ev); done.
Qed.

Lemma without_ack (log : list event) :
  without is_ack log -> no_ack log.
Proof.
  intros Hall tag Hin.
  by apply (proj1 (Forall_forall _ _) Hall) in Hin.
Qed.

Lemma without_reject (log : list event) tag :
  without is_reject log -> EReject tag ∉ log.
Proof.
  intros Hall Hin.
  by apply (proj1 (Forall_forall _ _) Hall) in Hin.
Qed.

(** Scheduling the periodic tasks settles nothing. *)
Lemma delay_all_quiet waiting : without settles (delay_all waiting []).2.
Proof.
  induction waiting as [|[name raises] rest IH]; simpl; [constructor|].
  rewrite run_bind by (intros; apply appends_delay_all).
  rewrite call_run. destruct raises; simpl.
  - by repeat constructor.
  - by constructor.
Qed.

Lemma run_periodic_tasks_quiet rd :
  without settles (run_periodic_tasks rd []).2.
Proof.
  unfold run_periodic_tasks. cbv [mbind eff_bind mret eff_ret lift].
  destruct (waiting_tasks rd) as [waiting|e]; [|constructor].
  pose proof (delay_all_quiet waiting) as Hq.
  by destruct (delay_all waiting []) as [[[]|e] ev].
Qed.

(** The clauses of the loop settle nothing. *)
Lemma on_error_quiet self rd last e :
  without settles (on_error self rd last e []).2.
Proof.
  unfold on_error, info, critical.
  destruct (exn_cls e);
    try (rewrite run_bind by (intros; apply appends_ret);
         rewrite call_run; destruct (logger_raises rd _);
         by repeat constructor);
    try by constructor.
  rewrite run_bind
    by (intros; apply appends_bind; [apply appends_call|intros; apply appends_ret]).
  assert (Hsleep : forall a : option Z,
             without settles
               ((_ ← call (ESleep (queue_wakeup_after self)) (sleep_raises rd);
                 mret a) []).2).
  { intros a. rewrite run_bind by (intros; apply appends_ret).
    rewrite call_run. destruct (sleep_raises rd); by repeat constructor. }
  destruct (negb (empty_msg_emit_every self =? 0)); simpl;
    [|exact (Hsleep last)].
  match goal with
  | |- context [if ?due then _ else _] => destruct due
  end; simpl; [|exact (Hsleep last)].
  rewrite run_bind by (intros; apply appends_ret).
  rewrite call_run.
  destruct (logger_raises rd WaitingForQueue); simpl.
  - by repeat constructor.
  - apply Forall_cons. split; [done|]. apply Hsleep.
Qed.

(** A clause whose own calls return ends in [continue]. *)
Lemma on_error_continues self rd last e :
  logger_returns rd -> sleep_raises rd = None ->
  exists last', (on_error self rd last e []).1 = Ok last'.
Proof.
  intros Hlog Hsleep. unfold on_error, info, critical.
  cbv [mbind eff_bind mret eff_ret call emit raise].
  rewrite Hsleep.
  destruct (exn_cls e); simpl; rewrite ?Hlog; simpl; eauto.
  destruct (negb (empty_msg_emit_every self =? 0)); simpl; eauto.
  match goal with
  | |- context [if ?due then _ else _] => destruct due
  end; simpl; rewrite ?Hlog; simpl; eauto.
Qed.

(** The clause that takes the [TypeError] of the unpacking writes a
    critical record and keeps the time of the last notice. *)
Lemma on_error_unpacking self rd last :
  let e := Exn TypeError [PStr "'NoneType' object is not iterable"] in
  on_error self rd last e [] =
    (match logger_raises rd (MessageQueueRaised e) with
     | Some e' => Raise e'
     | None => Ok last
     end, [ECritical (MessageQueueRaised e)]).
Proof.
  intros e. unfold on_error, critical. simpl.
  rewrite run_bind by (intros; apply appends_ret).
  rewrite call_run. by destruct (logger_raises rd _).
Qed.

(** Fetching acknowledges and submits nothing. *)
Lemma fetch_next_task_log self rd :
  without is_ack (fetch_next_task self rd []).2 /\
  without is_submit (fetch_next_task self rd []).2.
Proof.
  rewrite fetch_next_task_run.
  destruct (fetched rd) as [[m|]|e]; try by (split; repeat constructor).
  destruct (from_message_log (tasks self) m) as [Hlog|Hlog];
    destruct (from_message (tasks self) m []) as [[task|e] ev];
    simpl in Hlog; subst ev; split; by repeat constructor.
Qed.

End QuietLogs.

Section SubmissionStep.
Import Worker WorkerSpec WorkerRunSpec.
Variables (self : TaskDaemon) (rd : round) (last : option Z).
Variables (m : message) (task : TaskWrapper).
Variables (names : list string) (pev fev : list event).
Hypothesis Hperiodic : run_periodic_tasks rd [] = (Ok names, pev).
Hypothesis Hfetch : fetch_next_task self rd [] = (Ok (task, m), fev).

(** The turn of a task that was fetched, by the outcome of the submission:
    the calls up to the submission, the acknowledgement if the submission
    returned, and calls that settle nothing. *)
Lemma run_turn_dispatched :
  exists post,
    without settles post /\
    match execute_using_pool task (msg_tag m) (pool_raises rd)
            (loglevel self) (logfile self) [] with
    | (Ok r, sev) =>
        (run_turn self rd last []).2 =
          pev ++ fev ++ sev ++ EAck (msg_tag m) :: post /\
        (msg_ack m = None -> results_add_raises rd = None ->
         (run_turn self rd last []).1 = Ok last)
    | (Raise e, sev) =>
        (run_turn self rd last []).2 = pev ++ fev ++ sev ++ post /\
        (is_Exception (exn_cls e) = false ->
         (run_turn self rd last []).1 = Raise e) /\
        (is_Exception (exn_cls e) = true -> logger_returns rd ->
         (run_turn self rd last []).1 = Ok last)
    end.
Proof.
  rewrite run_turn_run, Hperiodic, (execute_next_task_run _ _ _ _ _ Hfetch).
  destruct (execute_using_pool task (msg_tag m) (pool_raises rd)
              (loglevel self) (logfile self) []) as [[r|e] sev].
  - destruct (msg_ack m) as [e|].
    + destruct (is_Exception (exn_cls e)); simpl.
      * exists (on_error self rd last e []).2.
        split; [apply on_error_quiet|]. split; [|done].
        by rewrite <- ?app_assoc.
      * exists []. split; [constructor|]. split; [|done].
        by rewrite <- ?app_assoc.
    + exists [EResultsAdd r (task_name task) (task_id task)].
      split; [by repeat constructor|]. simpl. split.
      * by rewrite <- ?app_assoc.
      * by intros _ ->.
  - destruct (is_Exception (exn_cls e)) eqn:He.
    + destruct (logger_raises rd (WorkerGotException e)) as [e'|] eqn:Hcrit.
      * exists (ECritical (WorkerGotException e) ::
                if is_Exception (exn_cls e')
                then (on_error self rd last e' []).2 else []).
        split.
        { apply Forall_cons. split; [done|].
          destruct (is_Exception (exn_cls e'));
            [apply on_error_quiet|constructor]. }
        split; [|split; [done|]].
        { destruct (is_Exception (exn_cls e')); simpl;
            rewrite <- ?app_assoc; simpl; by rewrite ?app_nil_r. }
        intros _ Hlog. by rewrite Hlog in Hcrit.
      * rewrite on_error_unpacking. simpl.
        exists [ECritical (WorkerGotException e);
                ECritical (MessageQueueRaised
                  (Exn TypeError [PStr "'NoneType' object is not iterable"]))].
        split; [by repeat constructor|].
        split; [by rewrite <- ?app_assoc|]. split; [done|].
        intros _ Hlog. by rewrite Hlog.
    + exists []. split; [constructor|]. simpl. rewrite He. simpl.
      split; [by rewrite ?app_nil_r, <- ?app_assoc|]. by split.
Qed.

End SubmissionStep.

Section WholeRun.
Import Worker WorkerSpec WorkerRunSpec.

Lemma turn_shape_acks (log : list event) :
  turn_shape log -> acks_follow_submits log.
Proof.
  intros [Hnone|(pre & tag & f & a & kw & post & -> & Hpre & Hpost)]
    pre0 tag0 post0 Heq.
  - exfalso. apply (Hnone tag0). rewrite Heq.
    apply elem_of_app. right. apply list_elem_of_here.
  - apply app_eq_app in Heq as [l [[-> Heq]|[-> Heq]]].
    + destruct l as [|ev l]; simpl in Heq; [discriminate Heq|].
      exfalso. injection Heq as <- _. apply (Hpre tag0).
      apply elem_of_app. right. apply list_elem_of_here.
    + destruct l as [|ev l]; simpl in Heq; [discriminate Heq|].
      injection Heq as <- Heq.
      destruct l as [|ev l]; simpl in Heq.
      * injection Heq as -> _. exists pre, f, a, kw. reflexivity.
      * exfalso. injection Heq as _ ->. apply (Hpost tag0).
        apply elem_of_app. right. apply list_elem_of_here.
Qed.

Lemma acks_follow_submits_app (l1 l2 : list event) :
  acks_follow_submits l1 -> acks_follow_submits l2 ->
  acks_follow_submits (l1 ++ l2).
Proof.
  intros H1 H2 pre tag post Heq.
  apply app_eq_app in Heq as [l [[-> Heq]|[-> Heq]]].
  - destruct l as [|ev l]; simpl in Heq.
    + destruct (H2 [] tag post) as (pre' & f & a & kw & Hnil);
        [by rewrite Heq|]. by destruct pre'.
    + injection Heq as <- ->. eapply H1. reflexivity.
  - destruct (H2 l tag post Heq) as (pre' & f & a & kw & ->).
    exists (l1 ++ pre'), f, a, kw. by rewrite app_assoc.
Qed.

(** The log of a submission holds no acknowledgement and no rejection. *)
Lemma execute_using_pool_settles task tag pr lvl file :
  without is_ack (execute_using_pool task tag pr lvl file []).2 /\
  without is_reject (execute_using_pool task tag pr lvl file []).2.
Proof.
  pose proof (execute_using_pool_log task tag pr lvl file) as Hlog.
  destruct (execute_using_pool task tag pr lvl file []) as [[r|e] ev];
    simpl.
  - destruct Hlog as (_ & kw & ->). split; by repeat constructor.
  - destruct Hlog as [->|(kw & ->)]; split; by repeat constructor.
Qed.

(** Every turn has the shape: at most one acknowledgement, directly after
    the submission that returned. *)
Lemma run_turn_shape self rd last : turn_shape (run_turn self rd last []).2.
Proof.
  pose proof (run_periodic_tasks_quiet rd) as Hp.
  destruct (run_periodic_tasks rd []) as [[names|e] pev] eqn:Hperiodic;
    simpl in Hp.
  - pose proof (fetch_next_task_log self rd) as [Hf _].
    destruct (fetch_next_task self rd []) as [[[task m]|e] fev] eqn:Hfetch;
      simpl in Hf.
    + destruct (run_turn_dispatched self rd last m task names pev fev
                  Hperiodic Hfetch) as (post & Hpost & Hturn).
      pose proof (execute_using_pool_log task (msg_tag m) (pool_raises rd)
                    (loglevel self) (logfile self)) as Hlog.
      pose proof (execute_using_pool_settles task (msg_tag m) (pool_raises rd)
                    (loglevel self) (logfile self)) as [Hs _].
      destruct (execute_using_pool task (msg_tag m) (pool_raises rd)
                  (loglevel self) (logfile self) []) as [[r|e] sev];
        simpl in Hs.
      * destruct Hturn as [-> _]. destruct Hlog as (_ & kw & ->). right.
        exists (pev ++ fev), (msg_tag m), (task_func task), (args task), kw,
          post.
        split; [by rewrite <- app_assoc|]. split.
        -- apply without_ack, without_app;
             [by apply without_settles_ack|exact Hf].
        -- by apply without_ack, without_settles_ack.
      * destruct Hturn as [-> _]. left.
        apply without_ack. repeat apply without_app; try done;
          by apply without_settles_ack.
    + left. rewrite run_turn_run, Hperiodic,
        (execute_next_task_not_fetched _ _ _ _ Hfetch).
      apply without_ack.
      destruct (is_Exception (exn_cls e)); simpl;
        repeat apply without_app; try done;
        apply without_settles_ack; [done|apply on_error_quiet|done].
  - left. rewrite run_turn_run, Hperiodic. simpl.
    by apply without_ack, without_settles_ack.
Qed.

(** Over any number of turns, an acknowledgement is only ever sent directly
    after [pool.apply_async] has returned for the same message. *)
Lemma run_acks_follow_submits (self : TaskDaemon) (rounds : list round) :
  forall last, acks_follow_submits (run_from self rounds last []).2.
Proof.
  induction rounds as [|rd rest IH]; intros last; simpl.
  - intros pre tag post Heq. by destruct pre.
  - cbv [mbind eff_bind].
    pose proof (turn_shape_acks _ (run_turn_shape self rd last)) as Hturn.
    destruct (run_turn self rd last []) as [[last'|e] ev]; simpl in *;
      [|exact Hturn].
    rewrite (appends_run_from self rest last'). simpl.
    by apply acks_follow_submits_app.
Qed.

End WholeRun.

(** The turn of a dispatched message, by the outcome of the submission. *)
Lemma dispatched_turn
    (self : Worker.TaskDaemon) (rd : Worker.round) (last : option Z)
    (m : Worker.message) (task : Worker.TaskWrapper) :
  WorkerSpec.dispatched self rd m task ->
  let sub := Worker.execute_using_pool task (Worker.msg_tag m)
               (Worker.pool_raises rd) (Worker.loglevel self)
               (Worker.logfile self) [] in
  let out := Worker.run_turn self rd last [] in
  (forall r, sub.1 = Ok r ->
     WorkerSpec.acked_right_after_submit task m out.2 /\
     (Worker.msg_ack m = None -> Worker.results_add_raises rd = None ->
      out.1 = Ok last)) /\
  (forall e, sub.1 = Raise e ->
     WorkerSpec.left_unsettled m out.2 /\
     (is_Exception (exn_cls e) = true -> WorkerSpec.logger_returns rd ->
      out.1 = Ok last) /\
     (is_Exception (exn_cls e) = false -> out.1 = Raise e)).
Proof.
  intros [(names & pev & Hperiodic) (fev & Hfetch)] sub out.
  destruct (run_turn_dispatched self rd last m task names pev fev
              Hperiodic Hfetch) as (post & Hpost & Hturn).
  pose proof (run_periodic_tasks_quiet rd) as Hp.
  rewrite Hperiodic in Hp. simpl in Hp.
  destruct (fetch_next_task_ok self rd task m fev Hfetch)
    as (_ & _ & _ & ->).
  pose proof (execute_using_pool_log task (Worker.msg_tag m)
                (Worker.pool_raises rd) (Worker.loglevel self)
                (Worker.logfile self)) as Hlog.
  fold sub in Hlog, Hturn. fold out in Hturn.
  destruct sub as [[r|e] sev]; simpl in *; split.
  - intros r' _. destruct Hturn as [Hout Hcont]. split; [|exact Hcont].
    destruct Hlog as (_ & kw & ->). rewrite Hout.
    exists (pev ++ [Worker.EFetch;
                    Worker.EInfo (Worker.GotTaskFromBroker
                                    (Worker.task_name task)
                                    (Worker.task_id task))]), kw, post.
    split; [by rewrite <- app_assoc|]. split.
    + apply without_ack, without_app;
        [by apply without_settles_ack|by repeat constructor].
    + by apply without_ack, without_settles_ack.
  - intros e' [=].
  - intros r' [=].
  - intros e' [= <-]. destruct Hturn as (Hout & Hescape & Hcont).
    split; [|by split]. rewrite Hout.
    assert (Hsev : WorkerRunSpec.without WorkerRunSpec.is_ack sev /\
                   WorkerRunSpec.without WorkerRunSpec.is_reject sev).
    { destruct Hlog as [->|(kw & ->)]; split; by repeat constructor. }
    destruct Hsev as [Hack Hrej]. split.
    + apply without_ack.
      apply without_app; [by apply without_settles_ack|].
      do 2 (apply Forall_cons; split; [done|]).
      apply without_app; [done|by apply without_settles_ack].
    + apply without_reject.
      apply without_app; [by apply without_settles_reject|].
      do 2 (apply Forall_cons; split; [done|]).
      apply without_app; [done|by apply without_settles_reject].
Qed.

(** C1 (amended): a dispatched message is acknowledged as the very next call
    after [pool.apply_async] has returned, and at no other point of the
    turn.  When the submission raises, the turn neither acknowledges nor
    rejects the message; the loop goes on to its next turn if the exception
    is an instance of [Exception] and the logger writes its records without
    raising, while any other exception ([SystemExit], [KeyboardInterrupt])
    leaves the loop.  Over any number of turns, whatever the collaborators
    answer, every acknowledgement directly follows a submission of the same
    message that returned. *)
Theorem ack_only_after_submission
    (self : Worker.TaskDaemon) (rd : Worker.round) (last : option Z)
    (m : Worker.message) (task : Worker.TaskWrapper) :
  WorkerSpec.dispatched self rd m task ->
  let sub := Worker.execute_using_pool task (Worker.msg_tag m)
               (Worker.pool_raises rd) (Worker.loglevel self)
               (Worker.logfile self) [] in
  let out := Worker.run_turn self rd last [] in
  (forall r, sub.1 = Ok r ->
     WorkerSpec.acked_right_after_submit task m out.2) /\
  (forall e, sub.1 = Raise e ->
     WorkerSpec.left_unsettled m out.2 /\
     (is_Exception (exn_cls e) = true -> WorkerSpec.logger_returns rd ->
      out.1 = Ok last) /\
     (is_Exception (exn_cls e) = false -> out.1 = Raise e)) /\
  (forall rounds,
     WorkerRunSpec.acks_follow_submits (Worker.run self rounds []).2).
Proof.
  intros Hd sub out.
  destruct (dispatched_turn self rd last m task Hd) as [Hok Hraise].
  split; [intros r Hr; apply (Hok r Hr)|]. split; [exact Hraise|].
  intros rounds. apply run_acks_follow_submits.
Qed.

Lemma example_dispatched (rd : Worker.round) :
  Worker.waiting_tasks rd = Ok [] ->
  Worker.fetched rd = Ok (Some WorkerExample.message) ->
  Worker.logger_raises rd
    (Worker.GotTaskFromBroker (PStr "add") (PStr "7f3a")) = None ->
  WorkerSpec.dispatched WorkerExample.daemon rd WorkerExample.message
    WorkerExample.task.
Proof.
  intros Hwaiting Hfetched Hinfo. split.
  - exists [], []. unfold Worker.run_periodic_tasks. by rewrite Hwaiting.
  - eexists. rewrite fetch_next_task_run, Hfetched.
    assert (Hread : Worker.from_message (Worker.tasks WorkerExample.daemon)
                      WorkerExample.message [] = (Ok WorkerExample.task, []))
      by (vm_compute; reflexivity).
    rewrite Hread. simpl. change (Worker.task_name WorkerExample.task)
      with (PStr "add"). change (Worker.task_id WorkerExample.task)
      with (PStr "7f3a"). by rewrite Hinfo.
Qed.

Lemma ack_only_after_submission_witness :
  WorkerSpec.acked_right_after_submit WorkerExample.task WorkerExample.message
    (Worker.run_turn WorkerExample.daemon WorkerExample.round_ok None []).2
  /\ WorkerSpec.left_unsettled WorkerExample.message
    (Worker.run_turn WorkerExample.daemon WorkerExample.round_pool_error None []).2
  /\ (Worker.run_turn WorkerExample.daemon WorkerExample.round_pool_error None []).1
     = Ok None.
Proof.
  split; [|split].
  - apply (ack_only_after_submission WorkerExample.daemon
             WorkerExample.round_ok None WorkerExample.message
             WorkerExample.task
             (example_dispatched WorkerExample.round_ok eq_refl eq_refl
                eq_refl))
      with (r := Worker.AsyncResult 7).
    vm_compute; reflexivity.
  - apply (ack_only_after_submission WorkerExample.daemon
             WorkerExample.round_pool_error None WorkerExample.message
             WorkerExample.task
             (example_dispatched WorkerExample.round_pool_error eq_refl
                eq_refl eq_refl))
      with (e := Exn (OtherException "AssertionError") []).
    vm_compute; reflexivity.
  - apply (ack_only_after_submission WorkerExample.daemon
             WorkerExample.round_pool_error None WorkerExample.message
             WorkerExample.task
             (example_dispatched WorkerExample.round_pool_error eq_refl
                eq_refl eq_refl))
      with (e := Exn (OtherException "AssertionError") []).
    + vm_compute; reflexivity.
    + reflexivity.
    + intros record. reflexivity.
Defined.

(** C1 (as stated) fails when the submission is interrupted: the message is
    dispatched, [pool.apply_async] raises [KeyboardInterrupt], no clause of
    [execute_next_task] or of [run] catches it, and the loop is left.  It
    fails as well when the pool raises an [Exception] that the logger
    cannot record: the exception of the logger leaves the clause of
    [execute_next_task], is caught by the last clause of [run], whose own
    logging raises again, outside every [try]. *)
Lemma interrupted_submission_leaves_loop :
  ~ WorkerSpec.submission_step_for_every_exception WorkerExample.daemon
      WorkerExample.round_interrupted None WorkerExample.message
      WorkerExample.task /\
  ~ WorkerSpec.submission_step_for_every_exception WorkerExample.daemon
      WorkerExample.round_logger_broken None WorkerExample.message
      WorkerExample.task.
Proof.
  split; intros H.
  - destruct (H (example_dispatched WorkerExample.round_interrupted eq_refl
                   eq_refl eq_refl)) as [_ Hraise].
    destruct (Hraise (Exn KeyboardInterrupt [])
                ltac:(vm_compute; reflexivity)) as [_ [last' Hlast]].
    vm_compute in Hlast. discriminate Hlast.
  - destruct (H (example_dispatched WorkerExample.round_logger_broken eq_refl
                   eq_refl eq_refl)) as [_ Hraise].
    destruct (Hraise (Exn (OtherException "AssertionError") [])
                ltac:(vm_compute; reflexivity)) as [_ [last' Hlast]].
    vm_compute in Hlast. discriminate Hlast.
Qed.

(** Whatever the daemon is configured with, the kwargs of a submission hold
    the first argument of [execute_using_pool] after the pool, the loglevel,
    under ["logfile"] and the second, the logfile, under ["loglevel"], below
    the task's own kwargs. *)
Lemma execute_using_pool_kwargs (task : Worker.TaskWrapper) (tag : nat)
    (loglevel logfile : pyval) (kw : gmap string pyval) :
  Worker.kwargs task = PDict kw ->
  Worker.execute_using_pool task tag None loglevel logfile [] =
    (Ok (Worker.AsyncResult tag),
     [Worker.ESubmit tag (Worker.task_func task) (Worker.args task)
        (Worker.mkKwdict
           (kw ∪ <["logfile" := loglevel]> (<["loglevel" := logfile]> ∅)) [])
        true]).
Proof.
  intros Hkw. unfold Worker.execute_using_pool,
    Worker.extend_kwargs_with_logging, Worker.update.
  by rewrite Hkw.
Qed.

(** C9: a daemon configured with loglevel [40] and logfile ["celery.log"]
    dispatches a task whose own kwargs are empty; the kwargs handed to
    [pool.apply_async] hold the loglevel under ["logfile"] and the logfile
    under ["loglevel"]. *)
Theorem dispatch_swaps_logging_context :
  Worker.loglevel WorkerExample.daemon = PInt 40 /\
  Worker.logfile WorkerExample.daemon = PStr "celery.log" /\
  Worker.execute_next_task WorkerExample.daemon WorkerExample.round_ok [] =
    (Ok (Some (Worker.AsyncResult 7, PStr "add", PStr "7f3a")),
     [Worker.EFetch;
      Worker.EInfo (Worker.GotTaskFromBroker (PStr "add") (PStr "7f3a"));
      Worker.ESubmit 7 WorkerExample.add (PList [PInt 2; PInt 3])
        (Worker.mkKwdict
           (<["logfile" := PInt 40]> (<["loglevel" := PStr "celery.log"]> ∅))
           [])
        true;
      Worker.EAck 7]).
Proof. repeat split; vm_compute; reflexivity. Qed.

(** ** The process pool's completion hooks *)

Section PoolCallbacks.
Import Pool.

Lemma calls_app (l1 l2 : list event) : calls (l1 ++ l2) = calls l1 ++ calls l2.
Proof. unfold calls. apply omap_app. Qed.

(** One guarded application: the callback is applied once, and the
    application returns whatever the callback does. *)
Lemma safe_apply_callback_once (f : callback) (arg : ret_value) tr :
  exists log,
    safe_apply_callback f arg tr = (Ok tt, tr ++ log) /\
    calls log = [(f, arg)].
Proof.
  unfold safe_apply_callback, try_except, call.
  cbv [mbind eff_bind mret eff_ret emit raise].
  destruct (cb_call f arg) as [e|].
  - exists [ECall f arg; ELogError e]. split; [|reflexivity].
    by rewrite <- app_assoc.
  - exists [ECall f arg]. split; reflexivity.
Qed.

(** A list of callbacks applied under the guard: every one is applied, once,
    in order, and nothing is raised. *)
Lemma for_each_safe (fs : list callback) (arg : ret_value) : forall tr,
  exists log,
    for_each (fun f => safe_apply_callback f arg) fs tr = (Ok tt, tr ++ log) /\
    calls log = map (fun f => (f, arg)) fs.
Proof.
  induction fs as [|f fs IH]; intros tr; simpl.
  - exists []. by rewrite app_nil_r.
  - destruct (safe_apply_callback_once f arg tr) as (log1 & H1 & Hc1).
    destruct (IH (tr ++ log1)) as (log2 & H2 & Hc2).
    exists (log1 ++ log2). split.
    + cbv [mbind eff_bind]. rewrite H1, H2. by rewrite app_assoc.
    + by rewrite calls_app, Hc1, Hc2.
Qed.

End PoolCallbacks.

(** What [on_ready] does with a collected return value: it applies every
    member of exactly one of the two callback lists, once and in order, and
    nothing of the other list: the success callbacks for a plain value, the
    failure callbacks for an exception info; except that an exception info
    holding [SystemExit] or [KeyboardInterrupt] is raised again and no
    callback at all is applied. *)
Lemma on_ready_fires_one_list
    (callbacks errbacks : list Pool.callback) (ret_value : Pool.ret_value) :
  let out := Pool.on_ready callbacks errbacks ret_value [] in
  match ret_value with
  | Pool.Value _ =>
      out.1 = Ok tt /\
      Pool.calls out.2 = map (fun f => (f, ret_value)) callbacks
  | Pool.Einfo einfo =>
      match exn_cls (Pool.exception einfo) with
      | SystemExit | KeyboardInterrupt =>
          out = (Raise (Pool.exception einfo), [])
      | _ =>
          out.1 = Ok tt /\
          Pool.calls out.2 = map (fun f => (f, ret_value)) errbacks
      end
  end.
Proof.
  unfold Pool.on_ready, Pool.is_fatal. destruct ret_value as [v|einfo]; simpl.
  - destruct (for_each_safe callbacks (Pool.Value v) []) as (log & -> & Hc).
    by split.
  - destruct (for_each_safe errbacks (Pool.Einfo einfo) []) as (log & Hrun & Hc).
    destruct (exn_cls (Pool.exception einfo)); simpl;
      first [ reflexivity | rewrite Hrun; by split ].
Qed.

(** C2: a work item is handed to the pool with one success callback and one
    failure callback, and the worker's exception is [SystemExit], or
    [KeyboardInterrupt].  On the result path, [on_ready], the exception is
    raised again and no callback is applied.  On the error path,
    [on_worker_error], the hook the same work item registers as
    [error_callback], nothing is raised and the failure callback is applied
    to the exception. *)
Theorem on_worker_error_hands_fatal_exception_to_errbacks :
  let exit := Exn SystemExit [] in
  let interrupt := Exn KeyboardInterrupt [] in
  let info := fun exc => Pool.Einfo (Pool.mkExceptionInfo exc None) in
  Pool.callback_hook PoolExample.item (info exit) [] = (Raise exit, []) /\
  Pool.callback_hook PoolExample.item (info interrupt) [] =
    (Raise interrupt, []) /\
  Pool.error_callback_hook PoolExample.item exit [] =
    (Ok tt, [Pool.ECall PoolExample.recording (info exit)]) /\
  Pool.error_callback_hook PoolExample.item interrupt [] =
    (Ok tt, [Pool.ECall PoolExample.recording (info interrupt)]).
Proof. repeat split. Qed.

(** C3: [on_worker_error] is handed an ordinary worker-side exception and two
    failure callbacks, the first of which raises: the exception of the
    callback leaves [on_worker_error], and the second callback is never
    applied.  On the [on_ready] path the same two callbacks are both applied
    and the exception is logged. *)
Theorem on_worker_error_lets_callback_exception_out :
  let einfo := Pool.Einfo (Pool.mkExceptionInfo PoolExample.worker_error None) in
  Pool.is_fatal PoolExample.worker_error = false /\
  Pool.on_worker_error [PoolExample.failing; PoolExample.recording]
      PoolExample.worker_error [] =
    (Raise (Exn (OtherException "RuntimeError") []),
     [Pool.ECall PoolExample.failing einfo]) /\
  Pool.on_ready [] [PoolExample.failing; PoolExample.recording] einfo [] =
    (Ok tt,
     [Pool.ECall PoolExample.failing einfo;
      Pool.ELogError (Exn (OtherException "RuntimeError") []);
      Pool.ECall PoolExample.recording einfo]).
Proof. repeat split. Qed.

(** ** The consumer set's receive callback *)

(** C8 (amended): when [message.decode()] raises an instance of
    [Exception], a registered decode-error callback is called with the
    message and the exception, its outcome is the outcome of the receive
    callback and the receive handler is not called; with no callback
    registered the exception propagates.  A [decode] that raises outside
    [Exception] propagates in both cases, no callback called.  A decoded body
    is forwarded, with the message, to the receive handler. *)
Theorem receive_callback_decode_handling
    (self : Consumer.ConsumerSet) (raw_message : Consumer.raw_message) :
  let message := Consumer.delivered self raw_message in
  let acks := Consumer.auto_acks self raw_message in
  let out := Consumer._receive_callback self raw_message [] in
  (forall exc, Consumer.decode message = Raise exc ->
     is_Exception (exn_cls exc) = true ->
     (forall callback, Consumer.on_decode_error self = Some callback ->
        out = (callback message exc,
               acks ++ [Consumer.EDecodeError message exc])) /\
     (Consumer.on_decode_error self = None -> out = (Raise exc, acks))) /\
  (forall exc, Consumer.decode message = Raise exc ->
     is_Exception (exn_cls exc) = false -> out = (Raise exc, acks)) /\
  (forall decoded, Consumer.decode message = Ok decoded ->
     out = (match Consumer.receive self decoded message with
            | Some e => Raise e
            | None => Ok PNone
            end,
            acks ++ [Consumer.EReceive decoded message])).
Proof.
  unfold Consumer._receive_callback, Consumer.delivered, Consumer.auto_acks.
  cbv [mbind eff_bind mret eff_ret emit lift raise try_except].
  destruct (Consumer.auto_ack self &&
            negb (Consumer.acknowledged
                    (Consumer.message_to_python self raw_message)));
    simpl; (split; [|split]).
  1, 4: intros exc -> Hexc; rewrite Hexc; simpl; split;
    [ intros callback ->; simpl; destruct (callback _ exc); reflexivity
    | intros ->; reflexivity ].
  1, 3: intros exc -> Hexc; rewrite Hexc; reflexivity.
  all: intros decoded ->; simpl;
    match goal with
    | |- context [Consumer.receive ?s ?d ?m] =>
        destruct (Consumer.receive s d m)
    end; reflexivity.
Qed.

Lemma receive_callback_decode_handling_witness :
  let exc := Exn ValueError [PStr "No JSON object could be decoded"] in
  let message := Consumer.mkMessage ConsumerExample.raw1 true (Raise exc) in
  Consumer._receive_callback ConsumerExample.with_callback
      ConsumerExample.raw1 [] =
    (Ok PNone, [Consumer.EAck 1; Consumer.EDecodeError message exc]) /\
  Consumer._receive_callback ConsumerExample.without_callback
      ConsumerExample.raw1 [] =
    (Raise exc, [Consumer.EAck 1]).
Proof.
  intros exc message. split.
  - destruct (receive_callback_decode_handling ConsumerExample.with_callback
                ConsumerExample.raw1) as [H _].
    destruct (H exc eq_refl eq_refl) as [Hcallback _].
    exact (Hcallback ConsumerExample.log_and_drop eq_refl).
  - destruct (receive_callback_decode_handling
                ConsumerExample.without_callback ConsumerExample.raw1)
      as [H _].
    destruct (H exc eq_refl eq_refl) as [_ Hnone].
    exact (Hnone eq_refl).
Defined.

(** C8 (as stated) fails for a body whose decoding raises [SystemExit]: a
    decode-error callback is registered, yet [except Exception] does not
    catch the exception, the callback is not called and the exception
    propagates. *)
Lemma decode_exit_skips_callback :
  ~ Consumer.decode_failure_for_every_exception ConsumerExample.with_callback
      ConsumerExample.raw2.
Proof.
  intros H.
  destruct (H (Exn SystemExit []) eq_refl) as [Hcallback _].
  specialize (Hcallback ConsumerExample.log_and_drop eq_refl).
  vm_compute in Hcallback. discriminate Hcallback.
Qed.

(** ** The declared-exchange set *)

Section DeclaredExchanges.
Import Amqp Declared.

Lemma broker_declared_app x l1 l2 :
  broker_declared x (l1 ++ l2) = (broker_declared x l1 + broker_declared x l2)%nat.
Proof. unfold broker_declared. by rewrite List.filter_app, length_app. Qed.

Lemma broker_declares_app x l1 l2 :
  broker_declares x (l1 ++ l2) = (broker_declares x l1 + broker_declares x l2)%nat.
Proof. unfold broker_declares. by rewrite List.filter_app, length_app. Qed.

(** What one invocation does to the state. *)
Lemma step_cases (st : state) (inv : invocation) :
  ((inv_exchange inv ∈ st.1) /\ step st inv = st) \/
  ((inv_exchange inv ∉ st.1) /\
   exists ok : bool,
     step st inv =
       ((if ok then {[ inv_exchange inv ]} ∪ st.1 else st.1),
        st.2 ++ [EDeclare (PStr (inv_exchange inv)) ok])).
Proof.
  unfold step, declare. destruct st as [declared log]; simpl.
  case_bool_decide as Hin.
  - right. split; [done|].
    destruct (inv_broker_raises inv) as [e|].
    + by exists false.
    + by exists true.
  - left. split; [|done].
    destruct (decide (inv_exchange inv ∈ declared)); [done|contradiction].
Qed.

Lemma declared_inv_step (st : state) (inv : invocation) :
  declared_inv st -> declared_inv (step st inv).
Proof.
  intros Hinv.
  destruct (step_cases st inv) as [[_ ->]|(Hnotin & ok & ->)]; [done|].
  set (y := inv_exchange inv) in *.
  intros x. destruct (Hinv x) as (Hset & Hle & Hafter). simpl.
  rewrite broker_declared_app. simpl.
  assert (Hlast : broker_declared x [EDeclare (PStr y) ok] =
                  if ok && String.eqb x y then 1%nat else 0%nat).
  { unfold broker_declared. simpl.
    destruct ok; simpl; [|done]. by destruct (String.eqb x y). }
  rewrite Hlast.
  destruct (String.eqb_spec x y) as [->|Hne].
  - assert (H0 : broker_declared y st.2 = 0%nat).
    { destruct (Hinv y) as (Hs & Hl & _).
      destruct (broker_declared y st.2) as [|[|n]]; [done| |lia].
      exfalso. apply Hnotin, Hs. reflexivity. }
    rewrite H0. split; [|split].
    + destruct ok; simpl; [set_solver|]. split; [done|discriminate].
    + destruct ok; simpl; lia.
    + intros pre post Heq.
      destruct post as [|ev post _] using rev_ind; [reflexivity|].
      exfalso.
      rewrite app_comm_cons, app_assoc in Heq.
      apply app_inj_tail in Heq as [Heq _].
      assert (Hc : broker_declared y st.2 = 0%nat) by exact H0.
      rewrite Heq, broker_declared_app in Hc.
      unfold broker_declared at 2 in Hc. simpl in Hc.
      rewrite String.eqb_refl in Hc. simpl in Hc. lia.
  - rewrite andb_false_r, Nat.add_0_r. split; [|split].
    + rewrite <- Hset. destruct ok; [|done]. set_solver.
    + exact Hle.
    + intros pre post Heq.
      destruct post as [|ev post _] using rev_ind.
      * apply app_inj_tail in Heq as [_ [= Hxy _]]. congruence.
      * rewrite app_comm_cons, app_assoc in Heq.
        apply app_inj_tail in Heq as [Heq <-].
        rewrite broker_declares_app, (Hafter pre post Heq).
        unfold broker_declares. simpl.
        destruct (String.eqb_spec x y); [congruence|reflexivity].
Qed.

Lemma declared_inv_fold (invs : list invocation) : forall st,
  declared_inv st -> declared_inv (fold_left step invs st).
Proof.
  induction invs as [|inv invs IH]; intros st Hst; simpl; [done|].
  apply IH, declared_inv_step, Hst.
Qed.

Lemma declared_inv_start : declared_inv (∅, []).
Proof.
  intros x. simpl. split; [|split].
  - split; [set_solver|discriminate].
  - unfold broker_declared. simpl. lia.
  - intros pre post Heq. by destruct pre.
Qed.

(** An exchange in the set stays in it. *)
Lemma step_keeps (st : state) (inv : invocation) : st.1 ⊆ (step st inv).1.
Proof.
  destruct (step_cases st inv) as [[_ ->]|(_ & ok & ->)]; [done|].
  destruct ok; simpl; set_solver.
Qed.

Lemma fold_keeps (invs : list invocation) : forall st,
  st.1 ⊆ (fold_left step invs st).1.
Proof.
  induction invs as [|inv invs IH]; intros st; simpl; [done|].
  etrans; [apply (step_keeps st inv)|apply IH].
Qed.

End DeclaredExchanges.

(** C7 (amended): over any sequence of [declare()] invocations in one
    process, at most one broker-level declare call for an exchange ever
    returns, and none is issued after it; the exchange is in the set exactly
    when such a call has returned, it is never removed by later invocations,
    and once it is in the set every [declare()] for it is skipped.  (A call
    that raises leaves the set unchanged, so the next invocation asks the
    broker again.) *)
Theorem declare_memoized_after_success
    (invs more : list Declared.invocation) (x : string)
    (broker_raises : option exn) :
  let st := Declared.process invs in
  (Declared.broker_declared x st.2 <= 1)%nat /\
  Declared.none_after_success x st.2 /\
  (x ∈ st.1 <-> Declared.broker_declared x st.2 = 1%nat) /\
  (x ∈ st.1 -> x ∈ (Declared.process (invs ++ more)).1) /\
  (x ∈ st.1 ->
   Declared.step st (Declared.mkInvocation x broker_raises) = st).
Proof.
  intros st.
  destruct (declared_inv_fold invs (∅, []) declared_inv_start x)
    as (Hset & Hle & Hafter).
  repeat split.
  - exact Hle.
  - exact Hafter.
  - apply Hset.
  - apply Hset.
  - intros Hin. unfold Declared.process. rewrite fold_left_app.
    by apply (fold_keeps more (fold_left Declared.step invs (∅, []))).
  - intros Hin.
    destruct (step_cases st (Declared.mkInvocation x broker_raises))
      as [[_ Heq]|[Hnotin _]]; [exact Heq|].
    by destruct Hnotin.
Qed.

Lemma declare_memoized_after_success_witness :
  let st := Declared.process DeclaredExample.retried in
  "celery" ∈ st.1 /\
  Declared.broker_declared "celery" st.2 = 1%nat /\
  "celery" ∈ (Declared.process
                (DeclaredExample.retried ++ DeclaredExample.retried)).1.
Proof.
  intros st.
  assert (Hin : "celery" ∈ st.1) by (vm_compute; set_solver).
  split; [exact Hin|]. split.
  - apply (declare_memoized_after_success DeclaredExample.retried []
             "celery" None). exact Hin.
  - apply (declare_memoized_after_success DeclaredExample.retried
             DeclaredExample.retried "celery" None). exact Hin.
Defined.

(** C7 (as stated) fails when the first broker-level declare raises: the
    exchange is not added to the set, and the next [declare()] issues a
    second broker-level declare call for it. *)
Lemma failed_declare_is_issued_again :
  ~ Declared.at_most_one_declare_issued DeclaredExample.retried "celery".
Proof.
  unfold Declared.at_most_one_declare_issued.
  vm_compute. lia.
Qed.

(** ** Publishing a task *)

Section Publish.
Import Amqp.

Lemma truthy_int_value (v : pyval) (z : Z) :
  int_value v = Some z -> z <> 0 -> truthy v = true.
Proof.
  destruct v; simpl; try discriminate.
  - destruct b; intros [= <-]; congruence.
  - intros [= <-] Hz. by apply negb_true_iff, Z.eqb_neq.
Qed.

Lemma integer_value_int (v : pyval) (z : Z) :
  int_value v = Some z -> integer_value v = Some z.
Proof. by destruct v. Qed.

(** A whole number of seconds is counted exactly. *)
Lemma timedelta_seconds_integer of_float (v : pyval) (z : Z) :
  integer_value v = Some z ->
  timedelta_seconds of_float v = Ok (z * 1000000) \/
  exists e, timedelta_seconds of_float v = Raise e.
Proof.
  unfold timedelta_seconds. intros ->.
  destruct (_ && _); eauto.
Qed.

Lemma timedelta_seconds_int of_float (v : pyval) (z : Z) :
  int_value v = Some z ->
  timedelta_seconds of_float v = Ok (z * 1000000) \/
  exists e, timedelta_seconds of_float v = Raise e.
Proof.
  intros Hv. by apply timedelta_seconds_integer, integer_value_int.
Qed.

Lemma datetime_add_cases (d delta : Z) :
  datetime_add d delta = Ok (d + delta) \/
  exists e, datetime_add d delta = Raise e.
Proof. unfold datetime_add. destruct (_ && _); eauto. Qed.

(** A countdown that counts takes one reading of the clock, whatever
    becomes of the conversion, and the eta is that reading plus the
    countdown. *)
Lemma resolve_countdown_truthy (c : delay_call) (w : surroundings) :
  truthy (countdown c) = true ->
  (exists delta,
     timedelta_seconds (float_seconds w) (countdown c) = Ok delta /\
     resolve_countdown c w [] =
       (Ok (Some (clock w 0), PDatetime (clock w 0 + delta)),
        [ENow (clock w 0)])) \/
  exists e, resolve_countdown c w [] = (Raise e, [ENow (clock w 0)]).
Proof.
  intros Hcd. unfold resolve_countdown. rewrite Hcd.
  cbv [mbind eff_bind mret eff_ret lift datetime_now]. simpl.
  destruct (timedelta_seconds (float_seconds w) (countdown c))
    as [delta|e]; [|eauto].
  destruct (datetime_add_cases (clock w 0) delta) as [->|[e ->]]; eauto.
Qed.

(** The checks call nothing. *)
Lemma validate_log (task_args task_kwargs : pyval) (log : list event) :
  (validate task_args task_kwargs log).2 = log.
Proof.
  unfold validate. cbv [mbind eff_bind mret eff_ret raise].
  destruct (is_sequence task_args); [|reflexivity].
  destruct (is_dict task_kwargs); reflexivity.
Qed.

(** With a snapshot at hand the clock is not read again, and an integer
    [expires] is counted from the snapshot. *)
Lemma resolve_expires_snapshot (c : delay_call) (w : surroundings)
    (now : Z) (log : list event) :
  (resolve_expires c w (Some now) log).2 = log /\
  forall n v,
    int_value (expires c) = Some n ->
    (resolve_expires c w (Some now) log).1 = Ok v ->
    v = PDatetime (now + n * 1000000).
Proof.
  unfold resolve_expires. cbv [mbind eff_bind mret eff_ret lift].
  destruct (int_value (expires c)) as [n|] eqn:Hn; simpl.
  - destruct (timedelta_seconds_int (float_seconds w) _ _ Hn)
      as [->|[e ->]]; simpl.
    + destruct (datetime_add_cases now (n * 1000000)) as [->|[e ->]]; simpl.
      * split; [reflexivity|]. by intros n' v [= <-] [= <-].
      * split; [reflexivity|]. intros n' v _ [=].
    + split; [reflexivity|]. intros n' v _ [=].
  - split; [reflexivity|]. intros n' v [=].
Qed.

Lemma envelopes_app (l1 l2 : list event) :
  envelopes (l1 ++ l2) = envelopes l1 ++ envelopes l2.
Proof. apply omap_app. Qed.

Lemma readings_app (l1 l2 : list event) :
  readings (l1 ++ l2) = readings l1 ++ readings l2.
Proof. apply omap_app. Qed.

(** Sending hands exactly the given envelope over, and does not read the
    clock. *)
Lemma send_and_signal_log (self : TaskPublisher) (c : delay_call)
    (w : surroundings) (md : gmap string pyval) (log : list event) :
  envelopes (send_and_signal self c w md log).2 = envelopes log ++ [md] /\
  readings (send_and_signal self c w md log).2 = readings log.
Proof.
  unfold send_and_signal. cbv [mbind eff_bind mret eff_ret emit raise].
  destruct (send_raises w); simpl;
    rewrite ?envelopes_app, ?readings_app; simpl;
    rewrite ?app_nil_r; by rewrite <- ?app_assoc.
Qed.

Lemma message_data_eta (c : delay_call) (i a k e x : pyval) :
  message_data_of c i a k e x !! "eta" = Some e.
Proof.
  unfold message_data_of. destruct (truthy (taskset_id c));
    by simplify_map_eq.
Qed.

Lemma message_data_expires (c : delay_call) (i a k e x : pyval) :
  message_data_of c i a k e x !! "expires" = Some x.
Proof.
  unfold message_data_of. destruct (truthy (taskset_id c));
    by simplify_map_eq.
Qed.

(** A call with a countdown that counts: one reading of the clock, however
    the call ends, and the eta and the expiry of every envelope counted
    from it. *)
Lemma delay_task_countdown (self : TaskPublisher) (c : delay_call)
    (w : surroundings) :
  truthy (countdown c) = true ->
  let out := delay_task self c w [] in
  let now := clock w 0 in
  readings out.2 = [now] /\
  forall md, md ∈ envelopes out.2 ->
    exists delta,
      timedelta_seconds (float_seconds w) (countdown c) = Ok delta /\
      md !! "eta" = Some (PIso (now + delta)) /\
      forall n, int_value (expires c) = Some n ->
        md !! "expires" = Some (PIso (now + n * 1000000)).
Proof.
  intros Hcd. unfold delay_task. cbv [mbind eff_bind].
  destruct (resolve_countdown_truthy c w Hcd) as [(delta & Hdelta & ->)|[e ->]];
    [|split; [reflexivity|by intros md ?%elem_of_nil]].
  set (t := clock w 0).
  match goal with
  | |- context [validate ?a ?k ?l] =>
      pose proof (validate_log a k l) as Hv;
      destruct (validate a k l) as [[[]|e] log1]
  end; simpl in Hv; subst log1;
    [|split; [reflexivity|by intros md ?%elem_of_nil]].
  destruct (resolve_expires_snapshot c w t [ENow t]) as [Hlog Hval].
  destruct (resolve_expires c w (Some t) [ENow t])
    as [[v|e] log2]; simpl in Hlog, Hval; subst log2;
    [|split; [reflexivity|by intros md ?%elem_of_nil]].
  cbv [lift]. simpl.
  destruct (and_isoformat v) as [x|e] eqn:Hx;
    [|split; [reflexivity|by intros md ?%elem_of_nil]].
  match goal with
  | |- context [send_and_signal ?s ?c ?w ?m ?l] =>
      destruct (send_and_signal_log s c w m l) as [Henv Hread];
      destruct (send_and_signal s c w m l) as [[[]|e] log3]
  end; simpl in Henv, Hread |- *; rewrite Henv, Hread;
    (split; [reflexivity|]); intros md ->%list_elem_of_singleton;
    exists delta; (split; [exact Hdelta|]);
    (split; [apply message_data_eta|]);
    intros n Hn; rewrite message_data_expires; f_equal;
    specialize (Hval n v Hn eq_refl); subst v;
    simpl in Hx; by injection Hx as <-.
Qed.

End Publish.

(** C5 (amended): a publish call with a countdown that counts, any number
    but zero, reads the clock once, however the call ends; every envelope
    it hands to the broker has, as [eta], the ISO text of that reading plus
    [timedelta(seconds=countdown)], which for a whole number of seconds is
    that many seconds exactly; and, when [expires] is an integer, it has as
    [expires] the ISO text of the same reading plus that many seconds. *)
Theorem countdown_eta_from_one_snapshot
    (self : Amqp.TaskPublisher) (c : Amqp.delay_call) (w : Amqp.surroundings) :
  truthy (Amqp.countdown c) = true ->
  let out := Amqp.delay_task self c w [] in
  let now := Amqp.clock w 0 in
  Amqp.readings out.2 = [now] /\
  (forall md, md ∈ Amqp.envelopes out.2 ->
     exists delta,
       Amqp.timedelta_seconds (Amqp.float_seconds w) (Amqp.countdown c)
         = Ok delta /\
       md !! "eta" = Some (PIso (now + delta)) /\
       forall n, Amqp.int_value (Amqp.expires c) = Some n ->
         md !! "expires" = Some (PIso (now + n * 1000000))) /\
  (forall secs delta,
     Amqp.integer_value (Amqp.countdown c) = Some secs ->
     Amqp.timedelta_seconds (Amqp.float_seconds w) (Amqp.countdown c)
       = Ok delta ->
     delta = secs * 1000000) /\
  (forall f,
     Amqp.countdown c = PFloat f ->
     Amqp.timedelta_seconds (Amqp.float_seconds w) (Amqp.countdown c)
       = Amqp.float_seconds w f).
Proof.
  intros Hcd out now.
  destruct (delay_task_countdown self c w Hcd) as [Hread Henv].
  split; [exact Hread|]. split; [exact Henv|]. split.
  - intros secs delta Hsecs Hdelta.
    destruct (timedelta_seconds_integer (Amqp.float_seconds w) _ _ Hsecs)
      as [H|[e H]]; congruence.
  - intros f ->. reflexivity.
Qed.

Lemma countdown_eta_from_one_snapshot_witness :
  (let log := (Amqp.delay_task PublishExample.publisher
                 PublishExample.call_ten PublishExample.surroundings []).2 in
   exists md,
     Amqp.envelopes log = [md] /\
     Amqp.readings log = [63400000000000000] /\
     md !! "eta" = Some (PIso (63400000000000000 + 10 * 1000000)) /\
     md !! "expires" = Some (PIso (63400000000000000 + 60 * 1000000))) /\
  (let log := (Amqp.delay_task PublishExample.publisher
                 PublishExample.call_float PublishExample.surroundings []).2 in
   exists md,
     Amqp.envelopes log = [md] /\
     Amqp.readings log = [63400000000000000] /\
     md !! "eta" = Some (PIso (63400000000000000 + 1500000))).
Proof.
  split; intros log.
  - assert (Henv : exists md, Amqp.envelopes log = [md])
      by (vm_compute; eauto).
    destruct Henv as [md Henv]. exists md. split; [exact Henv|].
    assert (Hin : md ∈ Amqp.envelopes log)
      by (rewrite Henv; apply list_elem_of_singleton; reflexivity).
    destruct (countdown_eta_from_one_snapshot PublishExample.publisher
                PublishExample.call_ten PublishExample.surroundings eq_refl)
      as (Hread & Hmd & Hint & _).
    split; [exact Hread|].
    destruct (Hmd md Hin) as (delta & Hdelta & Heta & Hexp).
    rewrite (Hint 10 delta eq_refl Hdelta) in Heta.
    split; [exact Heta|]. exact (Hexp 60 eq_refl).
  - assert (Henv : exists md, Amqp.envelopes log = [md])
      by (vm_compute; eauto).
    destruct Henv as [md Henv]. exists md. split; [exact Henv|].
    assert (Hin : md ∈ Amqp.envelopes log)
      by (rewrite Henv; apply list_elem_of_singleton; reflexivity).
    destruct (countdown_eta_from_one_snapshot PublishExample.publisher
                PublishExample.call_float PublishExample.surroundings eq_refl)
      as (Hread & Hmd & _ & Hfloat).
    split; [exact Hread|].
    destruct (Hmd md Hin) as (delta & Hdelta & Heta & _).
    rewrite (Hfloat _ eq_refl) in Hdelta.
    assert (Hus : Amqp.float_seconds PublishExample.surroundings
                    (S754_finite false 3 (-1)) = Ok 1500000)
      by (vm_compute; reflexivity).
    rewrite Hus in Hdelta. injection Hdelta as <-. exact Heta.
Defined.

(** C5 (as stated) fails for a countdown of zero: [if countdown:] skips the
    conversion, and the envelope is sent with no eta at all. *)
Lemma zero_countdown_gives_no_eta :
  ~ PublishSpec.eta_for_every_countdown PublishExample.publisher
      PublishExample.call_zero PublishExample.surroundings.
Proof.
  intros H.
  set (md := Amqp.message_data_of PublishExample.call_zero (PStr "id-1")
               (PList [PInt 2; PInt 3]) (PDict ∅) PNone PNone).
  assert (Henv : Amqp.envelopes
                   (Amqp.delay_task PublishExample.publisher
                      PublishExample.call_zero PublishExample.surroundings
                      []).2 = [md]) by (vm_compute; reflexivity).
  specialize (H ltac:(discriminate) eq_refl md).
  rewrite Henv in H.
  destruct (H ltac:(apply list_elem_of_singleton; reflexivity))
    as (delta & _ & Heta).
  unfold md in Heta. rewrite message_data_eta in Heta. discriminate Heta.
Qed.

Section Validation.
Import Amqp.

(** Resolving the countdown reads the clock at most, whatever comes of it. *)
Lemma resolve_countdown_no_io (c : delay_call) (w : surroundings) :
  no_io (resolve_countdown c w []).2.
Proof.
  unfold resolve_countdown.
  cbv [mbind eff_bind mret eff_ret lift datetime_now].
  destruct (truthy (countdown c)); simpl; [|by intros ev ?%elem_of_nil].
  destruct (timedelta_seconds (float_seconds w) (countdown c)) as [delta|e]; simpl.
  - destruct (datetime_add _ delta); simpl;
      by intros ev ->%list_elem_of_singleton.
  - by intros ev ->%list_elem_of_singleton.
Qed.

(** A truthy argument of the wrong type stops the call at the checks. *)
Lemma validate_rejects (c : delay_call) (log : list event) :
  (truthy (task_args c) = true /\ is_sequence (task_args c) = false) \/
  (truthy (task_kwargs c) = true /\ is_dict (task_kwargs c) = false) ->
  exists e,
    validate (py_or (task_args c) (PList []))
      (py_or (task_kwargs c) (PDict ∅)) log = (Raise e, log) /\
    exn_cls e = ValueError.
Proof.
  unfold validate, py_or. cbv [mbind eff_bind mret eff_ret raise].
  intros [[Ht Hs]|[Ht Hd]].
  - rewrite Ht, Hs. eauto.
  - rewrite Ht, Hd.
    destruct (is_sequence (if truthy (task_args c) then _ else _)); eauto.
Qed.

End Validation.

(** C6 (amended): a publish call whose [args] is truthy and neither a list
    nor a tuple, or whose [kwargs] is truthy and not a dict, raises before
    anything is sent: no envelope, no signal; the exception is the
    [ValueError] of the checks, unless resolving the countdown, which comes
    first, has already raised.  (Falsy [args] and [kwargs] are replaced by
    [[]] and [{}] before the checks and pass them.) *)
Theorem wrong_typed_args_rejected_before_io
    (self : Amqp.TaskPublisher) (c : Amqp.delay_call) (w : Amqp.surroundings) :
  (truthy (Amqp.task_args c) = true /\
   Amqp.is_sequence (Amqp.task_args c) = false) \/
  (truthy (Amqp.task_kwargs c) = true /\
   Amqp.is_dict (Amqp.task_kwargs c) = false) ->
  let out := Amqp.delay_task self c w [] in
  (exists e, out.1 = Raise e /\
     match (Amqp.resolve_countdown c w []).1 with
     | Ok _ => exn_cls e = ValueError
     | Raise e' => e = e'
     end) /\
  Amqp.no_io out.2 /\ Amqp.envelopes out.2 = [].
Proof.
  intros Hbad. unfold Amqp.delay_task. cbv [mbind eff_bind].
  pose proof (resolve_countdown_no_io c w) as Hio.
  destruct (Amqp.resolve_countdown c w []) as [[[now eta]|e'] log];
    simpl in Hio |- *.
  - destruct (validate_rejects c log Hbad) as (e & -> & He). simpl.
    split; [eauto|]. split; [exact Hio|].
    clear -Hio. induction log as [|ev log IH]; [reflexivity|].
    assert (Hev := Hio ev (list_elem_of_here _ _)).
    destruct ev; try contradiction. simpl. apply IH.
    intros ev' Hin. apply Hio. by apply list_elem_of_further.
  - split; [eauto|]. split; [exact Hio|].
    clear -Hio. induction log as [|ev log IH]; [reflexivity|].
    assert (Hev := Hio ev (list_elem_of_here _ _)).
    destruct ev; try contradiction. simpl. apply IH.
    intros ev' Hin. apply Hio. by apply list_elem_of_further.
Qed.

Lemma wrong_typed_args_rejected_before_io_witness :
  let out := Amqp.delay_task PublishExample.publisher
               PublishExample.call_mapping PublishExample.surroundings [] in
  (exists e, out.1 = Raise e /\ exn_cls e = ValueError) /\
  Amqp.envelopes out.2 = [].
Proof.
  intros out.
  destruct (wrong_typed_args_rejected_before_io PublishExample.publisher
              PublishExample.call_mapping PublishExample.surroundings
              (or_introl (conj eq_refl eq_refl)))
    as ((e & He & Hcls) & _ & Henv).
  split; [|exact Henv]. exists e. split; [exact He|exact Hcls].
Defined.

(** C6 (as stated) fails for [args] that is an empty mapping: [task_args or
    []] replaces it by an empty list before the check, and the task is
    sent. *)
Lemma empty_mapping_args_are_published :
  ~ PublishSpec.rejects_every_non_sequence PublishExample.publisher
      PublishExample.call_empty_mapping PublishExample.surroundings.
Proof.
  intros H. destruct (H (or_introl eq_refl)) as [[e [He _]] _].
  vm_compute in He. discriminate He.
Qed.

(** ** Preparing an exception for the result backend *)

Section PrepareException.
Import Backend.
Variable dumps : instance -> option exn.

(** The search passes over the classes that do not serialize and stops at
    the first that does. *)
Lemma first_pickleable_found (exc : instance) (pre post : list pyclass)
    (cls : pyclass) (superexc : instance) :
  (forall c, c ∈ pre -> ~ serializes dumps exc c) ->
  try_superclass dumps exc cls = Some superexc ->
  first_pickleable dumps exc (pre ++ cls :: post) = Some superexc.
Proof.
  intros Hpre Hcls. induction pre as [|c pre IH]; simpl.
  - by rewrite Hcls.
  - destruct (try_superclass dumps exc c) as [x|] eqn:Hc.
    + exfalso. apply (Hpre c); [apply list_elem_of_here|].
      unfold serializes. rewrite Hc. eauto.
    + apply IH. intros c' Hin. apply Hpre. by apply list_elem_of_further.
Qed.

Lemma first_pickleable_none (exc : instance) (classes : list pyclass) :
  (forall c, c ∈ classes -> ~ serializes dumps exc c) ->
  first_pickleable dumps exc classes = None.
Proof.
  intros Hall. induction classes as [|c classes IH]; simpl; [reflexivity|].
  destruct (try_superclass dumps exc c) as [x|] eqn:Hc.
  - exfalso. apply (Hall c); [apply list_elem_of_here|].
    unfold serializes. rewrite Hc. eauto.
  - apply IH. intros c' Hin. apply Hall. by apply list_elem_of_further.
Qed.

(** What a successful [try] body has made. *)
Lemma try_superclass_some (exc : instance) (cls : pyclass)
    (superexc : instance) :
  try_superclass dumps exc cls = Some superexc ->
  inst_class superexc = cls /\
  cls_call cls [PTuple (inst_args exc)] = Some (inst_args superexc) /\
  dumps superexc = None.
Proof.
  unfold try_superclass.
  destruct (cls_call cls _) as [args|]; [|discriminate].
  destruct (dumps (mkInstance cls args)) eqn:Hd; [discriminate|].
  by intros [= <-].
Qed.

End PrepareException.

(** [prepare_exception] goes through the method resolution order of the
    exception's class, most specific first, and returns the instance made
    by the first class that can be called on [exc.args] and whose instance
    [pickle.dumps] accepts (dumping is all that is tried).  When no class
    qualifies, the exception itself is dumped: it is returned as it is if
    that works, wrapped with the module, class name and arguments of its
    class if [dumps] raises a [PickleError], and any other exception of
    [dumps] propagates. *)
Lemma prepare_exception_nearest_dumpable
    (dumps : Backend.instance -> option exn) (exc : Backend.instance) :
  (forall pre cls post superexc,
     Backend.mro (Backend.inst_class exc) = pre ++ cls :: post ->
     (forall c, c ∈ pre -> ~ Backend.serializes dumps exc c) ->
     Backend.try_superclass dumps exc cls = Some superexc ->
     Backend.prepare_exception dumps exc = Ok (Backend.Exc superexc) /\
     Backend.inst_class superexc = cls /\
     dumps superexc = None) /\
  ((forall cls, cls ∈ Backend.mro (Backend.inst_class exc) ->
      ~ Backend.serializes dumps exc cls) ->
   Backend.prepare_exception dumps exc =
     match dumps exc with
     | None => Ok (Backend.Exc exc)
     | Some e =>
         match exn_cls e with
         | PickleError =>
             Ok (Backend.Wrapped
                   (Backend.wrap
                      (Backend.cls_module (Backend.inst_class exc))
                      (Backend.cls_name (Backend.inst_class exc))
                      (Backend.inst_args exc)))
         | _ => Raise e
         end
     end).
Proof.
  split.
  - intros pre cls post superexc Hmro Hpre Hcls.
    destruct (try_superclass_some dumps exc cls superexc Hcls)
      as (Hclass & _ & Hdumps).
    split; [|by split].
    unfold Backend.prepare_exception,
      Backend.find_nearest_pickleable_exception.
    rewrite Hmro, (first_pickleable_found dumps exc pre post cls superexc
                     Hpre Hcls).
    simpl. by rewrite Hdumps.
  - intros Hall.
    unfold Backend.prepare_exception,
      Backend.find_nearest_pickleable_exception.
    by rewrite (first_pickleable_none dumps exc _ Hall).
Qed.

Section PrepareExceptionExamples.
Import Backend BackendExample.
Variable pickle_dumps : instance -> option exn.

(** An [Exception] whose one argument no pickler call accepts: no class of
    its hierarchy serializes. *)
Lemma nothing_serializes_with (arg : pyval) :
  (forall cls, pickle_dumps (mkInstance cls [PTuple [arg]]) <> None) ->
  forall cls, cls ∈ mro Exception_ ->
    ~ serializes pickle_dumps (mkInstance Exception_ [arg]) cls.
Proof.
  intros Harg cls Hin [x Hx].
  change (mro Exception_) with [Exception_; BaseException_; object_] in Hin.
  rewrite !elem_of_cons, elem_of_nil in Hin.
  destruct Hin as [->|[->|[->|[]]]].
  - unfold try_superclass in Hx. cbn [cls_call Exception_ inst_args] in Hx.
    specialize (Harg Exception_).
    destruct (pickle_dumps (mkInstance Exception_ [PTuple [arg]]));
      [discriminate|done].
  - unfold try_superclass in Hx. cbn [cls_call BaseException_ inst_args] in Hx.
    specialize (Harg BaseException_).
    destruct (pickle_dumps (mkInstance BaseException_ [PTuple [arg]]));
      [discriminate|done].
  - unfold try_superclass in Hx. cbn [cls_call object_ inst_args] in Hx.
    discriminate.
Qed.

End PrepareExceptionExamples.

(** C4: [prepare_exception] is given [Exception(threading.Lock())].  No
    class of its hierarchy serializes: in [find_nearest_pickleable_exception]
    the [TypeError] of [pickle.dumps] is swallowed for every class, and the
    exception itself comes back.  [prepare_exception] then dumps it once
    more, under [except pickle.PickleError], and the same [TypeError]
    leaves it where a wrapper was promised; for an exception that holds a
    lambda, refused with a [PicklingError], the wrapper is made.  And for
    [KeyError("foo")], whose own class serializes, what comes back is not an
    equivalent exception: [supercls(exc.args)] hands the tuple of arguments
    over as one argument, and the result is [KeyError(("foo",))]. *)
Theorem prepare_exception_lets_dump_error_out :
  let refused := Exn TypeError [PStr "can't pickle lock objects"] in
  (forall cls,
     cls ∈ Backend.mro (Backend.inst_class BackendExample.holds_lock) ->
     ~ Backend.serializes BackendExample.dumps BackendExample.holds_lock cls) /\
  Backend.find_nearest_pickleable_exception BackendExample.dumps
    BackendExample.holds_lock = BackendExample.holds_lock /\
  BackendExample.dumps BackendExample.holds_lock = Some refused /\
  Backend.prepare_exception BackendExample.dumps BackendExample.holds_lock =
    Raise refused /\
  Backend.prepare_exception BackendExample.dumps BackendExample.holds_lambda =
    Ok (Backend.Wrapped (Backend.wrap "exceptions" "Exception" [PLambda])) /\
  Backend.inst_args BackendExample.key_error = [PStr "foo"] /\
  Backend.prepare_exception BackendExample.dumps BackendExample.key_error =
    Ok (Backend.Exc
          (Backend.mkInstance BackendExample.KeyError_ [PTuple [PStr "foo"]])).
Proof.
  intros refused. split; [|repeat split; vm_compute; reflexivity].
  apply (nothing_serializes_with BackendExample.dumps PLock).
  intros cls. vm_compute. discriminate.
Qed.

(** * Further properties of the code *)

(** ** The result backend *)

(** X1: [prepare_result] is idempotent, and the only two results it stores
    alike are [None] and [True]. *)
Theorem prepare_result_collides_only_on_none (a b : pyval) :
  Backend.prepare_result (Backend.prepare_result a) = Backend.prepare_result a
  /\
  (Backend.prepare_result a = Backend.prepare_result b ->
   a = b \/ (a = PNone /\ b = PBool true) \/ (a = PBool true /\ b = PNone)).
Proof.
  split.
  - by destruct a.
  - destruct a, b; simpl; intros H; try discriminate H;
      first [ left; exact H | left; reflexivity
            | right; left; split; [reflexivity|congruence]
            | right; right; split; [congruence|reflexivity]
            | idtac ].
Qed.

Lemma prepare_result_collides_only_on_none_witness :
  PNone = PBool true \/ (PNone = PNone /\ PBool true = PBool true) \/
  (PNone = PBool true /\ PBool true = PNone).
Proof.
  apply (prepare_result_collides_only_on_none PNone (PBool true)).
  reflexivity.
Defined.

Section PrepareExceptionInvariants.
Import Backend.
Variable dumps : instance -> option exn.

Lemma first_pickleable_some (exc : instance) (classes : list pyclass)
    (superexc : instance) :
  first_pickleable dumps exc classes = Some superexc ->
  exists cls, cls ∈ classes /\ try_superclass dumps exc cls = Some superexc.
Proof.
  induction classes as [|c classes IH]; simpl; [discriminate|].
  destruct (try_superclass dumps exc c) as [x|] eqn:Hc.
  - intros [= <-]. exists c. split; [apply list_elem_of_here|exact Hc].
  - intros H. destruct (IH H) as (cls & Hin & Hcls).
    exists cls. split; [by apply list_elem_of_further|exact Hcls].
Qed.

Lemma first_pickleable_none_inv (exc : instance) (classes : list pyclass) :
  first_pickleable dumps exc classes = None ->
  forall cls, cls ∈ classes -> ~ serializes dumps exc cls.
Proof.
  induction classes as [|c classes IH]; simpl; intros H cls Hin.
  - by apply elem_of_nil in Hin.
  - destruct (try_superclass dumps exc c) as [x|] eqn:Hc; [discriminate|].
    apply elem_of_cons in Hin as [->|Hin].
    + unfold serializes. rewrite Hc. by intros [y Hy].
    + by apply IH.
Qed.

End PrepareExceptionInvariants.

(** X2: whatever exception [prepare_exception] returns, [pickle.dumps]
    accepts it; it is either the exception passed in, or an instance of a
    class of its method resolution order made by calling that class on the
    tuple of the original arguments. *)
Theorem prepare_exception_returns_dumpable
    (dumps : Backend.instance -> option exn) (exc r : Backend.instance) :
  Backend.prepare_exception dumps exc = Ok (Backend.Exc r) ->
  dumps r = None /\
  (r = exc \/
   (Backend.inst_class r ∈ Backend.mro (Backend.inst_class exc) /\
    Backend.cls_call (Backend.inst_class r)
      [PTuple (Backend.inst_args exc)] = Some (Backend.inst_args r))).
Proof.
  unfold Backend.prepare_exception, Backend.find_nearest_pickleable_exception.
  destruct (Backend.first_pickleable dumps exc _) as [superexc|] eqn:Hfind;
    simpl.
  - destruct (first_pickleable_some dumps exc _ superexc Hfind)
      as (cls & Hin & Hcls).
    destruct (try_superclass_some dumps exc cls superexc Hcls)
      as (Hclass & Hcall & Hdumps).
    rewrite Hdumps. intros [= <-]. split; [exact Hdumps|].
    right. rewrite Hclass. by split.
  - destruct (dumps exc) as [e|] eqn:Hd.
    + by destruct (exn_cls e).
    + intros [= <-]. split; [exact Hd|by left].
Qed.

Lemma prepare_exception_returns_dumpable_witness :
  BackendExample.dumps
    (Backend.mkInstance BackendExample.KeyError_ [PTuple [PStr "foo"]]) = None.
Proof.
  apply (prepare_exception_returns_dumpable BackendExample.dumps
           BackendExample.key_error).
  vm_compute. reflexivity.
Defined.

(** X3: [prepare_exception] gives a wrapper exactly when no class of the
    hierarchy serializes and dumping the exception itself raises a
    [PickleError]; the wrapper then holds the module, the name and the
    arguments of the exception as it was passed in. *)
Theorem prepare_exception_wraps_iff
    (dumps : Backend.instance -> option exn) (exc : Backend.instance)
    (w : Backend.UnpickleableExceptionWrapper) :
  Backend.prepare_exception dumps exc = Ok (Backend.Wrapped w) <->
  (forall cls, cls ∈ Backend.mro (Backend.inst_class exc) ->
     ~ Backend.serializes dumps exc cls) /\
  (exists e, dumps exc = Some e /\ exn_cls e = PickleError) /\
  w = Backend.wrap (Backend.cls_module (Backend.inst_class exc))
        (Backend.cls_name (Backend.inst_class exc)) (Backend.inst_args exc).
Proof.
  split.
  - unfold Backend.prepare_exception,
      Backend.find_nearest_pickleable_exception.
    destruct (Backend.first_pickleable dumps exc _) as [superexc|] eqn:Hfind;
      simpl.
    + destruct (first_pickleable_some dumps exc _ superexc Hfind)
        as (cls & Hin & Hcls).
      destruct (try_superclass_some dumps exc cls superexc Hcls)
        as (_ & _ & Hdumps).
      rewrite Hdumps. discriminate.
    + pose proof (first_pickleable_none_inv dumps exc _ Hfind) as Hnone.
      destruct (dumps exc) as [e|] eqn:Hd; [|discriminate].
      destruct (exn_cls e) eqn:He; try discriminate.
      intros [= <-]. split; [exact Hnone|]. split; [|reflexivity].
      exists e. by split.
  - intros (Hnone & (e & Hd & He) & ->).
    unfold Backend.prepare_exception,
      Backend.find_nearest_pickleable_exception.
    rewrite (first_pickleable_none dumps exc _ Hnone). simpl.
    by rewrite Hd, He.
Qed.

Lemma prepare_exception_wraps_iff_witness :
  (exists e, BackendExample.dumps BackendExample.holds_lambda = Some e /\
             exn_cls e = PickleError).
Proof.
  apply (prepare_exception_wraps_iff BackendExample.dumps
           BackendExample.holds_lambda
           (Backend.wrap "exceptions" "Exception" [PLambda])).
  vm_compute. reflexivity.
Defined.

(** X4: an exception leaves [prepare_exception] only when no class of the
    hierarchy serializes, and it is then the exception [pickle.dumps] raised
    on the exception passed in, never a [PickleError]. *)
Theorem prepare_exception_raises_only_dump_error
    (dumps : Backend.instance -> option exn) (exc : Backend.instance)
    (e : exn) :
  Backend.prepare_exception dumps exc = Raise e ->
  dumps exc = Some e /\ exn_cls e <> PickleError /\
  forall cls, cls ∈ Backend.mro (Backend.inst_class exc) ->
    ~ Backend.serializes dumps exc cls.
Proof.
  unfold Backend.prepare_exception, Backend.find_nearest_pickleable_exception.
  destruct (Backend.first_pickleable dumps exc _) as [superexc|] eqn:Hfind;
    simpl.
  - destruct (first_pickleable_some dumps exc _ superexc Hfind)
      as (cls & Hin & Hcls).
    destruct (try_superclass_some dumps exc cls superexc Hcls)
      as (_ & _ & Hdumps).
    rewrite Hdumps. discriminate.
  - pose proof (first_pickleable_none_inv dumps exc _ Hfind) as Hnone.
    destruct (dumps exc) as [e'|] eqn:Hd; [|discriminate].
    destruct (exn_cls e') eqn:He; intros [= <-];
      (split; [reflexivity|]); (split; [|exact Hnone]);
      rewrite He; discriminate.
Qed.

Lemma prepare_exception_raises_only_dump_error_witness :
  BackendExample.dumps BackendExample.holds_lock =
    Some (Exn TypeError [PStr "can't pickle lock objects"]).
Proof.
  apply (prepare_exception_raises_only_dump_error BackendExample.dumps
           BackendExample.holds_lock).
  vm_compute. reflexivity.
Defined.

(** X5: when the class of the exception stores its call arguments as they
    come and [pickle.dumps] accepts the outcome, [prepare_exception] does
    not return the exception itself but a new instance of the same class
    whose only argument is the tuple of the original arguments. *)
Theorem prepare_exception_rebuilds_from_args_tuple
    (dumps : Backend.instance -> option exn) (exc : Backend.instance) :
  let rebuilt := Backend.mkInstance (Backend.inst_class exc)
                   [PTuple (Backend.inst_args exc)] in
  Backend.cls_call (Backend.inst_class exc) [PTuple (Backend.inst_args exc)]
    = Some [PTuple (Backend.inst_args exc)] ->
  dumps rebuilt = None ->
  Backend.prepare_exception dumps exc = Ok (Backend.Exc rebuilt).
Proof.
  intros rebuilt Hcall Hdumps.
  unfold Backend.prepare_exception, Backend.find_nearest_pickleable_exception,
    Backend.mro.
  simpl. unfold Backend.try_superclass. rewrite Hcall.
  fold rebuilt. rewrite Hdumps. simpl. by rewrite Hdumps.
Qed.

Lemma prepare_exception_rebuilds_from_args_tuple_witness :
  Backend.prepare_exception BackendExample.dumps BackendExample.key_error =
    Ok (Backend.Exc
          (Backend.mkInstance BackendExample.KeyError_ [PTuple [PStr "foo"]])).
Proof.
  apply (prepare_exception_rebuilds_from_args_tuple BackendExample.dumps
           BackendExample.key_error).
  - reflexivity.
  - vm_compute. reflexivity.
Defined.

Section WaitFor.
Import BackendWait.

Lemma wait_turn_undecided (p : poll) : undecided p -> wait_turn p = None.
Proof.
  intros (s & Hs & Hd & Hf & Ht). unfold wait_turn. rewrite Hs, Ht.
  destruct (String.eqb_spec s "DONE"); [done|].
  destruct (String.eqb_spec s "FAILURE"); [done|]. reflexivity.
Qed.

Lemma wait_for_skips_undecided (pre rest : list poll) :
  Forall undecided pre -> wait_for (pre ++ rest) = wait_for rest.
Proof.
  induction 1 as [|p pre Hp _ IH]; simpl; [reflexivity|].
  by rewrite (wait_turn_undecided p Hp).
Qed.

End WaitFor.

(** X6: [wait_for] returns what [get_result] gives at the first poll that
    finds the task [DONE], after polls that found it neither done nor
    failed; the status is looked at before the timer, so the result comes
    back even when the time is up at that poll. *)
Theorem wait_for_returns_at_first_done
    (pre post : list BackendWait.poll) (p : BackendWait.poll) :
  Forall BackendWait.undecided pre ->
  BackendWait.status p = Ok "DONE" ->
  BackendWait.wait_for (pre ++ p :: post) = Some (BackendWait.stored_result p).
Proof.
  intros Hpre Hdone. rewrite (wait_for_skips_undecided pre _ Hpre).
  simpl. unfold BackendWait.wait_turn. by rewrite Hdone.
Qed.

Lemma wait_for_returns_at_first_done_witness :
  BackendWait.wait_for
    [BackendWaitExample.pending; BackendWaitExample.retrying;
     BackendWaitExample.done_late; BackendWaitExample.failed] =
  Some (Ok (BackendWait.SValue (PInt 5))).
Proof.
  apply (wait_for_returns_at_first_done
           [BackendWaitExample.pending; BackendWaitExample.retrying]
           [BackendWaitExample.failed] BackendWaitExample.done_late).
  - repeat constructor.
    + exists "PENDING". repeat split; discriminate.
    + exists "RETRY". repeat split; discriminate.
  - reflexivity.
Defined.

(** X7: at the first poll that finds the task in [FAILURE], [wait_for]
    raises the exception the backend holds for it, whatever the timer
    says. *)
Theorem wait_for_raises_stored_exception
    (pre post : list BackendWait.poll) (p : BackendWait.poll) (e : exn) :
  Forall BackendWait.undecided pre ->
  BackendWait.status p = Ok "FAILURE" ->
  BackendWait.stored_result p = Ok (BackendWait.SException e) ->
  BackendWait.wait_for (pre ++ p :: post) = Some (Raise e).
Proof.
  intros Hpre Hfail Hres. rewrite (wait_for_skips_undecided pre _ Hpre).
  simpl. unfold BackendWait.wait_turn. by rewrite Hfail, Hres.
Qed.

Lemma wait_for_raises_stored_exception_witness :
  BackendWait.wait_for
    [BackendWaitExample.retrying; BackendWaitExample.failed;
     BackendWaitExample.done_late] =
  Some (Raise (Exn KeyError [PStr "foo"])).
Proof.
  apply (wait_for_raises_stored_exception [BackendWaitExample.retrying]
           [BackendWaitExample.done_late] BackendWaitExample.failed).
  - repeat constructor. exists "RETRY". repeat split; discriminate.
  - reflexivity.
  - reflexivity.
Defined.

(** X8: a status other than [DONE] and [FAILURE], [RETRY] included, never
    ends the wait: the loop goes on for as long as the timer lets it, and
    what it raises then is the timer's exception. *)
Theorem wait_for_waits_through_retry
    (pre post : list BackendWait.poll) (p : BackendWait.poll)
    (s : string) (e : exn) :
  Forall BackendWait.undecided pre ->
  BackendWait.wait_for pre = None /\
  (BackendWait.status p = Ok s -> s <> "DONE" -> s <> "FAILURE" ->
   BackendWait.tick p = Some e ->
   BackendWait.wait_for (pre ++ p :: post) = Some (Raise e)).
Proof.
  intros Hpre. split.
  - rewrite <- (app_nil_r pre). by rewrite (wait_for_skips_undecided pre []).
  - intros Hs Hd Hf Ht. rewrite (wait_for_skips_undecided pre _ Hpre).
    simpl. unfold BackendWait.wait_turn. rewrite Hs, Ht.
    destruct (String.eqb_spec s "DONE"); [done|].
    destruct (String.eqb_spec s "FAILURE"); [done|]. reflexivity.
Qed.

Lemma wait_for_waits_through_retry_witness :
  BackendWait.wait_for
    [BackendWaitExample.retrying; BackendWaitExample.retrying] = None /\
  BackendWait.wait_for
    [BackendWaitExample.retrying; BackendWaitExample.retrying;
     BackendWaitExample.timed_out] =
  Some (Raise (Exn (OtherException "TimeoutError") [])).
Proof.
  assert (Hpre : Forall BackendWait.undecided
                   [BackendWaitExample.retrying; BackendWaitExample.retrying]).
  { repeat constructor; exists "RETRY"; repeat split; discriminate. }
  split.
  - apply (wait_for_waits_through_retry _ [] BackendWaitExample.timed_out
             "RETRY" (Exn (OtherException "TimeoutError") []) Hpre).
  - apply (wait_for_waits_through_retry _ [] BackendWaitExample.timed_out
             "RETRY" (Exn (OtherException "TimeoutError") []) Hpre);
      [reflexivity|discriminate|discriminate|reflexivity].
Defined.

(** ** The worker daemon *)

Section ReadingMessages.
Import Worker.

(** Reading a body that has the four keys, with a task name that is a
    string. *)
Lemma from_message_well_formed (tasks : gmap string callable) (m : message)
    (d : gmap string pyval) (name : string) (id args kwargs : pyval) :
  msg_body m = Some (PDict d) ->
  d !! "task" = Some (PStr name) -> d !! "id" = Some id ->
  d !! "args" = Some args -> d !! "kwargs" = Some kwargs ->
  from_message tasks m [] =
    match tasks !! name with
    | Some f => (Ok (mkTaskWrapper (PStr name) id f args kwargs), [])
    | None =>
        (Raise (match msg_reject m with
                | Some e => e
                | None => Exn UnknownTask [PStr name]
                end), [EReject (msg_tag m)])
    end.
Proof.
  intros Hbody Htask Hid Hargs Hkwargs.
  unfold from_message, call. rewrite Hbody.
  cbv [mbind eff_bind mret eff_ret emit lift raise pop]. simpl.
  rewrite Htask. simpl.
  rewrite lookup_delete_ne, Hid by done. simpl.
  rewrite !lookup_delete_ne, Hargs by done. simpl.
  rewrite !lookup_delete_ne, Hkwargs by done. simpl.
  destruct (tasks !! name); [reflexivity|]. simpl.
  by destruct (msg_reject m).
Qed.

(** Whatever reading a message raises is an instance of [Exception],
    unless it is what [message.reject()] raised. *)
Lemma from_message_raises_exception tasks m e ev :
  from_message tasks m [] = (Raise e, ev) ->
  is_Exception (exn_cls e) = true \/ msg_reject m = Some e.
Proof.
  unfold from_message, call.
  cbv [mbind eff_bind mret eff_ret emit lift raise pop registry_get].
  repeat (destruct_innermost; simpl);
    intros [=]; subst; auto.
Qed.

(** The dicts [dict.update] makes of kwargs that are no dict: nothing is
    added for an empty string, a two-character string in a list is a key
    with its value, a pair with a number as key is kept as it is. *)
Lemma update_takes_sequences (d : gmap string pyval) :
  update d (PStr "") = Ok (mkKwdict d []) /\
  update d (PList [PStr "ab"]) = Ok (mkKwdict (<["a" := PStr "b"]> d) []) /\
  update d (PList [PList [PInt 1; PInt 2]]) =
    Ok (mkKwdict d [PList [PInt 1; PInt 2]]) /\
  update d (PList [PStr "abc"]) = Raise (Exn ValueError [PStr "abc"]) /\
  update d (PList [PInt 5]) = Raise (Exn TypeError [PInt 5]) /\
  update d PNone = Raise (Exn TypeError [PNone]).
Proof. repeat split. Qed.

End ReadingMessages.

(** A task whose kwargs are an empty string is submitted with the logging
    context alone, and its message acknowledged. *)
Lemma string_kwargs_are_submitted :
  Worker.execute_next_task WorkerExample.daemon
    (WorkerExample.quiet_round
       (Ok (Some (WorkerExample.message_kwargs (PStr "")))) None 0 0) [] =
    (Ok (Some (Worker.AsyncResult 9, PStr "add", PStr "9c1d")),
     [Worker.EFetch;
      Worker.EInfo (Worker.GotTaskFromBroker (PStr "add") (PStr "9c1d"));
      Worker.ESubmit 9 WorkerExample.add (PList [])
        (Worker.mkKwdict
           (<["logfile" := PInt 40]> (<["loglevel" := PStr "celery.log"]> ∅))
           [])
        true;
      Worker.EAck 9]).
Proof. vm_compute. reflexivity. Qed.



Section TurnsWithoutDispatch.
Import Worker WorkerSpec WorkerRunSpec.

(** A turn in which fetching raises: the calls of the clause that takes
    the exception follow those of the fetch; an exception that is no
    instance of [Exception] leaves the loop. *)
Lemma run_turn_fetch_raises self rd last names pev e fev :
  run_periodic_tasks rd [] = (Ok names, pev) ->
  fetch_next_task self rd [] = (Raise e, fev) ->
  run_turn self rd last [] =
    if is_Exception (exn_cls e) then
      ((on_error self rd last e []).1,
       pev ++ fev ++ (on_error self rd last e []).2)
    else (Raise e, pev ++ fev).
Proof.
  intros Hperiodic Hfetch.
  by rewrite run_turn_run, Hperiodic,
    (execute_next_task_not_fetched _ _ _ _ Hfetch).
Qed.

End TurnsWithoutDispatch.

(** X10: a message for a task that is not registered is rejected and never
    submitted or acknowledged, whatever the collaborators answer: after the
    fetch and the rejection the turn makes no call that settles anything.
    When the rejection and the logger return, the turn fetches, rejects,
    logs the unknown task at info level, and the loop goes on. *)
Theorem unknown_task_is_rejected_and_skipped
    (self : Worker.TaskDaemon) (rd : Worker.round) (last : option Z)
    (m : Worker.message) (d : gmap string pyval) (name : string)
    (id args kwargs : pyval) (names : list string)
    (pev : list Worker.event) :
  Worker.run_periodic_tasks rd [] = (Ok names, pev) ->
  Worker.fetched rd = Ok (Some m) ->
  Worker.msg_body m = Some (PDict d) ->
  d !! "task" = Some (PStr name) -> d !! "id" = Some id ->
  d !! "args" = Some args -> d !! "kwargs" = Some kwargs ->
  Worker.tasks self !! name = None ->
  (exists post,
     (Worker.run_turn self rd last []).2 =
       pev ++ [Worker.EFetch; Worker.EReject (Worker.msg_tag m)] ++ post /\
     WorkerRunSpec.without WorkerRunSpec.settles post) /\
  (Worker.msg_reject m = None ->
   Worker.logger_raises rd
     (Worker.UnknownTaskIgnored (Exn UnknownTask [PStr name])) = None ->
   Worker.run_turn self rd last [] =
     (Ok last,
      pev ++
      [Worker.EFetch; Worker.EReject (Worker.msg_tag m);
       Worker.EInfo (Worker.UnknownTaskIgnored
                       (Exn UnknownTask [PStr name]))])).
Proof.
  intros Hperiodic Hf Hbody Htask Hid Hargs Hkwargs Hunknown.
  pose proof (from_message_well_formed (Worker.tasks self) m d name id args
                kwargs Hbody Htask Hid Hargs Hkwargs) as Hread.
  rewrite Hunknown in Hread.
  pose proof (fetch_next_task_run self rd) as Hfetch.
  rewrite Hf, Hread in Hfetch. simpl in Hfetch.
  rewrite (run_turn_fetch_raises self rd last names pev _ _ Hperiodic Hfetch).
  split.
  - match goal with
    | |- context [is_Exception ?c] => destruct (is_Exception c)
    end; simpl.
    + eexists. split; [reflexivity|]. apply on_error_quiet.
    + exists []. split; [reflexivity|constructor].
  - intros Hreject Hinfo. rewrite Hreject. simpl.
    unfold Worker.on_error, Worker.info. simpl.
    rewrite run_bind by (intros; apply appends_ret).
    rewrite call_run, Hinfo. reflexivity.
Qed.

Lemma unknown_task_is_rejected_and_skipped_witness :
  Worker.run_turn
    (Worker.mkTaskDaemon (PInt 40) (PStr "celery.log") 1 30 ∅)
    WorkerExample.round_ok None [] =
  (Ok None,
   [Worker.EFetch; Worker.EReject 7;
    Worker.EInfo (Worker.UnknownTaskIgnored (Exn UnknownTask [PStr "add"]))]).
Proof.
  apply (unknown_task_is_rejected_and_skipped
           (Worker.mkTaskDaemon (PInt 40) (PStr "celery.log") 1 30 ∅)
           WorkerExample.round_ok None WorkerExample.message
           _ "add" (PStr "7f3a") (PList [PInt 2; PInt 3]) (PDict ∅) [] []
           eq_refl eq_refl eq_refl);
    vm_compute; reflexivity.
Defined.

(** X11: a message whose body is no JSON is dropped without a trace: the
    [ValueError] of the parser is caught by the first clause of the loop,
    nothing is logged, the message is neither acknowledged nor rejected, and
    the loop goes on. *)
Theorem unparsable_message_is_skipped_silently
    (self : Worker.TaskDaemon) (rd : Worker.round) (last : option Z)
    (m : Worker.message) (names : list string) (pev : list Worker.event) :
  Worker.run_periodic_tasks rd [] = (Ok names, pev) ->
  Worker.fetched rd = Ok (Some m) ->
  Worker.msg_body m = None ->
  Worker.run_turn self rd last [] = (Ok last, pev ++ [Worker.EFetch]).
Proof.
  intros Hperiodic Hf Hbody.
  pose proof (fetch_next_task_run self rd) as Hfetch.
  rewrite Hf in Hfetch.
  unfold Worker.from_message in Hfetch. rewrite Hbody in Hfetch.
  cbv [mbind eff_bind lift] in Hfetch. simpl in Hfetch.
  by rewrite (run_turn_fetch_raises self rd last names pev _ _ Hperiodic
                Hfetch).
Qed.

Lemma unparsable_message_is_skipped_silently_witness :
  Worker.run_turn WorkerExample.daemon
    (WorkerExample.quiet_round
       (Ok (Some (Worker.Message 8 None None None))) None 0 0)
    None [] = (Ok None, [Worker.EFetch]).
Proof.
  apply (unparsable_message_is_skipped_silently WorkerExample.daemon
           (WorkerExample.quiet_round
              (Ok (Some (Worker.Message 8 None None None))) None 0 0)
           None (Worker.Message 8 None None None) [] []
           eq_refl eq_refl eq_refl).
Defined.

Section LeavingTheLoop.
Import Worker WorkerSpec.

(** What leaves the scheduling of the periodic tasks is what
    [get_waiting_tasks()] or a [delay()] raised. *)
Lemma delay_all_raise_origin waiting e ev :
  delay_all waiting [] = (Raise e, ev) ->
  exists name, (name, Some e) ∈ waiting.
Proof.
  revert ev. induction waiting as [|[name raises] rest IH]; intros ev; simpl.
  - discriminate.
  - rewrite run_bind by (intros; apply appends_delay_all).
    rewrite call_run. destruct raises as [e'|]; simpl.
    + intros [= <- _]. exists name. apply list_elem_of_here.
    + destruct (delay_all rest []) as [[[]|e'] ev'] eqn:Hrest; simpl;
        [discriminate|].
      intros [= <- _]. destruct (IH _ eq_refl) as [name' Hin].
      exists name'. by apply list_elem_of_further.
Qed.

Lemma run_periodic_tasks_raise_origin rd e ev :
  run_periodic_tasks rd [] = (Raise e, ev) -> raised_outside_guard rd e.
Proof.
  unfold run_periodic_tasks. cbv [mbind eff_bind mret eff_ret lift].
  destruct (waiting_tasks rd) as [waiting|e'] eqn:Hw.
  - destruct (delay_all waiting []) as [[[]|e'] ev'] eqn:Hd; [discriminate|].
    intros [= <- _]. right. left.
    destruct (delay_all_raise_origin _ _ _ Hd) as [name Hin]. eauto.
  - intros [= <- _]. by left.
Qed.

(** What leaves a clause of the loop is what its own call on the logger or
    on [time.sleep] raised. *)
Lemma on_error_raise_origin self rd last e' e ev :
  on_error self rd last e' [] = (Raise e, ev) -> raised_outside_guard rd e.
Proof.
  unfold on_error, info, critical, raised_outside_guard.
  cbv [mbind eff_bind mret eff_ret call emit raise].
  destruct (exn_cls e'); simpl;
    try discriminate;
    try (destruct (logger_raises rd _) eqn:Hl; [|discriminate];
         intros [= <- _]; eauto 10).
  destruct (negb (empty_msg_emit_every self =? 0)); simpl.
  - match goal with
    | |- context [if ?due then _ else _] => destruct due
    end; simpl.
    + destruct (logger_raises rd WaitingForQueue) eqn:Hl; simpl.
      * intros [= <- _]. auto.
      * destruct (sleep_raises rd) eqn:Hs; [|discriminate].
        intros [= <- _]. auto 10.
    + destruct (sleep_raises rd) eqn:Hs; [|discriminate].
      intros [= <- _]. auto 10.
  - destruct (sleep_raises rd) eqn:Hs; [|discriminate].
    intros [= <- _]. auto 10.
Qed.

End LeavingTheLoop.

(** X12: an exception that is an instance of [Exception] leaves the loop of
    [run] only from outside the [try]: from the scheduling of the periodic
    tasks, from a call that a clause of the loop makes itself, on the
    logger or on [time.sleep], or from [results.add].  Whatever the
    consumer's [fetch], the reading of the message, the pool's
    [apply_async], the acknowledgement or the rejection raise leaves the
    loop only if it is no instance of [Exception]. *)
Theorem run_turn_left_only_from_outside_the_guard
    (self : Worker.TaskDaemon) (rd : Worker.round) (last : option Z)
    (e : exn) (log : list Worker.event) :
  Worker.run_turn self rd last [] = (Raise e, log) ->
  is_Exception (exn_cls e) = false \/ WorkerSpec.raised_outside_guard rd e.
Proof.
  rewrite run_turn_run.
  destruct (Worker.run_periodic_tasks rd []) as [[names|e'] pev] eqn:Hp.
  - destruct (Worker.execute_next_task self rd [])
      as [[[[[r name] id]|]|e'] ev].
    + destruct (Worker.results_add_raises rd) eqn:Hadd; [|discriminate].
      intros [= <- _]. right. unfold WorkerSpec.raised_outside_guard.
      auto 10.
    + destruct (Worker.on_error self rd last _ []) as [[l|e'] hev] eqn:Hh;
        simpl; [discriminate|].
      intros [= <- _]. right. exact (on_error_raise_origin _ _ _ _ _ _ Hh).
    + destruct (is_Exception (exn_cls e')) eqn:He.
      * destruct (Worker.on_error self rd last e' []) as [[l|e''] hev] eqn:Hh;
          simpl; [discriminate|].
        intros [= <- _]. right. exact (on_error_raise_origin _ _ _ _ _ _ Hh).
      * intros [= <- _]. by left.
  - intros [= <- _]. right.
    exact (run_periodic_tasks_raise_origin _ _ _ Hp).
Qed.

Lemma run_turn_left_only_from_outside_the_guard_witness :
  is_Exception (exn_cls (Exn (OtherException "IOError") [])) = false \/
  WorkerSpec.raised_outside_guard WorkerExample.round_logger_broken
    (Exn (OtherException "IOError") []).
Proof.
  apply (run_turn_left_only_from_outside_the_guard WorkerExample.daemon
           WorkerExample.round_logger_broken None
           (Exn (OtherException "IOError") [])
           (Worker.run_turn WorkerExample.daemon
              WorkerExample.round_logger_broken None []).2).
  vm_compute. reflexivity.
Defined.

Section IdleTurns.
Import Worker WorkerSpec.

Lemma fetch_next_task_empty self rd :
  fetched rd = Ok None ->
  fetch_next_task self rd [] = (Raise (Exn EmptyQueue []), [EFetch]).
Proof. intros Hf. by rewrite fetch_next_task_run, Hf. Qed.

(** Whether the notice is due, as the loop tests it. *)
Lemma notice_due_test self rd last :
  notice_due self rd last <->
  negb (empty_msg_emit_every self =? 0) &&
  match last with
  | None => true
  | Some t => (t =? 0) || (t + empty_msg_emit_every self <? time_check rd)
  end = true.
Proof.
  unfold notice_due.
  rewrite andb_true_iff, negb_true_iff, Z.eqb_neq.
  destruct last as [t|]; [|tauto].
  rewrite orb_true_iff, Z.eqb_eq, Z.ltb_lt. tauto.
Qed.

(** The clause for the empty queue, when the logger and [time.sleep]
    return. *)
Lemma on_error_empty_queue self rd last :
  logger_raises rd WaitingForQueue = None -> sleep_raises rd = None ->
  on_error self rd last (Exn EmptyQueue []) [] =
    if negb (empty_msg_emit_every self =? 0) &&
       match last with
       | None => true
       | Some t => (t =? 0) || (t + empty_msg_emit_every self <? time_check rd)
       end
    then (Ok (Some (time_set rd)),
          [EInfo WaitingForQueue; ESleep (queue_wakeup_after self)])
    else (Ok last, [ESleep (queue_wakeup_after self)]).
Proof.
  intros Hinfo Hsleep. unfold on_error, info. simpl.
  cbv [mbind eff_bind mret eff_ret call emit raise].
  rewrite Hsleep.
  destruct (negb (empty_msg_emit_every self =? 0)); simpl; [|reflexivity].
  match goal with
  | |- context [if ?due then _ else _] => destruct due
  end; simpl; [|reflexivity].
  by rewrite Hinfo.
Qed.

(** An idle turn, when the logger and [time.sleep] return. *)
Lemma idle_turn self rd last names pev :
  run_periodic_tasks rd [] = (Ok names, pev) ->
  fetched rd = Ok None ->
  logger_raises rd WaitingForQueue = None -> sleep_raises rd = None ->
  (notice_due self rd last ->
   run_turn self rd last [] =
     (Ok (Some (time_set rd)),
      pev ++ [EFetch; EInfo WaitingForQueue;
              ESleep (queue_wakeup_after self)])) /\
  (~ notice_due self rd last ->
   run_turn self rd last [] =
     (Ok last, pev ++ [EFetch; ESleep (queue_wakeup_after self)])).
Proof.
  intros Hperiodic Hf Hinfo Hsleep.
  rewrite (run_turn_fetch_raises self rd last names pev _ _ Hperiodic
             (fetch_next_task_empty self rd Hf)).
  simpl. rewrite (on_error_empty_queue self rd last Hinfo Hsleep).
  rewrite notice_due_test.
  destruct (negb (empty_msg_emit_every self =? 0) && _); split; done.
Qed.

End IdleTurns.



(** X14: two idle turns of a daemon just started: the first logs the
    notice and remembers when; the second, coming no later than
    [empty_msg_emit_every] after it, logs none; both sleep. *)
Theorem two_idle_turns_notice_once
    (self : Worker.TaskDaemon) (rd1 rd2 : Worker.round)
    (names1 names2 : list string) (pev1 pev2 : list Worker.event) :
  Worker.run_periodic_tasks rd1 [] = (Ok names1, pev1) ->
  Worker.run_periodic_tasks rd2 [] = (Ok names2, pev2) ->
  Worker.fetched rd1 = Ok None -> Worker.fetched rd2 = Ok None ->
  Worker.logger_raises rd1 Worker.WaitingForQueue = None ->
  Worker.sleep_raises rd1 = None -> Worker.sleep_raises rd2 = None ->
  Worker.empty_msg_emit_every self <> 0 ->
  Worker.time_set rd1 <> 0 ->
  Worker.time_check rd2
    <= Worker.time_set rd1 + Worker.empty_msg_emit_every self ->
  Worker.run self [rd1; rd2] [] =
    (Ok (Some (Worker.time_set rd1)),
     (pev1 ++
      [Worker.EFetch; Worker.EInfo Worker.WaitingForQueue;
       Worker.ESleep (Worker.queue_wakeup_after self)]) ++
     (pev2 ++
      [Worker.EFetch; Worker.ESleep (Worker.queue_wakeup_after self)])).
Proof.
  intros Hp1 Hp2 Hf1 Hf2 Hinfo Hs1 Hs2 Hevery Hset Hle.
  unfold Worker.run. simpl. cbv [mbind eff_bind mret eff_ret].
  destruct (idle_turn self rd1 None names1 pev1 Hp1 Hf1 Hinfo Hs1)
    as [Hfirst _].
  rewrite (Hfirst (conj Hevery I)).
  rewrite (appends_run_turn self rd2 (Some (Worker.time_set rd1))).
  assert (Hquiet : ~ WorkerSpec.notice_due self rd2
                       (Some (Worker.time_set rd1)))
    by (intros [_ [H|H]]; [done|lia]).
  assert (Hsecond : Worker.run_turn self rd2 (Some (Worker.time_set rd1)) [] =
            (Ok (Some (Worker.time_set rd1)),
             pev2 ++ [Worker.EFetch;
                      Worker.ESleep (Worker.queue_wakeup_after self)])).
  { rewrite (run_turn_fetch_raises self rd2 _ names2 pev2 _ _ Hp2
               (fetch_next_task_empty self rd2 Hf2)).
    simpl. unfold Worker.on_error, Worker.info. simpl.
    cbv [mbind eff_bind mret eff_ret Worker.call emit raise].
    rewrite Hs2.
    destruct (negb (Worker.empty_msg_emit_every self =? 0)); [|reflexivity].
    apply Z.eqb_neq in Hset. rewrite Hset. simpl.
    assert (Hlt : (Worker.time_set rd1 + Worker.empty_msg_emit_every self
                   <? Worker.time_check rd2) = false)
      by (apply Z.ltb_ge; lia).
    by rewrite Hlt. }
  rewrite Hsecond. reflexivity.
Qed.

Lemma two_idle_turns_notice_once_witness :
  Worker.run WorkerExample.daemon
    [WorkerExample.quiet_round (Ok None) None 1000 1001;
     WorkerExample.quiet_round (Ok None) None 1020 1021] [] =
  (Ok (Some 1001),
   [Worker.EFetch; Worker.EInfo Worker.WaitingForQueue; Worker.ESleep 1;
    Worker.EFetch; Worker.ESleep 1]).
Proof.
  apply (two_idle_turns_notice_once WorkerExample.daemon
           (WorkerExample.quiet_round (Ok None) None 1000 1001)
           (WorkerExample.quiet_round (Ok None) None 1020 1021)
           [] [] [] [] eq_refl eq_refl eq_refl eq_refl eq_refl eq_refl
           eq_refl).
  - discriminate.
  - discriminate.
  - vm_compute. discriminate.
Defined.

(** X15: [extend_kwargs_with_logging] keeps every keyword argument of the
    task, also one named [logfile] or [loglevel], which then takes the place
    of the injected value; the injected values are there only for the names
    the task does not use, and no other key is added. *)
Theorem extend_kwargs_keeps_task_kwargs
    (task : Worker.TaskWrapper) (loglevel logfile : pyval)
    (kw : gmap string pyval) :
  Worker.kwargs task = PDict kw ->
  exists r,
    Worker.extend_kwargs_with_logging task loglevel logfile =
      Ok (Worker.mkKwdict r []) /\
    (forall k v, kw !! k = Some v -> r !! k = Some v) /\
    (kw !! "logfile" = None -> r !! "logfile" = Some logfile) /\
    (kw !! "loglevel" = None -> r !! "loglevel" = Some loglevel) /\
    dom r = dom kw ∪ {[ "logfile"; "loglevel" ]}.
Proof.
  intros Hkw. unfold Worker.extend_kwargs_with_logging, Worker.update.
  rewrite Hkw. eexists. split; [reflexivity|]. repeat split.
  - intros k v Hk. by apply lookup_union_Some_l.
  - intros Hk. rewrite lookup_union_r by done. by simplify_map_eq.
  - intros Hk. rewrite lookup_union_r by done. by simplify_map_eq.
  - rewrite dom_union_L, !dom_insert_L, dom_empty_L. set_solver.
Qed.

Lemma extend_kwargs_keeps_task_kwargs_witness :
  exists r,
    Worker.extend_kwargs_with_logging
      (Worker.mkTaskWrapper (PStr "add") (PStr "7f3a") WorkerExample.add
         (PList []) (PDict {[ "logfile" := PStr "own.log" ]}))
      (PInt 40) (PStr "celery.log") = Ok (Worker.mkKwdict r []) /\
    r !! "logfile" = Some (PStr "own.log") /\
    r !! "loglevel" = Some (PInt 40).
Proof.
  destruct (extend_kwargs_keeps_task_kwargs
              (Worker.mkTaskWrapper (PStr "add") (PStr "7f3a")
                 WorkerExample.add (PList [])
                 (PDict {[ "logfile" := PStr "own.log" ]}))
              (PInt 40) (PStr "celery.log")
              {[ "logfile" := PStr "own.log" ]} eq_refl)
    as (r & Hr & Hkeep & _ & Hlevel & _).
  exists r. split; [exact Hr|]. split.
  - apply Hkeep. reflexivity.
  - apply Hlevel. reflexivity.
Defined.

(** ** The process pool *)

Section PoolShutdown.
Import PoolLife.

(** A task pool that holds no pool is left alone by every shutdown. *)
Lemma shut_all_forgotten (hows : list (shutdown * answers)) (self : TaskPool)
    log :
  _pool self = None -> shut_all self hows log = (self, log).
Proof.
  intros Hnone. induction hows as [|[how w] hows IH]; simpl; [reflexivity|].
  destruct how; simpl; unfold stop, terminate; rewrite Hnone; exact IH.
Qed.

Lemma shut_all_app (before after : list (shutdown * answers)) :
  forall (self : TaskPool) log,
    shut_all self (before ++ after) log =
      shut_all (shut_all self before log).1 after (shut_all self before log).2.
Proof.
  induction before as [|[how w] before IH]; intros self log; simpl;
    [reflexivity|].
  destruct (shut self how w log) as [[r self'] log']. apply IH.
Qed.

(** One shutdown, by its outcome: it returns without a call and keeps the
    task pool as it is, or returns after the calls and has forgotten the
    pool, or raises after a call and keeps the pool. *)
Lemma shut_cases (self : TaskPool) (how : shutdown) (w : answers) log :
  shut self how w log = (Ok tt, self, log) \/
  (exists calls,
     shut self how w log = (Ok tt, forget self, log ++ calls) /\
     (calls = [EClose; EJoin] \/ calls = [ETerminate])) \/
  (exists e calls,
     shut self how w log = (Raise e, keep self w, log ++ calls) /\
     (calls = [EClose] \/ calls = [EClose; EJoin] \/ calls = [ETerminate])).
Proof.
  destruct how; simpl; unfold stop, terminate.
  - destruct (_pool self) as [[| |]|]; auto.
    destruct (close_raises w); [right; right; eauto 10|].
    destruct (join_raises w); [right; right; eauto 10|].
    right. left. eauto.
  - destruct (_pool self) as [st|]; auto.
    destruct (terminate_raises w); [right; right; eauto 10|].
    right. left. eauto.
Qed.

End PoolShutdown.

(** X16: [stop] on a task pool whose pool is not in state [RUN], or that
    holds none, makes no call and keeps the task pool as it is.  A [stop]
    whose [join()] raises has closed the pool and keeps it, so that
    [terminate] still reaches it.  And whatever sequence of [stop] and
    [terminate] calls a task pool gets, and whatever the pool answers, the
    first of them that goes through, making its calls and returning, is the
    last to touch a pool: the pool is forgotten, and every later call of
    the sequence does nothing. *)
Theorem pool_is_shut_down_at_most_once
    (self : PoolLife.TaskPool) (w w' : PoolLife.answers) (e : exn)
    (before after : list (PoolLife.shutdown * PoolLife.answers))
    (how : PoolLife.shutdown) :
  (PoolLife._pool self <> Some PoolLife.RUN ->
   forall log, PoolLife.stop self w log = (Ok tt, self, log)) /\
  (PoolLife._pool self = Some PoolLife.RUN ->
   PoolLife.close_raises w = None -> PoolLife.join_raises w = Some e ->
   PoolLife.stop self w [] =
     (Raise e, PoolLife.keep self w, [PoolLife.EClose; PoolLife.EJoin]) /\
   (PoolLife.terminate_raises w' = None ->
    PoolLife.shut_all self
      [(PoolLife.Stop, w); (PoolLife.Terminate, w')] [] =
      (PoolLife.forget self,
       [PoolLife.EClose; PoolLife.EJoin; PoolLife.ETerminate]))) /\
  (let '(pool, log) := PoolLife.shut_all self before [] in
   forall pool' calls,
     PoolLife.shut pool how w log = (Ok tt, pool', log ++ calls) ->
     calls <> [] ->
     PoolLife._pool pool' = None /\
     (calls = [PoolLife.EClose; PoolLife.EJoin] \/
      calls = [PoolLife.ETerminate]) /\
     PoolLife.shut_all self (before ++ (how, w) :: after) [] =
       (pool', log ++ calls)).
Proof.
  split; [|split].
  - intros Hstate log. unfold PoolLife.stop.
    destruct (PoolLife._pool self) as [[| |]|]; congruence.
  - intros Hrun Hclose Hjoin.
    simpl. unfold PoolLife.stop, PoolLife.terminate.
    rewrite Hrun, Hclose, Hjoin. simpl. split; [reflexivity|].
    by intros ->.
  - destruct (PoolLife.shut_all self before []) as [pool log] eqn:Hbefore.
    intros pool' calls Hshut Hcalls.
    assert (Hcases : PoolLife._pool pool' = None /\
              (calls = [PoolLife.EClose; PoolLife.EJoin] \/
               calls = [PoolLife.ETerminate])).
    { destruct (shut_cases pool how w log)
        as [H|[(calls' & H & Hc)|(e' & calls' & H & _)]];
        rewrite H in Hshut.
      - injection Hshut as _ Hlog.
        rewrite <- (app_nil_r log) in Hlog at 1.
        apply app_inv_head in Hlog. congruence.
      - injection Hshut as <- Hlog. apply app_inv_head in Hlog.
        by subst calls'.
      - discriminate Hshut. }
    destruct Hcases as [Hnone Hc]. split; [exact Hnone|]. split; [exact Hc|].
    rewrite shut_all_app, Hbefore. simpl. rewrite Hshut.
    by apply shut_all_forgotten.
Qed.

Lemma pool_is_shut_down_at_most_once_witness :
  let running := PoolLife.mkTaskPool (PInt 4) true (Some PoolLife.RUN) in
  let closed := PoolLife.mkTaskPool (PInt 4) true (Some PoolLife.CLOSE) in
  let interrupted :=
    PoolLife.mkAnswers None (Some (Exn KeyboardInterrupt [])) None
      PoolLife.CLOSE in
  PoolLife.stop closed PoolLife.obliging [] = (Ok tt, closed, []) /\
  PoolLife.shut_all running
    [(PoolLife.Stop, interrupted); (PoolLife.Terminate, PoolLife.obliging)]
    [] =
    (PoolLife.forget running,
     [PoolLife.EClose; PoolLife.EJoin; PoolLife.ETerminate]) /\
  PoolLife.shut_all running
    ([(PoolLife.Stop, interrupted)] ++
     (PoolLife.Terminate, PoolLife.obliging) ::
     [(PoolLife.Stop, PoolLife.obliging);
      (PoolLife.Terminate, PoolLife.obliging)]) [] =
    (PoolLife.forget running,
     [PoolLife.EClose; PoolLife.EJoin] ++ [PoolLife.ETerminate]).
Proof.
  intros running closed interrupted. split; [|split].
  - apply (pool_is_shut_down_at_most_once closed PoolLife.obliging
             PoolLife.obliging (Exn KeyboardInterrupt []) [] []
             PoolLife.Stop).
    discriminate.
  - apply (pool_is_shut_down_at_most_once running interrupted
             PoolLife.obliging (Exn KeyboardInterrupt []) [] []
             PoolLife.Stop); reflexivity.
  - pose proof (pool_is_shut_down_at_most_once running PoolLife.obliging
                  PoolLife.obliging (Exn KeyboardInterrupt [])
                  [(PoolLife.Stop, interrupted)]
                  [(PoolLife.Stop, PoolLife.obliging);
                   (PoolLife.Terminate, PoolLife.obliging)]
                  PoolLife.Terminate) as (_ & _ & Hlast).
    subst running interrupted. simpl in Hlast.
    apply (Hlast _ [PoolLife.ETerminate] eq_refl). discriminate.
Defined.

(** X17: a task pool that was stopped while running, the pool having closed
    and joined without an exception, takes no more work: [apply_async]
    writes its debug line and raises [AttributeError], nothing reaches a
    pool, and [grow] and [shrink] raise as well. *)
Theorem stopped_pool_takes_no_work
    (self : PoolLife.TaskPool) (w : PoolLife.answers) (target : string)
    (args kwargs : pyval)
    (callbacks errbacks : option (list Pool.callback)) (n : Z) :
  PoolLife._pool self = Some PoolLife.RUN ->
  PoolLife.close_raises w = None -> PoolLife.join_raises w = None ->
  exists stopped,
    PoolLife.stop self w [] =
      (Ok tt, stopped, [PoolLife.EClose; PoolLife.EJoin]) /\
    PoolLife.apply_async stopped target args kwargs callbacks errbacks [] =
      (Raise (PoolLife.none_has_no "apply_async"),
       [PoolLife.EDebug target (py_or args (PList []))
          (py_or kwargs (PDict ∅))]) /\
    PoolLife.grow stopped n [] = (Raise (PoolLife.none_has_no "grow"), []) /\
    PoolLife.shrink stopped n [] =
      (Raise (PoolLife.none_has_no "shrink"), []).
Proof.
  intros Hrun Hclose Hjoin. unfold PoolLife.stop.
  rewrite Hrun, Hclose, Hjoin.
  eexists. split; [reflexivity|]. repeat split.
Qed.

Lemma stopped_pool_takes_no_work_witness :
  exists stopped,
    PoolLife.stop (PoolLife.mkTaskPool (PInt 4) true (Some PoolLife.RUN))
      PoolLife.obliging [] =
      (Ok tt, stopped, [PoolLife.EClose; PoolLife.EJoin]) /\
    PoolLife.apply_async stopped "add" (PList [PInt 2; PInt 3]) PNone
      None None [] =
      (Raise (PoolLife.none_has_no "apply_async"),
       [PoolLife.EDebug "add" (PList [PInt 2; PInt 3]) (PDict ∅)]).
Proof.
  destruct (stopped_pool_takes_no_work
              (PoolLife.mkTaskPool (PInt 4) true (Some PoolLife.RUN))
              PoolLife.obliging
              "add" (PList [PInt 2; PInt 3]) PNone None None 1 eq_refl
              eq_refl eq_refl)
    as (stopped & Hstop & Happly & _).
  exists stopped. split; [exact Hstop|exact Happly].
Defined.

Section ErrorPath.
Import Pool.

Lemma for_each_call_returning (fs : list callback) (arg : ret_value) :
  (forall g, g ∈ fs -> cb_call g arg = None) ->
  forall tr,
    for_each (fun f => call f arg) fs tr =
      (Ok tt, tr ++ map (fun f => ECall f arg) fs).
Proof.
  induction fs as [|f fs IH]; intros Hall tr; simpl.
  - by rewrite app_nil_r.
  - cbv [mbind eff_bind]. unfold call at 1.
    cbv [mbind eff_bind mret eff_ret emit]. simpl.
    rewrite (Hall f) by apply list_elem_of_here.
    rewrite IH by (intros g Hg; apply Hall; by apply list_elem_of_further).
    by rewrite <- app_assoc.
Qed.

Lemma appends_for_each_call (fs : list callback) (arg : ret_value) :
  appends (for_each (fun f => call f arg) fs).
Proof.
  induction fs as [|f fs IH]; simpl.
  - apply appends_ret.
  - apply appends_bind; [|intros; exact IH].
    unfold call. appends_tac.
Qed.

End ErrorPath.

(** X18: [on_worker_error] wraps the worker's exception, whatever its class,
    into an exception info without traceback and applies the failure
    callbacks to it in order, up to and including the first one that
    raises, whose exception it lets out; when none raises, every one is
    applied exactly once. *)
Theorem on_worker_error_applies_until_first_raise
    (errbacks : list Pool.callback) (exc : exn) :
  let einfo := Pool.Einfo (Pool.mkExceptionInfo exc None) in
  ((forall g, g ∈ errbacks -> Pool.cb_call g einfo = None) ->
   Pool.on_worker_error errbacks exc [] =
     (Ok tt, map (fun f => Pool.ECall f einfo) errbacks)) /\
  (forall pre f post e,
     errbacks = pre ++ f :: post ->
     (forall g, g ∈ pre -> Pool.cb_call g einfo = None) ->
     Pool.cb_call f einfo = Some e ->
     Pool.on_worker_error errbacks exc [] =
       (Raise e, map (fun f => Pool.ECall f einfo) (pre ++ [f]))).
Proof.
  intros einfo. unfold Pool.on_worker_error. fold einfo. split.
  - intros Hall. by rewrite for_each_call_returning.
  - intros pre f post e -> Hpre Hf.
    induction pre as [|g pre IH]; simpl.
    + cbv [mbind eff_bind]. unfold Pool.call.
      cbv [mbind eff_bind mret eff_ret emit raise]. simpl. by rewrite Hf.
    + cbv [mbind eff_bind]. unfold Pool.call at 1.
      cbv [mbind eff_bind mret eff_ret emit]. simpl.
      rewrite (Hpre g) by apply list_elem_of_here.
      assert (Hpre' : forall g0, g0 ∈ pre -> Pool.cb_call g0 einfo = None)
        by (intros g0 Hg0; apply Hpre; by apply list_elem_of_further).
      rewrite (appends_for_each_call (pre ++ f :: post) einfo
                 [Pool.ECall g einfo]), (IH Hpre').
      reflexivity.
Qed.

Lemma on_worker_error_applies_until_first_raise_witness :
  let einfo := Pool.Einfo (Pool.mkExceptionInfo PoolExample.worker_error None) in
  Pool.on_worker_error [PoolExample.recording; PoolExample.recording]
    PoolExample.worker_error [] =
  (Ok tt, [Pool.ECall PoolExample.recording einfo;
           Pool.ECall PoolExample.recording einfo]).
Proof.
  intros einfo.
  apply (on_worker_error_applies_until_first_raise
           [PoolExample.recording; PoolExample.recording]
           PoolExample.worker_error).
  intros g Hg. rewrite !elem_of_cons, elem_of_nil in Hg.
  destruct Hg as [->|[->|[]]]; reflexivity.
Defined.

Section LoggedErrors.
Import Pool PoolLife.

Lemma logged_errors_app (l1 l2 : list Pool.event) :
  logged_errors (l1 ++ l2) = logged_errors l1 ++ logged_errors l2.
Proof. apply omap_app. Qed.

Lemma for_each_safe_errors (fs : list callback) (arg : ret_value) :
  forall tr,
    logged_errors
      (for_each (fun f => safe_apply_callback f arg) fs tr).2 =
    logged_errors tr ++ omap (fun f => cb_call f arg) fs.
Proof.
  induction fs as [|f fs IH]; intros tr; simpl.
  - by rewrite app_nil_r.
  - cbv [mbind eff_bind].
    destruct (safe_apply_callback_once f arg tr) as (log1 & H1 & _).
    assert (Hlog1 : logged_errors log1 =
                    match cb_call f arg with Some e => [e] | None => [] end).
    { revert H1. unfold safe_apply_callback, try_except, call.
      cbv [mbind eff_bind mret eff_ret emit raise].
      destruct (cb_call f arg); simpl; intros [= H];
        rewrite <- ?app_assoc in H; apply app_inv_head in H; by subst. }
    rewrite H1, IH, logged_errors_app, Hlog1, <- app_assoc.
    by destruct (cb_call f arg).
Qed.

End LoggedErrors.

(** X19: on the [on_ready] path every exception a callback raises is
    recorded by the logger, once and in the order of the callbacks, and
    nothing else is: the logged exceptions are those of the success
    callbacks for a plain value, of the failure callbacks for an exception
    info that is not fatal. *)
Theorem on_ready_logs_each_callback_exception
    (callbacks errbacks : list Pool.callback) (ret_value : Pool.ret_value) :
  PoolLife.logged_errors (Pool.on_ready callbacks errbacks ret_value []).2 =
  match ret_value with
  | Pool.Value _ => omap (fun f => Pool.cb_call f ret_value) callbacks
  | Pool.Einfo einfo =>
      if Pool.is_fatal (Pool.exception einfo) then []
      else omap (fun f => Pool.cb_call f ret_value) errbacks
  end.
Proof.
  unfold Pool.on_ready. destruct ret_value as [v|einfo].
  - by rewrite for_each_safe_errors.
  - destruct (Pool.is_fatal (Pool.exception einfo)); [reflexivity|].
    by rewrite for_each_safe_errors.
Qed.

(** ** Publishing, step by step *)

Section DelayTaskCases.
Import Amqp.

Lemma resolve_countdown_cases (c : delay_call) (w : surroundings) :
  (truthy (countdown c) = false /\
   resolve_countdown c w [] = (Ok (None, eta c), [])) \/
  (truthy (countdown c) = true /\
   ((exists eta, resolve_countdown c w [] =
                   (Ok (Some (clock w 0), eta), [ENow (clock w 0)])) \/
    (exists e, resolve_countdown c w [] = (Raise e, [ENow (clock w 0)])))).
Proof.
  unfold resolve_countdown.
  cbv [mbind eff_bind mret eff_ret lift datetime_now].
  destruct (truthy (countdown c)); simpl; [right|left]; split; try done.
  destruct (timedelta_seconds (float_seconds w) (countdown c)) as [delta|e]; simpl; [|eauto].
  destruct (datetime_add (clock w 0) delta); simpl; eauto.
Qed.

Lemma validate_cases (a k : pyval) (log : list event) :
  (is_sequence a = true /\ is_dict k = true /\
   validate a k log = (Ok tt, log)) \/
  (exists e, validate a k log = (Raise e, log)).
Proof.
  unfold validate. cbv [mbind eff_bind mret eff_ret raise].
  destruct (is_sequence a); [|eauto].
  destruct (is_dict k); [|eauto]. by left.
Qed.

Lemma resolve_expires_cases (c : delay_call) (w : surroundings)
    (now : option Z) (log : list event) :
  exists r,
    (resolve_expires c w now log = (r, log) /\
     (int_value (expires c) = None \/ is_Some now)) \/
    (now = None /\ is_Some (int_value (expires c)) /\
     resolve_expires c w now log =
       (r, log ++ [ENow (clock w (length (readings log)))])).
Proof.
  unfold resolve_expires.
  cbv [mbind eff_bind mret eff_ret lift datetime_now].
  destruct (int_value (expires c)) as [n|]; simpl; [|eauto].
  destruct now as [now|]; simpl.
  - destruct (timedelta_seconds (float_seconds w) (expires c)) as [delta|e]; simpl; [|eauto].
    destruct (datetime_add now delta); simpl; eauto.
  - destruct (timedelta_seconds (float_seconds w) (expires c)) as [delta|e]; simpl;
      [|eexists; right; eauto].
    destruct (datetime_add _ delta); simpl; eexists; right; eauto.
Qed.

(** Everything a call of [delay_task] can come to: an exception before
    anything is sent, after at most one reading of the clock; or one send of
    the envelope, followed by the signal if the send returns. *)
Lemma delay_task_cases (self : TaskPublisher) (c : delay_call)
    (w : surroundings) :
  let out := delay_task self c w [] in
  let tid := py_or (task_id c) (PStr (unique_id w)) in
  let a := py_or (task_args c) (PList []) in
  let k := py_or (task_kwargs c) (PDict ∅) in
  let self' := retarget self c in
  let opts := extract_msg_options (kwargs c) in
  exists pre,
    (pre = [] \/ pre = [ENow (clock w 0)]) /\
    (truthy (countdown c) = false -> int_value (expires c) = None ->
     pre = []) /\
    ((exists e, out = (Raise e, pre)) \/
     (exists eta_text expires_text,
        let md := message_data_of c tid a k eta_text expires_text in
        is_sequence a = true /\ is_dict k = true /\
        (truthy (countdown c) = false ->
         and_isoformat (eta c) = Ok eta_text) /\
        out =
          match send_raises w with
          | Some e => (Raise e, pre ++ [ESend (exchange self') md opts false])
          | None =>
              (Ok (tid, self'),
               pre ++ [ESend (exchange self') md opts true;
                       ETaskSent (task_name c) md])
          end)).
Proof.
  intros out tid a k self' opts. subst out. unfold delay_task.
  fold tid a k self' opts. cbv [mbind eff_bind].
  destruct (resolve_countdown_cases c w)
    as [[Hcd ->]|[Hcd [[eta' ->]|[e ->]]]].
  - (* no countdown *)
    destruct (validate_cases a k []) as [(Ha & Hk & ->)|[e ->]];
      [|exists []; split; [by left|]; split; [done|]; left; eauto].
    destruct (resolve_expires_cases c w None []) as [r [[-> Hwhy]|(_ & Hint & ->)]].
    + destruct r as [expires'|e];
        [|exists []; split; [by left|]; split; [done|]; left; eauto].
      cbv [lift].
      destruct (and_isoformat (eta c)) as [eta_text|e] eqn:Heta;
        [|exists []; split; [by left|]; split; [done|]; left; eauto].
      destruct (and_isoformat expires') as [expires_text|e];
        [|exists []; split; [by left|]; split; [done|]; left; eauto].
      exists []. split; [by left|]. split; [done|]. right.
      exists eta_text, expires_text. split; [exact Ha|]. split; [exact Hk|].
      split; [done|].
      unfold send_and_signal. cbv [mbind eff_bind mret eff_ret emit raise].
      by destruct (send_raises w).
    + simpl.
      assert (Hpre : forall (P : Prop),
                 (truthy (countdown c) = false ->
                  int_value (expires c) = None -> P)).
      { intros P _ Hnone. rewrite Hnone in Hint. by destruct Hint. }
      destruct r as [expires'|e];
        [|exists [ENow (clock w 0)]; split; [by right|];
          split; [apply Hpre|]; left; eauto].
      cbv [lift].
      destruct (and_isoformat (eta c)) as [eta_text|e] eqn:Heta;
        [|exists [ENow (clock w 0)]; split; [by right|];
          split; [apply Hpre|]; left; eauto].
      destruct (and_isoformat expires') as [expires_text|e];
        [|exists [ENow (clock w 0)]; split; [by right|];
          split; [apply Hpre|]; left; eauto].
      exists [ENow (clock w 0)]. split; [by right|].
      split; [apply Hpre|]. right.
      exists eta_text, expires_text. split; [exact Ha|]. split; [exact Hk|].
      split; [done|].
      unfold send_and_signal. cbv [mbind eff_bind mret eff_ret emit raise].
      by destruct (send_raises w).
  - (* countdown resolved *)
    assert (Hpre : forall (P : Prop),
               (truthy (countdown c) = false ->
                int_value (expires c) = None -> P)) by congruence.
    destruct (validate_cases a k [ENow (clock w 0)])
      as [(Ha & Hk & ->)|[e ->]];
      [|exists [ENow (clock w 0)]; split; [by right|];
        split; [apply Hpre|]; left; eauto].
    destruct (resolve_expires_cases c w (Some (clock w 0)) [ENow (clock w 0)])
      as [r [[-> _]|(Hnone & _)]]; [|discriminate].
    destruct r as [expires'|e];
      [|exists [ENow (clock w 0)]; split; [by right|];
        split; [apply Hpre|]; left; eauto].
    cbv [lift].
    destruct (and_isoformat eta') as [eta_text|e];
      [|exists [ENow (clock w 0)]; split; [by right|];
        split; [apply Hpre|]; left; eauto].
    destruct (and_isoformat expires') as [expires_text|e];
      [|exists [ENow (clock w 0)]; split; [by right|];
        split; [apply Hpre|]; left; eauto].
    exists [ENow (clock w 0)]. split; [by right|].
    split; [apply Hpre|]. right.
    exists eta_text, expires_text. split; [exact Ha|]. split; [exact Hk|].
    split; [congruence|].
    unfold send_and_signal. cbv [mbind eff_bind mret eff_ret emit raise].
    by destruct (send_raises w).
  - exists [ENow (clock w 0)]. split; [by right|].
    split; [congruence|]. left. eauto.
Qed.

End DelayTaskCases.

Section EnvelopeFacts.
Import Amqp.

Lemma message_data_lookup (c : delay_call) (i a k e x : pyval) :
  let md := message_data_of c i a k e x in
  md !! "task" = Some (task_name c) /\ md !! "id" = Some i /\
  md !! "args" = Some (py_or a (PList [])) /\
  md !! "kwargs" = Some (py_or k (PDict ∅)) /\
  md !! "retries" = Some (default (PInt 0) (kwargs c !! "retries")) /\
  md !! "taskset" =
    (if truthy (taskset_id c) then Some (taskset_id c) else None).
Proof.
  unfold message_data_of. destruct (truthy (taskset_id c));
    repeat split; by simplify_map_eq.
Qed.

Lemma message_data_dom (c : delay_call) (i a k e x : pyval) :
  dom (message_data_of c i a k e x) =
    {[ "task"; "id"; "args"; "kwargs"; "retries"; "eta"; "expires" ]} ∪
    (if truthy (taskset_id c) then {[ "taskset" ]} else ∅).
Proof.
  unfold message_data_of. destruct (truthy (taskset_id c));
    rewrite !dom_insert_L, dom_empty_L; set_solver.
Qed.

Lemma py_or_sequence (a : pyval) :
  is_sequence a = true -> is_sequence (py_or a (PList [])) = true.
Proof. unfold py_or. by destruct (truthy a). Qed.

Lemma py_or_dict (k : pyval) :
  is_dict k = true -> is_dict (py_or k (PDict ∅)) = true.
Proof. unfold py_or. by destruct (truthy k). Qed.

End EnvelopeFacts.

(** X20: one call of [delay_task] reads the clock at most once, whatever it
    is given and however it ends, and not at all when there is neither a
    countdown that counts nor an integer [expires]. *)
Theorem delay_task_reads_clock_at_most_once
    (self : Amqp.TaskPublisher) (c : Amqp.delay_call) (w : Amqp.surroundings) :
  let log := (Amqp.delay_task self c w []).2 in
  (Amqp.readings log = [] \/ Amqp.readings log = [Amqp.clock w 0]) /\
  (truthy (Amqp.countdown c) = false ->
   Amqp.int_value (Amqp.expires c) = None -> Amqp.readings log = []).
Proof.
  intros log. subst log.
  destruct (delay_task_cases self c w)
    as (pre & Hpre & Hnone & [[e ->]|(et & xt & _ & _ & _ & ->)]).
  - simpl. split.
    + destruct Hpre as [->| ->]; [by left|by right].
    + intros H1 H2. by rewrite (Hnone H1 H2).
  - assert (Hsame : forall l,
               (l = [Amqp.ESend (Amqp.exchange (Amqp.retarget self c))
                       (Amqp.message_data_of c
                          (py_or (Amqp.task_id c) (PStr (Amqp.unique_id w)))
                          (py_or (Amqp.task_args c) (PList []))
                          (py_or (Amqp.task_kwargs c) (PDict ∅)) et xt)
                       (Amqp.extract_msg_options (Amqp.kwargs c)) false] \/
                exists md, l = [Amqp.ESend (Amqp.exchange (Amqp.retarget self c))
                                  md (Amqp.extract_msg_options (Amqp.kwargs c))
                                  true;
                                Amqp.ETaskSent (Amqp.task_name c) md]) ->
               Amqp.readings (pre ++ l) = Amqp.readings pre).
    { intros l Hl. rewrite readings_app.
      destruct Hl as [->|[md ->]]; simpl; by rewrite app_nil_r. }
    destruct (Amqp.send_raises w); simpl; rewrite Hsame by eauto.
    all: split; [destruct Hpre as [->| ->]; [by left|by right]|].
    all: intros H1 H2; by rewrite (Hnone H1 H2).
Qed.

Lemma delay_task_reads_clock_at_most_once_witness :
  Amqp.readings
    (Amqp.delay_task PublishExample.publisher PublishExample.call_zero
       PublishExample.surroundings []).2 = [].
Proof.
  apply (delay_task_reads_clock_at_most_once PublishExample.publisher
           PublishExample.call_zero PublishExample.surroundings);
    reflexivity.
Defined.

(** X21: when [delay_task] returns, the id it returns is the one passed in,
    or the generated one if none was passed; exactly one envelope was sent,
    carrying that id and the task name, to the exchange the publisher has
    after the call, and the [task_sent] signal followed with the same
    envelope. *)
Theorem delay_task_returns_id_of_sent_envelope
    (self self' : Amqp.TaskPublisher) (c : Amqp.delay_call)
    (w : Amqp.surroundings) (tid : pyval) (log : list Amqp.event) :
  Amqp.delay_task self c w [] = (Ok (tid, self'), log) ->
  tid = py_or (Amqp.task_id c) (PStr (Amqp.unique_id w)) /\
  self' = Amqp.retarget self c /\
  exists pre md,
    log = pre ++ [Amqp.ESend (Amqp.exchange self') md
                    (Amqp.extract_msg_options (Amqp.kwargs c)) true;
                  Amqp.ETaskSent (Amqp.task_name c) md] /\
    Amqp.no_io pre /\
    md !! "id" = Some tid /\ md !! "task" = Some (Amqp.task_name c).
Proof.
  destruct (delay_task_cases self c w)
    as (pre & Hpre & _ & [[e ->]|(et & xt & _ & _ & _ & ->)]);
    [discriminate|].
  destruct (Amqp.send_raises w); [discriminate|].
  intros [= <- <- <-]. split; [reflexivity|]. split; [reflexivity|].
  eexists pre, _. split; [reflexivity|]. split.
  - intros ev Hin. destruct Hpre as [->| ->].
    + by apply elem_of_nil in Hin.
    + by apply list_elem_of_singleton in Hin as ->.
  - split; apply message_data_lookup.
Qed.

Lemma delay_task_returns_id_of_sent_envelope_witness :
  exists self' log,
    Amqp.delay_task PublishExample.publisher PublishExample.call_ten
      PublishExample.surroundings [] = (Ok (PStr "id-1", self'), log) /\
    PStr "id-1" = py_or (Amqp.task_id PublishExample.call_ten)
                    (PStr (Amqp.unique_id PublishExample.surroundings)).
Proof.
  assert (H : exists self' log,
             Amqp.delay_task PublishExample.publisher PublishExample.call_ten
               PublishExample.surroundings [] = (Ok (PStr "id-1", self'), log))
    by (vm_compute; eauto).
  destruct H as (self' & log & H). exists self', log. split; [exact H|].
  apply (delay_task_returns_id_of_sent_envelope _ _ _ _ _ _ H).
Defined.

(** X22: when [Publisher.send] raises, [delay_task] raises too and the
    [task_sent] signal is not sent. *)
Theorem failed_send_sends_no_signal
    (self : Amqp.TaskPublisher) (c : Amqp.delay_call) (w : Amqp.surroundings)
    (e : exn) :
  Amqp.send_raises w = Some e ->
  let out := Amqp.delay_task self c w [] in
  (exists e', out.1 = Raise e') /\
  forall sender md, Amqp.ETaskSent sender md ∉ out.2.
Proof.
  intros Hsend out. subst out.
  destruct (delay_task_cases self c w)
    as (pre & Hpre & _ & [[e' ->]|(et & xt & _ & _ & _ & ->)]).
  - split; [eauto|]. intros sender md Hin. simpl in Hin.
    destruct Hpre as [->| ->]; rewrite ?elem_of_cons, elem_of_nil in Hin;
      intuition discriminate.
  - rewrite Hsend. split; [eauto|]. intros sender md Hin. simpl in Hin.
    destruct Hpre as [->| ->]; simpl in Hin;
      rewrite ?elem_of_cons, elem_of_nil in Hin; intuition discriminate.
Qed.

Lemma failed_send_sends_no_signal_witness :
  exists e',
    (Amqp.delay_task PublishExample.publisher PublishExample.call_ten
       (Amqp.mkSurroundings (fun n => 63400000000000000) "id-1"
          (Some (Exn (OtherException "IOError") []))
          PublishExample.nearest_microsecond) []).1 = Raise e'.
Proof.
  apply (failed_send_sends_no_signal PublishExample.publisher
           PublishExample.call_ten
           (Amqp.mkSurroundings (fun n => 63400000000000000) "id-1"
              (Some (Exn (OtherException "IOError") []))
              PublishExample.nearest_microsecond)
           (Exn (OtherException "IOError") []) eq_refl).
Defined.

(** X23: every envelope [delay_task] hands to the broker has the keys
    [task], [id], [args], [kwargs], [retries], [eta] and [expires], and
    [taskset] exactly when a truthy taskset id was passed; its [args] is a
    list or a tuple, its [kwargs] a dict, and [retries] is [0] unless the
    caller gave one. *)
Theorem sent_envelope_is_well_formed
    (self : Amqp.TaskPublisher) (c : Amqp.delay_call) (w : Amqp.surroundings)
    (md : gmap string pyval) :
  md ∈ Amqp.envelopes (Amqp.delay_task self c w []).2 ->
  dom md =
    {[ "task"; "id"; "args"; "kwargs"; "retries"; "eta"; "expires" ]} ∪
    (if truthy (Amqp.taskset_id c) then {[ "taskset" ]} else ∅) /\
  (exists a, md !! "args" = Some a /\ Amqp.is_sequence a = true) /\
  (exists k, md !! "kwargs" = Some k /\ Amqp.is_dict k = true) /\
  md !! "retries" = Some (default (PInt 0) (Amqp.kwargs c !! "retries")).
Proof.
  destruct (delay_task_cases self c w)
    as (pre & Hpre & _ & [[e ->]|(et & xt & Ha & Hk & _ & ->)]).
  - simpl. destruct Hpre as [->| ->]; by intros ?%elem_of_nil.
  - assert (Henv : forall l, Amqp.envelopes (pre ++ l) = Amqp.envelopes l).
    { intros l. rewrite envelopes_app.
      by destruct Hpre as [->| ->]. }
    destruct (Amqp.send_raises w); simpl; rewrite Henv; simpl;
      intros ->%list_elem_of_singleton.
    all: split; [apply message_data_dom|].
    all: destruct (message_data_lookup c
                     (py_or (Amqp.task_id c) (PStr (Amqp.unique_id w)))
                     (py_or (Amqp.task_args c) (PList []))
                     (py_or (Amqp.task_kwargs c) (PDict ∅)) et xt)
           as (_ & _ & Hargs & Hkwargs & Hretries & _).
    all: split; [eexists; split; [exact Hargs|by apply py_or_sequence]|].
    all: split; [eexists; split; [exact Hkwargs|by apply py_or_dict]|].
    all: exact Hretries.
Qed.

Lemma sent_envelope_is_well_formed_witness :
  exists md,
    Amqp.envelopes
      (Amqp.delay_task PublishExample.publisher PublishExample.call_ten
         PublishExample.surroundings []).2 = [md] /\
    md !! "retries" = Some (PInt 0).
Proof.
  assert (Henv : exists md,
             Amqp.envelopes
               (Amqp.delay_task PublishExample.publisher
                  PublishExample.call_ten PublishExample.surroundings []).2
             = [md]) by (vm_compute; eauto).
  destruct Henv as [md Henv]. exists md. split; [exact Henv|].
  apply (sent_envelope_is_well_formed PublishExample.publisher
           PublishExample.call_ten PublishExample.surroundings md).
  rewrite Henv. apply list_elem_of_singleton. reflexivity.
Defined.

(** ** Queues and consumers *)

Section QueueDefaults.
Import AmqpQueues.

Lemma lookup_setdefault (key : string) (value : pyval)
    (d : gmap string pyval) (k : string) :
  setdefault key value d !! k =
    if decide (key = k) then Some (default value (d !! key)) else d !! k.
Proof.
  unfold setdefault. destruct (d !! key) as [v|] eqn:Hd.
  - destruct (decide (key = k)) as [<-|]; [by rewrite Hd|done].
  - destruct (decide (key = k)) as [<-|]; [by rewrite lookup_insert_eq|].
    by rewrite lookup_insert_ne.
Qed.

Lemma setdefault_present (key : string) (value : pyval)
    (d : gmap string pyval) :
  is_Some (d !! key) -> setdefault key value d = d.
Proof. intros [v Hv]. unfold setdefault. by rewrite Hv. Qed.

Lemma dom_setdefault (key : string) (value : pyval) (d : gmap string pyval) :
  dom (setdefault key value d) = {[ key ]} ∪ dom d.
Proof.
  unfold setdefault. destruct (d !! key) as [v|] eqn:Hd.
  - apply (elem_of_dom_2 (D := gset string)) in Hd. set_solver.
  - by rewrite dom_insert_L.
Qed.

(** What [_defaults] leaves under every key. *)
Lemma lookup_defaults (c : conf) (opts : gmap string pyval) (k : string) :
  _defaults c opts !! k =
    if decide (k = "routing_key") then
      Some (default (default (CELERY_DEFAULT_EXCHANGE c)
                       (opts !! "binding_key"))
              (opts !! "routing_key"))
    else if decide (k = "binding_key") then
      Some (default (CELERY_DEFAULT_EXCHANGE c) (opts !! "binding_key"))
    else if decide (k = "exchange_type") then
      Some (default (CELERY_DEFAULT_EXCHANGE_TYPE c)
              (opts !! "exchange_type"))
    else if decide (k = "exchange") then
      Some (default (CELERY_DEFAULT_EXCHANGE c) (opts !! "exchange"))
    else opts !! k.
Proof.
  unfold _defaults, get. rewrite !lookup_setdefault.
  repeat (case_decide; simplify_eq; try done).
Qed.

Lemma defaults_idempotent (c : conf) (opts : gmap string pyval) :
  _defaults c (_defaults c opts) = _defaults c opts.
Proof.
  apply map_eq. intros k. rewrite (lookup_defaults c (_defaults c opts)).
  rewrite !lookup_defaults. simpl.
  repeat (case_decide; simplify_eq; try done).
Qed.

End QueueDefaults.

(** X24: [get_queues] completes the options of every configured queue and
    overwrites none: what the configuration gives is kept, a missing
    [exchange] or [exchange_type] gets the default, a missing
    [binding_key] gets the name of the default exchange (not of the queue's
    own exchange), a missing [routing_key] gets the binding key, and no
    other key is added. *)
Theorem get_queues_completes_options
    (c : AmqpQueues.conf) (q : string) (opts : gmap string pyval) :
  AmqpQueues.CELERY_QUEUES c !! q = Some opts ->
  exists opts',
    (AmqpQueues.get_queues c).1 !! q = Some opts' /\
    (forall k v, opts !! k = Some v -> opts' !! k = Some v) /\
    opts' !! "exchange" =
      Some (default (AmqpQueues.CELERY_DEFAULT_EXCHANGE c)
              (opts !! "exchange")) /\
    opts' !! "exchange_type" =
      Some (default (AmqpQueues.CELERY_DEFAULT_EXCHANGE_TYPE c)
              (opts !! "exchange_type")) /\
    opts' !! "binding_key" =
      Some (default (AmqpQueues.CELERY_DEFAULT_EXCHANGE c)
              (opts !! "binding_key")) /\
    opts' !! "routing_key" =
      Some (default (default (AmqpQueues.CELERY_DEFAULT_EXCHANGE c)
                       (opts !! "binding_key"))
              (opts !! "routing_key")) /\
    dom opts' =
      dom opts ∪ {[ "exchange"; "exchange_type"; "binding_key";
                    "routing_key" ]}.
Proof.
  intros Hq. exists (AmqpQueues._defaults c opts). split.
  - unfold AmqpQueues.get_queues. simpl. by rewrite lookup_fmap, Hq.
  - split; [|repeat split; try (by rewrite lookup_defaults)].
    + intros k v Hk. rewrite lookup_defaults.
      repeat (case_decide; simplify_eq; try (by rewrite ?Hk)).
    + unfold AmqpQueues._defaults. rewrite !dom_setdefault. set_solver.
Qed.

Lemma get_queues_completes_options_witness :
  exists opts',
    (AmqpQueues.get_queues AmqpQueuesExample.conf).1 !! "video" = Some opts' /\
    opts' !! "exchange" = Some (PStr "media") /\
    opts' !! "binding_key" = Some (PStr "celery") /\
    opts' !! "routing_key" = Some (PStr "celery").
Proof.
  destruct (get_queues_completes_options AmqpQueuesExample.conf "video"
              {[ "exchange" := PStr "media" ]})
    as (opts' & Hq & _ & Hex & _ & Hbind & Hroute & _).
  { vm_compute. reflexivity. }
  exists opts'. split; [exact Hq|]. split; [exact Hex|].
  split; [exact Hbind|exact Hroute].
Defined.

(** X25: [get_queues] can be called again and again: the configuration
    holds the completed options after the first call, a second call returns
    the same queues and changes nothing, and the queue names are those of
    the configuration all along. *)
Theorem get_queues_is_idempotent (c : AmqpQueues.conf) :
  let first := AmqpQueues.get_queues c in
  AmqpQueues.CELERY_QUEUES first.2 = first.1 /\
  AmqpQueues.get_queues first.2 = first /\
  dom first.1 = dom (AmqpQueues.CELERY_QUEUES c).
Proof.
  unfold AmqpQueues.get_queues. simpl. split; [reflexivity|]. split.
  - f_equal.
    + rewrite <- map_fmap_compose. apply map_fmap_ext.
      intros q opts _. exact (defaults_idempotent c opts).
    + f_equal. rewrite <- map_fmap_compose. apply map_fmap_ext.
      intros q opts _. exact (defaults_idempotent c opts).
  - apply dom_fmap_L.
Qed.

Section ConsumerSetConsumers.
Import AmqpQueues.

Lemma make_consumers_ok (items : list (string * gmap string pyval)) :
  forall consumers,
    make_consumers items = Ok consumers ->
    Forall2 consumer_of items consumers.
Proof.
  induction items as [|[q o] items IH]; intros consumers; simpl.
  - intros [= <-]. constructor.
  - unfold make_consumer.
    destruct (_ || _); [discriminate|].
    destruct (make_consumers items) as [rest|e]; [|discriminate].
    intros [= <-]. constructor; [by split|by apply IH].
Qed.

End ConsumerSetConsumers.

(** X26: when [get_consumer_set] returns, the set has one consumer for
    every queue it was given (or, given none, for every configured queue);
    the consumer of a queue keeps the queue's options, except that
    [binding_key] is taken out and [routing_key] is set to what
    [binding_key] was, [None] if there was none, whatever [routing_key] the
    options had. *)
Theorem consumer_set_routes_by_binding_key
    (c c' : AmqpQueues.conf)
    (queues : option (gmap string (gmap string pyval)))
    (consumers : list AmqpQueues.consumer) :
  AmqpQueues.get_consumer_set c queues = (Ok consumers, c') ->
  let gone_through :=
    match queues with
    | Some given =>
        if bool_decide (dom given = ∅) then (AmqpQueues.get_queues c).1
        else given
    | None => (AmqpQueues.get_queues c).1
    end in
  length consumers = size gone_through /\
  forall q o, gone_through !! q = Some o ->
    exists cons,
      cons ∈ consumers /\ AmqpQueues.queue cons = q /\
      AmqpQueues.consumer_options cons !! "routing_key" =
        Some (AmqpQueues.get o "binding_key") /\
      AmqpQueues.consumer_options cons !! "binding_key" = None /\
      forall k, k <> "routing_key" -> k <> "binding_key" ->
        AmqpQueues.consumer_options cons !! k = o !! k.
Proof.
  intros Hset gone_through.
  assert (Hmade : AmqpQueues.make_consumers (map_to_list gone_through)
                  = Ok consumers).
  { revert Hset. unfold AmqpQueues.get_consumer_set, gone_through.
    destruct queues as [given|]; [case_bool_decide|]; simpl;
      by intros [= -> _]. }
  pose proof (make_consumers_ok _ _ Hmade) as Hall. split.
  - rewrite <- (Forall2_length _ _ _ Hall). apply length_map_to_list.
  - intros q o Hq. apply elem_of_map_to_list in Hq.
    apply list_elem_of_lookup in Hq as [i Hi].
    destruct (Forall2_lookup_l _ _ _ _ _ Hall Hi)
      as (cons & Hcons & Hq' & Hopts).
    exists cons. split; [by eapply list_elem_of_lookup_2|].
    split; [exact Hq'|]. simpl in Hopts. rewrite Hopts.
    split; [by rewrite lookup_insert_eq|].
    split; [by rewrite lookup_insert_ne, lookup_delete_eq|].
    intros k Hk1 Hk2. by rewrite lookup_insert_ne, lookup_delete_ne.
Qed.

Lemma consumer_set_routes_by_binding_key_witness :
  exists cons,
    AmqpQueues.queue cons = "video" /\
    AmqpQueues.consumer_options cons !! "routing_key" = Some PNone /\
    AmqpQueues.consumer_options cons !! "exchange" = Some (PStr "media").
Proof.
  pose (given := ({[ "video" := {[ "exchange" := PStr "media";
                                     "routing_key" := PStr "clips" ]} ]}
                  : gmap string (gmap string pyval))).
  assert (Hset : exists consumers,
             AmqpQueues.get_consumer_set AmqpQueuesExample.conf (Some given)
             = (Ok consumers, AmqpQueuesExample.conf))
    by (vm_compute; eauto).
  destruct Hset as [consumers Hset].
  destruct (consumer_set_routes_by_binding_key _ _ _ _ Hset) as [_ Hq].
  destruct (Hq "video" {[ "exchange" := PStr "media";
                           "routing_key" := PStr "clips" ]})
    as (cons & _ & Hname & Hroute & _ & Hrest).
  { vm_compute. reflexivity. }
  exists cons. split; [exact Hname|]. split; [exact Hroute|].
  rewrite Hrest by discriminate. vm_compute. reflexivity.
Defined.

Section ReceiveCallbackLog.
Import Consumer.

(** After the acknowledgement, if any, the receive callback makes at most
    one more call, and that is no acknowledgement. *)
Lemma receive_callback_log (self : ConsumerSet) (raw_message : raw_message) :
  exists rest,
    (_receive_callback self raw_message []).2 =
      auto_acks self raw_message ++ rest /\
    forall tag, EAck tag ∉ rest.
Proof.
  unfold _receive_callback, auto_acks.
  cbv [mbind eff_bind mret eff_ret emit lift raise try_except].
  destruct (auto_ack self &&
            negb (acknowledged (message_to_python self raw_message)));
    simpl;
    (destruct (decode (message_to_python self raw_message))
       as [decoded|exc]; simpl;
     [ match goal with
       | |- context [receive ?s ?d ?m] => destruct (receive s d m)
       end; simpl
     | destruct (is_Exception (exn_cls exc)); simpl;
       [ destruct (on_decode_error self) as [callback|]; simpl;
         [ match goal with
           | |- context [callback ?m exc] => destruct (callback m exc)
           end; simpl |]
       |] ]);
    eexists; (split; [reflexivity|]);
    intros tag Hin; rewrite ?elem_of_cons, ?elem_of_nil in Hin;
    intuition discriminate.
Qed.

End ReceiveCallbackLog.

(** X27: with [auto_ack] on, a message that is not yet acknowledged is
    acknowledged first, before it is decoded and whatever decoding comes to,
    and only once; a message already acknowledged, or any message with
    [auto_ack] off, is not acknowledged by the receive callback. *)
Theorem auto_ack_comes_before_decode
    (self : Consumer.ConsumerSet) (raw_message : Consumer.raw_message) :
  let message := Consumer.message_to_python self raw_message in
  let log := (Consumer._receive_callback self raw_message []).2 in
  (Consumer.auto_ack self = true -> Consumer.acknowledged message = false ->
   exists rest,
     log = Consumer.EAck (Consumer.delivery_tag (Consumer.raw message)) :: rest
     /\ forall tag, Consumer.EAck tag ∉ rest) /\
  (Consumer.auto_ack self = false \/ Consumer.acknowledged message = true ->
   forall tag, Consumer.EAck tag ∉ log).
Proof.
  intros message log. subst log.
  destruct (receive_callback_log self raw_message) as (rest & -> & Hno).
  unfold Consumer.auto_acks. fold message. split.
  - intros -> ->. simpl. eauto.
  - intros Hoff tag.
    assert (Hcond : Consumer.auto_ack self
                    && negb (Consumer.acknowledged message) = false).
    { destruct Hoff as [-> | ->]; [reflexivity|apply andb_false_r]. }
    rewrite Hcond. simpl. apply Hno.
Qed.

Lemma auto_ack_comes_before_decode_witness :
  exists rest,
    (Consumer._receive_callback ConsumerExample.without_callback
       ConsumerExample.raw1 []).2 = Consumer.EAck 1 :: rest.
Proof.
  destruct (auto_ack_comes_before_decode ConsumerExample.without_callback
              ConsumerExample.raw1) as [Hon _].
  destruct (Hon eq_refl eq_refl) as (rest & Hlog & _).
  exists rest. exact Hlog.
Defined.

(** ** The clock server's entry point *)

Section ClockServer.
Import Beat.

(** What [run_clockserver] does once the log level is resolved and the
    init handler has returned. *)
Lemma run_clockserver_started (w : surroundings) (o : options) (level : Z) :
  resolve_loglevel w (loglevel o) = Ok level ->
  worker_init_raises w = None ->
  let logfile' := if detach o then logfile o else PNone in
  let head :=
    [EPrint Starting; EPrint Configuration; EPrint Started] ++
    (if detach o
     then [EContextOpen logfile' (pidfile o); ESetupLogger level logfile';
           ERedirectStdouts level]
     else []) ++
    [EWorkerInit; EClockStart level logfile' (detach o)] in
  run_clockserver w o [] =
    match clock_raises w with
    | None => (Ok tt, head)
    | Some e =>
        if is_Exception (exn_cls e)
        then (Ok tt, head ++ [EEmergencyError logfile' e])
        else (Raise e, head ++ (if detach o then [EContextClose] else []))
    end.
Proof.
  intros Hlevel Hinit. unfold run_clockserver, _run_clock.
  cbv [mbind eff_bind mret eff_ret emit lift raise try_except]. simpl.
  rewrite Hlevel, Hinit. simpl.
  destruct (detach o); simpl;
    (destruct (clock_raises w) as [e|]; simpl; [|reflexivity]);
    destruct (is_Exception (exn_cls e)); reflexivity.
Qed.

End ClockServer.

(** X28: run in the foreground, the clock server ignores the log file it
    is given: no daemon context is opened and no logger set up, and the
    clock service, and the emergency log if the service fails, get [None]
    for the log file. *)
Theorem foreground_clock_logs_to_stderr
    (w : Beat.surroundings) (o : Beat.options) :
  Beat.detach o = false ->
  forall ev, ev ∈ (Beat.run_clockserver w o []).2 ->
    match ev with
    | Beat.EContextOpen _ _ | Beat.ESetupLogger _ _
    | Beat.ERedirectStdouts _ | Beat.EContextClose => False
    | Beat.EClockStart _ logfile is_detached =>
        logfile = PNone /\ is_detached = false
    | Beat.EEmergencyError logfile _ => logfile = PNone
    | Beat.EPrint _ | Beat.EWorkerInit => True
    end.
Proof.
  intros Hfg ev. unfold Beat.run_clockserver, Beat._run_clock.
  cbv [mbind eff_bind mret eff_ret emit lift raise try_except]. simpl.
  rewrite Hfg.
  destruct (Beat.resolve_loglevel w (Beat.loglevel o)) as [level|e]; simpl.
  - destruct (Beat.worker_init_raises w) as [e|]; simpl.
    + intros Hin. rewrite !elem_of_cons, elem_of_nil in Hin.
      destruct Hin as [->|[->|[->|[->|[]]]]]; exact I.
    + destruct (Beat.clock_raises w) as [e|]; simpl;
        [destruct (is_Exception (exn_cls e)); simpl|];
        intros Hin; rewrite !elem_of_cons, elem_of_nil in Hin;
        repeat (destruct Hin as [->|Hin]; [done|]); by destruct Hin.
  - intros Hin. rewrite !elem_of_cons, elem_of_nil in Hin.
    destruct Hin as [->|[]]; exact I.
Qed.

Lemma foreground_clock_logs_to_stderr_witness :
  Beat.run_clockserver BeatExample.clock_fails BeatExample.foreground [] =
    (Ok tt,
     [Beat.EPrint Beat.Starting; Beat.EPrint Beat.Configuration;
      Beat.EPrint Beat.Started; Beat.EWorkerInit;
      Beat.EClockStart 20 PNone false;
      Beat.EEmergencyError PNone (Exn (OtherException "IOError") [])]) /\
  (PNone = PNone /\ false = false).
Proof.
  assert (Hrun : Beat.run_clockserver BeatExample.clock_fails
                   BeatExample.foreground [] =
                 (Ok tt,
                  [Beat.EPrint Beat.Starting; Beat.EPrint Beat.Configuration;
                   Beat.EPrint Beat.Started; Beat.EWorkerInit;
                   Beat.EClockStart 20 PNone false;
                   Beat.EEmergencyError PNone
                     (Exn (OtherException "IOError") [])]))
    by (vm_compute; reflexivity).
  split; [exact Hrun|].
  apply (foreground_clock_logs_to_stderr BeatExample.clock_fails
           BeatExample.foreground eq_refl
           (Beat.EClockStart 20 PNone false)).
  rewrite Hrun. simpl. rewrite !elem_of_cons.
  right; right; right; right; left. reflexivity.
Defined.

(** X29: an [Exception] the clock service raises is reported to the
    emergency log and goes no further: [run_clockserver] returns, and a
    daemon context that was opened stays open; any other exception
    propagates, after the daemon context has been closed if the server is
    detached. *)
Theorem clock_failure_is_reported_or_propagated
    (w : Beat.surroundings) (o : Beat.options) (level : Z) (e : exn) :
  Beat.resolve_loglevel w (Beat.loglevel o) = Ok level ->
  Beat.worker_init_raises w = None ->
  Beat.clock_raises w = Some e ->
  let out := Beat.run_clockserver w o [] in
  let reported :=
    Beat.EEmergencyError (if Beat.detach o then Beat.logfile o else PNone) e in
  (is_Exception (exn_cls e) = true ->
   out.1 = Ok tt /\ last out.2 = Some reported /\
   (Beat.EContextClose ∉ out.2)) /\
  (is_Exception (exn_cls e) = false ->
   out.1 = Raise e /\ (reported ∉ out.2) /\
   (Beat.EContextClose ∈ out.2 <-> Beat.detach o = true)).
Proof.
  intros Hlevel Hinit Hclock out reported. subst out reported.
  rewrite (run_clockserver_started w o level Hlevel Hinit), Hclock.
  split; intros He; rewrite He; simpl.
  - split; [reflexivity|]. destruct (Beat.detach o); simpl.
    + split; [reflexivity|]. intros Hin.
      rewrite !elem_of_cons, elem_of_nil in Hin. intuition discriminate.
    + split; [reflexivity|]. intros Hin.
      rewrite !elem_of_cons, elem_of_nil in Hin. intuition discriminate.
  - split; [reflexivity|]. destruct (Beat.detach o); simpl.
    + split.
      * intros Hin. rewrite !elem_of_cons, elem_of_nil in Hin.
        intuition discriminate.
      * split; [done|]. intros _. rewrite !elem_of_cons. tauto.
    + split.
      * intros Hin. rewrite !elem_of_cons, elem_of_nil in Hin.
        intuition discriminate.
      * split; [|discriminate]. intros Hin.
        rewrite !elem_of_cons, elem_of_nil in Hin. intuition discriminate.
Qed.

Lemma clock_failure_is_reported_or_propagated_witness :
  (Beat.run_clockserver BeatExample.interrupted BeatExample.background []).1
    = Raise (Exn KeyboardInterrupt []) /\
  (Beat.run_clockserver BeatExample.clock_fails BeatExample.background []).1
    = Ok tt.
Proof.
  split.
  - apply (clock_failure_is_reported_or_propagated BeatExample.interrupted
             BeatExample.background 20 (Exn KeyboardInterrupt [])
             eq_refl eq_refl eq_refl).
    reflexivity.
  - apply (clock_failure_is_reported_or_propagated BeatExample.clock_fails
             BeatExample.background 20 (Exn (OtherException "IOError") [])
             eq_refl eq_refl eq_refl).
    reflexivity.
Defined.

(** X30: a log level given by name is put in upper case and looked up in
    [LOG_LEVELS]: the server then runs exactly as with the number itself;
    a name the table does not have raises [KeyError] right after the first
    line is printed, before anything is opened or started. *)
Theorem loglevel_name_is_looked_up_in_upper_case
    (w : Beat.surroundings) (o : Beat.options) (name : string) :
  Beat.loglevel o = PStr name ->
  match Beat.LOG_LEVELS w !! Beat.upper name with
  | Some level =>
      Beat.run_clockserver w o [] =
      Beat.run_clockserver w
        (Beat.mkOptions (Beat.detach o) (PInt level) (Beat.logfile o)
           (Beat.pidfile o)) []
  | None =>
      Beat.run_clockserver w o [] =
        (Raise (Exn KeyError [PStr (Beat.upper name)]),
         [Beat.EPrint Beat.Starting])
  end.
Proof.
  intros Hname. unfold Beat.run_clockserver.
  cbv [mbind eff_bind mret eff_ret emit lift raise]. simpl.
  rewrite Hname. simpl.
  destruct (Beat.LOG_LEVELS w !! Beat.upper name); reflexivity.
Qed.

Lemma loglevel_name_is_looked_up_in_upper_case_witness :
  Beat.run_clockserver BeatExample.quiet BeatExample.foreground [] =
  Beat.run_clockserver BeatExample.quiet
    (Beat.mkOptions false (PInt 20) (PStr "/var/log/beat.log")
       (PStr "beat.pid")) [].
Proof.
  pose proof (loglevel_name_is_looked_up_in_upper_case BeatExample.quiet
                BeatExample.foreground "info" eq_refl) as H.
  change (Beat.LOG_LEVELS BeatExample.quiet !! Beat.upper "info")
    with (Some 20) in H.
  exact H.
Defined.
